(** * rampify mcp-server: the URL resolver and the TTL cache

    A shallow embedding of [services/url-resolver.ts] and
    [services/cache.ts], of the helpers of [tools/generate-meta.ts]
    that classify a page and list the issues of its meta tags, and of
    [utils/gsc-state.ts].

    - JavaScript strings are [string]s of one-byte characters (lists of
      [ascii] inside the regular-expression engine).  Text outside
      ASCII, where the program holds any (the signs of gsc-state,
      titles and descriptions), is carried as its UTF-8 bytes, and
      [GenerateMeta.utf16_length] is [.length] on such text.
    - The regex literals of the resolver are kept as their pattern
      text and read by [Regex.parse]; [Regex.matches] runs them with
      the backtracking order of the host.
    - The [Map] behind the cache is a [gmap string _]; [Date.now()] is
      an explicit time argument in milliseconds; TTLs and the numbers
      given to [generateKey] are integers.
    - [getOrSet] is split at its [await]: the promise of the factory
      settles with an outcome that the environment supplies.
    - The sweep that the constructor of the cache schedules every five
      minutes is [Cache.cleanup] at the time it runs.
    - Calls to the logger have no effect on results and are left out. *)

From Stdlib Require Import ZArith Bool Ascii.
From Stdlib Require String.
From stdpp Require Import gmap strings list fin_maps pretty.

(** ** Regular expressions

    The part of the ECMAScript regular-expression language that the two
    services use: literals, [.], character classes, groups,
    alternation, greedy and lazy quantifiers, [^] and [$], with the
    backtracking priority of the host engine.  [matches] enumerates the
    successful continuations of a pattern at a position in priority
    order, so that the head of the list is the match the host's
    backtracking finds first. *)
Module Regex.

Definition chars := list ascii.

Inductive greed := Greedy | Lazy.

Inductive regex :=
| Eps
| Chr (c : ascii)
| Dot
| Class (neg : bool) (ranges : list (ascii * ascii))
| Seq (r1 r2 : regex)
| Alt (r1 r2 : regex)
| Star (g : greed) (r : regex)
| Plus (g : greed) (r : regex)
| Opt (g : greed) (r : regex)
| Group (i : nat) (r : regex)
| NGroup (r : regex)
| Bol
| Eol.

Definition code (c : ascii) : N := N_of_ascii c.

Definition in_range (lo hi c : ascii) : bool :=
  (code lo <=? code c)%N && (code c <=? code hi)%N.

Definition is_lower (c : ascii) : bool := in_range "a"%char "z"%char c.
Definition is_upper (c : ascii) : bool := in_range "A"%char "Z"%char c.
Definition is_digit (c : ascii) : bool := in_range "0"%char "9"%char c.

Definition to_upper (c : ascii) : ascii :=
  if is_lower c then ascii_of_N (code c - 32) else c.
Definition to_lower (c : ascii) : ascii :=
  if is_upper c then ascii_of_N (code c + 32) else c.

(** [Canonicalize] of the host: without the [i] flag the character
    itself, with it the upper-case form. *)
Definition canon (ic : bool) (c : ascii) : ascii :=
  if ic then to_upper c else c.

Definition char_eq (ic : bool) (a b : ascii) : bool :=
  Ascii.eqb (canon ic a) (canon ic b).

(** Some member [a] of the range has [canon a = canon c]. *)
Definition range_has (ic : bool) (c : ascii) (rg : ascii * ascii) : bool :=
  in_range rg.1 rg.2 c
  || (ic && (in_range rg.1 rg.2 (to_upper c) || in_range rg.1 rg.2 (to_lower c))).

Definition class_has (ic neg : bool) (ranges : list (ascii * ascii)) (c : ascii) : bool :=
  xorb neg (existsb (range_has ic c) ranges).

(** [.] matches everything but a line terminator. *)
Definition is_line_terminator (c : ascii) : bool :=
  Ascii.eqb c "010"%char || Ascii.eqb c "013"%char.

Definition not_terminator (c : ascii) : bool := negb (is_line_terminator c).

(** A position of the matcher: the index into the subject, what is left
    of it, and the captures recorded so far (latest first). *)
Record mstate := MState {
  ms_idx : nat;
  ms_rest : chars;
  ms_caps : list (nat * chars)
}.

Definition step1 (ok : ascii -> bool) (st : mstate) : list mstate :=
  match ms_rest st with
  | c :: t => if ok c then [MState (S (ms_idx st)) t (ms_caps st)] else []
  | [] => []
  end.

Definition capture (i : nat) (st st' : mstate) : mstate :=
  MState (ms_idx st') (ms_rest st')
         ((i, take (ms_idx st' - ms_idx st) (ms_rest st)) :: ms_caps st').

(** Iteration of a quantified atom.  As in the host, an iteration that
    consumes nothing is rejected, so [S (length rest)] rounds suffice. *)
Fixpoint iter_star (g : greed) (step : mstate -> list mstate)
    (fuel : nat) (st : mstate) : list mstate :=
  match fuel with
  | O => [st]
  | S n =>
    let more :=
      flat_map (fun st' =>
                  if length (ms_rest st') <? length (ms_rest st)
                  then iter_star g step n st' else [])
               (step st) in
    match g with
    | Greedy => more ++ [st]
    | Lazy => st :: more
    end
  end.

Fixpoint matches (ic : bool) (r : regex) (st : mstate) : list mstate :=
  match r with
  | Eps => [st]
  | Chr c => step1 (char_eq ic c) st
  | Dot => step1 not_terminator st
  | Class neg ranges => step1 (class_has ic neg ranges) st
  | Seq r1 r2 => flat_map (matches ic r2) (matches ic r1 st)
  | Alt r1 r2 => matches ic r1 st ++ matches ic r2 st
  | Star g r1 => iter_star g (matches ic r1) (S (length (ms_rest st))) st
  | Plus g r1 =>
    flat_map (fun st' => iter_star g (matches ic r1) (S (length (ms_rest st'))) st')
             (matches ic r1 st)
  | Opt g r1 =>
    match g with
    | Greedy => matches ic r1 st ++ [st]
    | Lazy => st :: matches ic r1 st
    end
  | Group i r1 => map (capture i st) (matches ic r1 st)
  | NGroup r1 => matches ic r1 st
  | Bol => if ms_idx st =? 0 then [st] else []
  | Eol => match ms_rest st with [] => [st] | _ :: _ => [] end
  end.

(** The result of [RegExp.prototype.exec]: where the match starts, the
    matched text, the position after it and the captures. *)
Record rmatch := RMatch {
  m_index : nat;
  m_text : chars;
  m_end : mstate
}.

(** Leftmost match at or after index [idx], [s] being the subject from
    [idx] on. *)
Fixpoint exec_at (ic : bool) (r : regex) (idx : nat) (s : chars) : option rmatch :=
  match matches ic r (MState idx s []) with
  | st :: _ => Some (RMatch idx (take (ms_idx st - idx) s) st)
  | [] =>
    match s with
    | [] => None
    | _ :: t => exec_at ic r (S idx) t
    end
  end.

Definition exec (ic : bool) (r : regex) (s : chars) : option rmatch :=
  exec_at ic r 0 s.

Definition test (ic : bool) (r : regex) (s : chars) : bool :=
  match exec ic r s with Some _ => true | None => false end.

(** Capture group [i] of a match; a group that did not take part is
    [undefined], rendered as the empty string by [replace]. *)
Fixpoint assoc (i : nat) (l : list (nat * chars)) : option chars :=
  match l with
  | [] => None
  | (j, v) :: l' => if i =? j then Some v else assoc i l'
  end.

Definition group (i : nat) (m : rmatch) : option chars :=
  assoc i (ms_caps (m_end m)).

(** Replacement templates: literal text and [$n]. *)
Inductive titem := TLit (s : chars) | TGroup (i : nat).

Definition expand (tpl : list titem) (m : rmatch) : chars :=
  flat_map (fun it =>
              match it with
              | TLit s => s
              | TGroup i => default [] (group i m)
              end) tpl.

(** [s.replace(re, tpl)] for a regex without the [g] flag. *)
Definition replace_first (ic : bool) (r : regex) (tpl : list titem) (s : chars) : chars :=
  match exec ic r s with
  | None => s
  | Some m => take (m_index m) s ++ expand tpl m ++ ms_rest (m_end m)
  end.

(** [s.replace(re, tpl)] for a regex with the [g] flag: matches are
    replaced left to right, the search resuming after each match (one
    character further after an empty match). *)
Fixpoint replace_from (ic : bool) (r : regex) (tpl : list titem)
    (fuel idx : nat) (s : chars) : chars :=
  match fuel with
  | O => s
  | S fuel' =>
    match exec_at ic r idx s with
    | None => s
    | Some m =>
      let skipped := take (m_index m - idx) s in
      let st := m_end m in
      if ms_idx st =? m_index m then
        match ms_rest st with
        | [] => skipped ++ expand tpl m
        | c :: t => skipped ++ expand tpl m ++ c :: replace_from ic r tpl fuel' (S (ms_idx st)) t
        end
      else skipped ++ expand tpl m ++ replace_from ic r tpl fuel' (ms_idx st) (ms_rest st)
    end
  end.

Definition replace_all (ic : bool) (r : regex) (tpl : list titem) (s : chars) : chars :=
  replace_from ic r tpl (S (length s)) 0 s.

(** What is left at [st'] is a suffix of what is left at [st]. *)
Definition extends (st st' : mstate) : Prop :=
  exists took, ms_rest st = took ++ ms_rest st'.

(** The longest prefix of characters that pass a test, and what
    follows it. *)
Fixpoint take_while (ok : ascii -> bool) (s : chars) : chars :=
  match s with
  | c :: t => if ok c then c :: take_while ok t else []
  | [] => []
  end.

Fixpoint drop_while (ok : ascii -> bool) (s : chars) : chars :=
  match s with
  | c :: t => if ok c then drop_while ok t else s
  | [] => []
  end.

(** *** Pattern syntax

    [parse] reads the pattern text of a regex literal (or the argument
    of [new RegExp]) for the constructs above.  It answers [None] for a
    pattern the host rejects with a [SyntaxError] and for syntax outside
    this fragment (braces, look-around, back-references). *)

Definition word_ranges : list (ascii * ascii) :=
  [("a", "z"); ("A", "Z"); ("0", "9"); ("_", "_")]%char.

(** A character escape [\c] read as a literal character. *)
Definition escape_char (c : ascii) : option ascii :=
  if Ascii.eqb c "n" then Some "010"%char
  else if Ascii.eqb c "r" then Some "013"%char
  else if Ascii.eqb c "t" then Some "009"%char
  else if existsb (range_has false c) word_ranges then None
  else Some c.

Definition class_atom (s : chars) : option (ascii * chars) :=
  match s with
  | [] => None
  | c :: t =>
    if Ascii.eqb c "\" then
      match t with
      | [] => None
      | e :: t' => (fun a => (a, t')) <$> escape_char e
      end
    else Some (c, t)
  end.

Fixpoint parse_class (fuel : nat) (s : chars) : option (list (ascii * ascii) * chars) :=
  match fuel with
  | O => None
  | S f =>
    match s with
    | [] => None
    | c :: t =>
      if Ascii.eqb c "]" then Some ([], t)
      else
        match class_atom s with
        | None => None
        | Some (lo, t1) =>
          let single :=
            (fun '(items, rest) => ((lo, lo) :: items, rest)) <$> parse_class f t1 in
          match t1 with
          | d :: t2 =>
            if Ascii.eqb d "-" then
              match t2 with
              | [] => None
              | e :: _ =>
                if Ascii.eqb e "]" then single
                else
                  match class_atom t2 with
                  | None => None
                  | Some (hi, t3) =>
                    if (code lo <=? code hi)%N
                    then (fun '(items, rest) => ((lo, hi) :: items, rest)) <$> parse_class f t3
                    else None
                  end
              end
            else single
          | [] => None
          end
        end
    end
  end.

Definition quantify (r : regex) (s : chars) : option (regex * chars) :=
  let lazy_of (mk : greed -> regex) (t : chars) :=
    match t with
    | q :: t' => if Ascii.eqb q "?" then (mk Lazy, t') else (mk Greedy, t)
    | [] => (mk Greedy, t)
    end in
  let quantifiable :=
    match r with Bol | Eol => false | _ => true end in
  match s with
  | c :: t =>
    if Ascii.eqb c "*" then
      if quantifiable then Some (lazy_of (fun g => Star g r) t) else None
    else if Ascii.eqb c "+" then
      if quantifiable then Some (lazy_of (fun g => Plus g r) t) else None
    else if Ascii.eqb c "?" then
      if quantifiable then Some (lazy_of (fun g => Opt g r) t) else None
    else if Ascii.eqb c "{" then None
    else Some (r, s)
  | [] => Some (r, s)
  end.

Fixpoint seq_of (rs : list regex) : regex :=
  match rs with
  | [] => Eps
  | [r] => r
  | r :: rs' => Seq r (seq_of rs')
  end.

Definition expect_close (s : chars) : option chars :=
  match s with
  | c :: t => if Ascii.eqb c ")" then Some t else None
  | [] => None
  end.

(** [n] is the number of capturing groups opened so far; groups are
    numbered by their opening parenthesis. *)
Fixpoint parse_alt (fuel n : nat) (s : chars) : option (regex * nat * chars) :=
  match fuel with
  | O => None
  | S f =>
    match parse_seq f n s with
    | None => None
    | Some (rs, n1, t) =>
      match t with
      | c :: t' =>
        if Ascii.eqb c "|" then
          match parse_alt f n1 t' with
          | None => None
          | Some (r2, n2, t2) => Some (Alt (seq_of rs) r2, n2, t2)
          end
        else Some (seq_of rs, n1, t)
      | [] => Some (seq_of rs, n1, t)
      end
    end
  end
with parse_seq (fuel n : nat) (s : chars) : option (list regex * nat * chars) :=
  match fuel with
  | O => None
  | S f =>
    match s with
    | [] => Some ([], n, s)
    | c :: _ =>
      if Ascii.eqb c "|" || Ascii.eqb c ")" then Some ([], n, s)
      else
        match parse_atom f n s with
        | None => None
        | Some (a, n1, t) =>
          match quantify a t with
          | None => None
          | Some (r, t1) =>
            match parse_seq f n1 t1 with
            | None => None
            | Some (rs, n2, t2) => Some (r :: rs, n2, t2)
            end
          end
        end
    end
  end
with parse_atom (fuel n : nat) (s : chars) : option (regex * nat * chars) :=
  match fuel with
  | O => None
  | S f =>
    match s with
    | [] => None
    | c :: t =>
      if Ascii.eqb c "(" then
        match t with
        | q :: t1 =>
          if Ascii.eqb q "?" then
            match t1 with
            | k :: t2 =>
              if Ascii.eqb k ":" then
                match parse_alt f n t2 with
                | None => None
                | Some (r, n1, t3) => (fun t4 => (NGroup r, n1, t4)) <$> expect_close t3
                end
              else None
            | [] => None
            end
          else
            match parse_alt f (S n) t with
            | None => None
            | Some (r, n1, t3) => (fun t4 => (Group (S n) r, n1, t4)) <$> expect_close t3
            end
        | [] => None
        end
      else if Ascii.eqb c "[" then
        match t with
        | q :: t1 =>
          if Ascii.eqb q "^"
          then (fun '(items, rest) => (Class true items, n, rest))
                 <$> parse_class (S (length t1)) t1
          else (fun '(items, rest) => (Class false items, n, rest))
                 <$> parse_class (S (length t)) t
        | [] => None
        end
      else if Ascii.eqb c "." then Some (Dot, n, t)
      else if Ascii.eqb c "^" then Some (Bol, n, t)
      else if Ascii.eqb c "$" then Some (Eol, n, t)
      else if Ascii.eqb c "\" then
        match t with
        | e :: t1 =>
          if Ascii.eqb e "d" then Some (Class false [("0", "9")]%char, n, t1)
          else if Ascii.eqb e "D" then Some (Class true [("0", "9")]%char, n, t1)
          else if Ascii.eqb e "w" then Some (Class false word_ranges, n, t1)
          else if Ascii.eqb e "W" then Some (Class true word_ranges, n, t1)
          else (fun a => (Chr a, n, t1)) <$> escape_char e
        | [] => None
        end
      else if Ascii.eqb c "*" || Ascii.eqb c "+" || Ascii.eqb c "?" || Ascii.eqb c "{"
      then None
      else Some (Chr c, n, t)
    end
  end.

Definition parse (pattern : string) : option regex :=
  let s := String.list_ascii_of_string pattern in
  match parse_alt (4 + 4 * length s) 0 s with
  | Some (r, _, []) => Some r
  | _ => None
  end.

(** A regex literal of the source; a pattern outside the fragment would
    read as the class that matches nothing. *)
Definition re (pattern : string) : regex :=
  default (Class false []) (parse pattern).

(** *** Regex objects and the string methods that take them *)

Definition str (s : chars) : string := String.string_of_list_ascii s.
Definition chs (s : string) : chars := String.list_ascii_of_string s.

Record RegExp := {
  rx : regex;
  ignoreCase : bool;
  global : bool
}.

Definition has_flag (f : ascii) (flags : string) : bool :=
  existsb (Ascii.eqb f) (chs flags).

(** The literal [/pattern/flags]. *)
Definition lit (pattern flags : string) : RegExp :=
  {| rx := re pattern;
     ignoreCase := has_flag "i" flags;
     global := has_flag "g" flags |}.

(** [s.match(r)] for a regex without the [g] flag. *)
Definition js_match (s : string) (r : RegExp) : option rmatch :=
  exec (ignoreCase r) (rx r) (chs s).

(** [m[i]], the empty string standing for [undefined]. *)
Definition grp (m : rmatch) (i : nat) : string :=
  str (default [] (group i m)).

Definition js_test (r : RegExp) (s : string) : bool :=
  test (ignoreCase r) (rx r) (chs s).

(** A replacement string: [$1]..[$9] name a group, [$$] is a dollar. *)
Fixpoint parse_tpl (s : chars) : list titem :=
  match s with
  | [] => []
  | c :: t =>
    if Ascii.eqb c "$" then
      match t with
      | d :: t' =>
        if in_range "1" "9" d then TGroup (N.to_nat (code d - 48)) :: parse_tpl t'
        else if Ascii.eqb d "$" then TLit ["$"%char] :: parse_tpl t'
        else TLit [c] :: parse_tpl t
      | [] => [TLit [c]]
      end
    else TLit [c] :: parse_tpl t
  end.

(** [s.replace(r, tpl)]. *)
Definition js_replace (s : string) (r : RegExp) (tpl : string) : string :=
  let f := if global r then replace_all else replace_first in
  str (f (ignoreCase r) (rx r) (parse_tpl (chs tpl)) (chs s)).

(** [s.includes(needle)]. *)
Fixpoint includes (s needle : string) : bool :=
  String.prefix needle s
  || match s with
     | EmptyString => false
     | String _ t => includes t needle
     end.

(** [a || b] on strings: the empty string is falsy. *)
Definition or_str (a b : string) : string :=
  match a with EmptyString => b | _ => a end.

(** [s.endsWith(suffix)]. *)
Fixpoint endsWith (s suffix : string) : bool :=
  String.eqb s suffix
  || match s with
     | EmptyString => false
     | String _ t => endsWith t suffix
     end.

(** [array.includes(x)] on an array of strings. *)
Definition array_includes (array : list string) (x : string) : bool :=
  existsb (String.eqb x) array.

(** [s.split(sep)] for a separator of one character. *)
Fixpoint split_on (sep : ascii) (s : chars) : list chars :=
  match s with
  | [] => [[]]
  | c :: t =>
    if Ascii.eqb c sep then [] :: split_on sep t
    else
      match split_on sep t with
      | h :: r => (c :: h) :: r
      | [] => [[c]]
      end
  end.

(** The pattern that reads a literal text and then [r]. *)
Fixpoint lits_then (lits : chars) (r : regex) : regex :=
  match lits with
  | [] => r
  | c :: lits' => Seq (Chr c) (lits_then lits' r)
  end.

End Regex.

(** ** services/url-resolver.ts *)
Module URLResolver.
Import Regex.

Inductive Confidence := high | medium | low.

Record ResolvedURL := {
  urlPath : string;
  confidence : Confidence;
  reasoning : string
}.

(** The three [replace] calls shared by the Next.js and Astro branches,
    in the order of the source. *)
Definition bracket_replaces (segments : string) : string :=
  js_replace
    (js_replace
       (js_replace segments (lit "\[([^\]]+)\]" "g") ":$1")
       (lit "\[\.\.\.([^\]]+)\]" "g") "*")
    (lit "\/index$" "") "".

Definition detectFramework (filePath : string) : string :=
  if includes filePath "/app/" || includes filePath "/pages/" then "nextjs"
  else if includes filePath "/src/pages/" then "astro"
  else if includes filePath "/routes/" then "remix"
  else "generic".

Definition resolveNextJS (filePath : string) : option ResolvedURL :=
  match js_match filePath (lit "\/app\/(.+?)\/(page|layout|route)\.(tsx?|jsx?)$" "") with
  | Some appRouterMatch =>
    let path := "/" +:+ bracket_replaces (grp appRouterMatch 1) in
    Some {| urlPath := or_str path "/";
            confidence := high;
            reasoning := "Next.js App Router pattern" |}
  | None =>
    match js_match filePath (lit "\/pages\/(.+?)\.(tsx?|jsx?)$" "") with
    | Some pagesRouterMatch =>
      let path := "/" +:+ bracket_replaces (grp pagesRouterMatch 1) in
      Some {| urlPath := or_str path "/";
              confidence := high;
              reasoning := "Next.js Pages Router pattern" |}
    | None => None
    end
  end.

Definition resolveAstro (filePath : string) : option ResolvedURL :=
  match js_match filePath (lit "\/src\/pages\/(.+?)\.astro$" "") with
  | Some m =>
    let path := "/" +:+ bracket_replaces (grp m 1) in
    Some {| urlPath := or_str path "/";
            confidence := high;
            reasoning := "Astro pages pattern" |}
  | None => None
  end.

Definition resolveRemix (filePath : string) : option ResolvedURL :=
  match js_match filePath (lit "\/routes\/(.+?)\.(tsx?|jsx?)$" "") with
  | Some m =>
    let path :=
      "/" +:+ js_replace
                (js_replace
                   (js_replace (grp m 1) (lit "\$" "g") ":")
                   (lit "\." "g") "/")
                (lit "\/index$" "") "" in
    Some {| urlPath := or_str path "/";
            confidence := high;
            reasoning := "Remix routes pattern" |}
  | None => None
  end.

Definition genericRe : RegExp := lit "\/([a-z0-9\-_\/]+)\.(html?|php|md)$" "i".

Definition resolveGeneric (filePath : string) : option ResolvedURL :=
  match js_match filePath genericRe with
  | Some m =>
    Some {| urlPath := "/" +:+ grp m 1;
            confidence := low;
            reasoning := "Generic path extraction" |}
  | None => None
  end.

(** [framework || this.detectFramework(filePath)]: an absent or empty
    hint lets the path decide. *)
Definition resolve (filePath : string) (framework : option string) : option ResolvedURL :=
  let detectedFramework :=
    match framework with
    | Some f => if String.eqb f "" then detectFramework filePath else f
    | None => detectFramework filePath
    end in
  if String.eqb detectedFramework "nextjs" then resolveNextJS filePath
  else if String.eqb detectedFramework "astro" then resolveAstro filePath
  else if String.eqb detectedFramework "remix" then resolveRemix filePath
  else resolveGeneric filePath.

(** [if (fuzzyMatch)] tests the string found: the empty string is
    falsy and gives [null]. *)
Definition findMatch (urlPath : string) (availableUrls : list string) : option string :=
  if array_includes availableUrls urlPath then Some urlPath
  else
    let withSlash := if endsWith urlPath "/" then urlPath else urlPath +:+ "/" in
    if array_includes availableUrls withSlash then Some withSlash
    else
      let withoutSlash := js_replace urlPath (lit "\/$" "") "" in
      if array_includes availableUrls withoutSlash then Some withoutSlash
      else
        match find (fun url => includes url urlPath || includes urlPath url)
                   availableUrls with
        | Some fuzzyMatch =>
          match fuzzyMatch with
          | EmptyString => None
          | String _ _ => Some fuzzyMatch
          end
        | None => None
        end.

(** *** Rewritings, read directly

    What the [replace] calls of the matchers do to a string, written
    as list functions: a trailing slash or a trailing [/index] cut
    off, and the character substitutions of the Remix branch. *)

Definition slash_rx : regex := Seq (Chr "/") Eol.

Fixpoint strip_slash (s : chars) : chars :=
  match s with
  | [] => []
  | c :: t =>
    match t with
    | [] => if Ascii.eqb c "/" then [] else [c]
    | _ :: _ => c :: strip_slash t
    end
  end.

Fixpoint strip_index (s : chars) : chars :=
  if String.eqb (str s) "/index" then []
  else
    match s with
    | [] => []
    | c :: t => c :: strip_index t
    end.

Definition remix_char (c : ascii) : ascii :=
  if Ascii.eqb c "$" then ":"%char
  else if Ascii.eqb c "." then "/"%char
  else c.

Definition astroRe : RegExp := lit "\/src\/pages\/(.+?)\.astro$" "".

Definition astro_tail : regex :=
  Seq (Chr ".") (Seq (Chr "a") (Seq (Chr "s") (Seq (Chr "t")
    (Seq (Chr "r") (Seq (Chr "o") Eol))))).

(** *** The Next.js patterns

    The literals of [resolveNextJS] and [bracket_replaces] and their
    parts, and the characters of a path segment that holds no bracket,
    slash or line break. *)

Definition appRouterRe : RegExp :=
  lit "\/app\/(.+?)\/(page|layout|route)\.(tsx?|jsx?)$" "".

(** The end of the three script-file patterns, [\.(tsx?|jsx?)$], the
    extension being group [n]. *)
Definition script_ext : regex :=
  Alt (Seq (Chr "t") (Seq (Chr "s") (Opt Greedy (Chr "x"))))
      (Seq (Chr "j") (Seq (Chr "s") (Opt Greedy (Chr "x")))).

Definition script_tail (n : nat) : regex :=
  Seq (Chr ".") (Seq (Group n script_ext) Eol).

Definition appRouter_cont : regex :=
  Seq (Chr "/")
    (Seq (Group 2
            (Alt (Seq (Chr "p") (Seq (Chr "a") (Seq (Chr "g") (Chr "e"))))
               (Alt (Seq (Chr "l") (Seq (Chr "a") (Seq (Chr "y")
                       (Seq (Chr "o") (Seq (Chr "u") (Chr "t"))))))
                  (Seq (Chr "r") (Seq (Chr "o") (Seq (Chr "u")
                       (Seq (Chr "t") (Chr "e"))))))))
       (script_tail 3)).

Definition pagesRouterRe : RegExp := lit "\/pages\/(.+?)\.(tsx?|jsx?)$" "".

Definition remixRe : RegExp := lit "\/routes\/(.+?)\.(tsx?|jsx?)$" "".

Definition dynamic_rx : regex :=
  Seq (Chr "[") (Seq (Group 1 (Plus Greedy (Class true [("]", "]")]%char))) (Chr "]")).

Definition catch_all_rx : regex :=
  Seq (Chr "[") (Seq (Chr ".") (Seq (Chr ".") (Seq (Chr ".")
    (Seq (Group 1 (Plus Greedy (Class true [("]", "]")]%char))) (Chr "]"))))).

Definition index_rx : regex :=
  Seq (Chr "/") (Seq (Chr "i") (Seq (Chr "n") (Seq (Chr "d")
    (Seq (Chr "e") (Seq (Chr "x") Eol))))).

Definition not_open (c : ascii) : bool := negb (char_eq false "[" c).

Definition not_close (c : ascii) : bool := negb (Ascii.eqb c "]").

Definition not_slash (c : ascii) : bool := negb (Ascii.eqb c "/").

Definition plain_name (c : ascii) : bool :=
  negb (Ascii.eqb c "[") && negb (Ascii.eqb c "]") && negb (Ascii.eqb c "/")
  && negb (is_line_terminator c).

Definition plain_prefix (c : ascii) : bool :=
  negb (Ascii.eqb c "[") && negb (is_line_terminator c).

(** *** What the generic pattern accepts

    The characters of the class [[a-z0-9\-_\/]] under the [i] flag,
    the class as the specification reads it, the four extensions up to
    letter case, and a direct reading of the pattern: the leftmost
    slash from which allowed characters run up to a final [.ext]. *)

Definition allowed (c : ascii) : bool :=
  is_lower c || is_upper c || is_digit c
  || Ascii.eqb c "-" || Ascii.eqb c "_" || Ascii.eqb c "/".

Definition allowed_lowercase (c : ascii) : bool :=
  is_lower c || is_digit c
  || Ascii.eqb c "-" || Ascii.eqb c "_" || Ascii.eqb c "/".

Fixpoint same_ci (pat s : chars) : bool :=
  match pat, s with
  | [], [] => true
  | p :: pat', c :: s' => char_eq true p c && same_ci pat' s'
  | _, _ => false
  end.

Definition is_ext (e : chars) : bool :=
  existsb (fun pat => same_ci (chs pat) e) ["html"; "htm"; "php"; "md"].

(** The parts of [genericRe]. *)
Definition generic_class : list (ascii * ascii) :=
  [("a", "z"); ("0", "9"); ("-", "-"); ("_", "_"); ("/", "/")]%char.

Definition generic_ext : regex :=
  Alt (Seq (Chr "h") (Seq (Chr "t") (Seq (Chr "m") (Opt Greedy (Chr "l")))))
      (Alt (Seq (Chr "p") (Seq (Chr "h") (Chr "p")))
           (Seq (Chr "m") (Chr "d"))).

Definition generic_tail : regex :=
  Seq (Chr ".") (Seq (Group 2 generic_ext) Eol).

Definition at_slash (s : chars) : option (chars * chars) :=
  match s with
  | c :: t =>
    if Ascii.eqb c "/" then
      match take_while allowed t, drop_while allowed t with
      | (_ :: _) as body, d :: e =>
        if Ascii.eqb d "." && is_ext e then Some (body, e) else None
      | _, _ => None
      end
    else None
  | [] => None
  end.

Fixpoint scan (s : chars) : option (chars * chars) :=
  match at_slash s with
  | Some be => Some be
  | None =>
    match s with
    | [] => None
    | _ :: t => scan t
    end
  end.

(** *** The first bracket rewriting, read directly

    [replace(/\[([^\]]+)\]/g, ':$1')] from left to right: an opening
    bracket followed by a non-empty run without a closing bracket and
    then a closing bracket becomes a colon before the run.  [opens]
    tells whether what follows an opening bracket is such a run;
    [colon_in] copies the run and drops the bracket that closes it. *)

Definition opens (t : chars) : bool :=
  match take_while not_close t, drop_while not_close t with
  | _ :: _, _ :: _ => true
  | _, _ => false
  end.

Fixpoint colonize (s : chars) : chars :=
  match s with
  | [] => []
  | c :: t =>
    if Ascii.eqb c "[" && opens t then ":"%char :: colon_in t
    else c :: colonize t
  end
with colon_in (s : chars) : chars :=
  match s with
  | [] => []
  | c :: t => if Ascii.eqb c "]" then colonize t else c :: colon_in t
  end.

End URLResolver.

(** ** services/cache.ts *)
Module Cache.
Import Regex.

(** A value of type [T | null]. *)
Inductive jsval (V : Type) := JNull | JVal (v : V).
Arguments JNull {V}.
Arguments JVal {V} v.

(** How a call that may throw ends. *)
Inductive completion (A E : Type) := Normal (a : A) | Throw (e : E).
Arguments Normal {A E} a.
Arguments Throw {A E} e.

(** A part handed to [generateKey]: [string | number | undefined],
    numbers being the integers that ids and counters are. *)
Inductive part := PStr (s : string) | PNum (n : Z) | PUndefined.

(** [Boolean(p)]. *)
Definition truthy (p : part) : bool :=
  match p with
  | PStr s => negb (String.eqb s "")
  | PNum n => negb (n =? 0)%Z
  | PUndefined => false
  end.

(** The text [join] gives an element: [undefined] is the empty string. *)
Definition to_text (p : part) : string :=
  match p with
  | PStr s => s
  | PNum n => pretty n
  | PUndefined => ""
  end.

(** [Array.prototype.join]: the separator goes before every element
    but the first. *)
Definition join (sep : string) (xs : list part) : string :=
  (foldl (fun '(R, k) x =>
            ((if k =? 0 then R else R +:+ sep) +:+ to_text x, S k))
         ("", 0) xs).1.

Definition generateKey (parts : list part) : string :=
  join ":" (filter (fun p => Is_true (truthy p)) parts).

(** The parts the specification keeps: those that are neither absent
    nor the empty string. *)
Definition present (p : part) : bool :=
  match p with
  | PStr s => negb (String.eqb s "")
  | PNum _ => true
  | PUndefined => false
  end.

(** Texts separated by colons, by recursion on the list. *)
Fixpoint joined (xs : list string) : string :=
  match xs with
  | [] => ""
  | [x] => x
  | x :: xs' => x +:+ ":" +:+ joined xs'
  end.

(** [a || b] on an optional number: [undefined] and [0] are falsy. *)
Definition or_num (a : option Z) (b : Z) : Z :=
  match a with
  | Some n => if (n =? 0)%Z then b else n
  | None => b
  end.

Section Store.
Context {V : Type}.

Record CacheEntry := {
  value : jsval V;
  expiresAt : Z
}.

Record Cache := {
  store : gmap string CacheEntry;
  defaultTTL : Z
}.

Definition with_store (c : Cache) (m : gmap string CacheEntry) : Cache :=
  {| store := m; defaultTTL := defaultTTL c |}.

(** [new Cache(defaultTTL)], [cacheTTL] being [config.cacheTTL]. *)
Definition new (ttl : option Z) (cacheTTL : Z) : Cache :=
  {| store := ∅; defaultTTL := or_num ttl cacheTTL |}.

(** [now] is the reading of [Date.now()] during the call. *)
Definition get (now : Z) (key : string) (c : Cache) : jsval V * Cache :=
  match store c !! key with
  | None => (JNull, c)
  | Some entry =>
    if (now >? expiresAt entry)%Z
    then (JNull, with_store c (delete key (store c)))
    else (value entry, c)
  end.

Definition set (now : Z) (key : string) (v : jsval V) (ttl : option Z) (c : Cache) : Cache :=
  let ttlSeconds := or_num ttl (defaultTTL c) in
  let expiresAt := (now + ttlSeconds * 1000)%Z in
  with_store c (<[key := {| value := v; expiresAt := expiresAt |}]> (store c)).

Definition has (now : Z) (key : string) (c : Cache) : bool * Cache :=
  match store c !! key with
  | None => (false, c)
  | Some entry =>
    if (now >? expiresAt entry)%Z
    then (false, with_store c (delete key (store c)))
    else (true, c)
  end.

Definition delete (key : string) (c : Cache) : bool * Cache :=
  (bool_decide (is_Some (store c !! key)), with_store c (base.delete key (store c))).

Definition clear (c : Cache) : Cache := with_store c ∅.

(** The loop of [cleanup] over the entries of the map; [cleaned] is
    only logged. *)
Definition cleanup_loop (now : Z) (entries : list (string * CacheEntry))
    (acc : gmap string CacheEntry * nat) : gmap string CacheEntry * nat :=
  foldl (fun '(m, cleaned) '(key, entry) =>
           if (now >? expiresAt entry)%Z
           then (base.delete key m, S cleaned) else (m, cleaned))
        acc entries.

Definition cleanup (now : Z) (c : Cache) : Cache :=
  let '(m, _) := cleanup_loop now (map_to_list (store c)) (store c, 0) in
  with_store c m.

Section Pattern.
(** [compile p] is [new RegExp(p)]: [None] when the constructor throws
    a [SyntaxError], otherwise the [test] method of the regex built. *)
Variable compile : string -> option (string -> bool).

(** The loop of [deletePattern] over the keys of the map.  Only the key
    at hand is deleted, so the keys visited are those present at the
    start. *)
Definition deletePattern_loop (test : string -> bool) (keys : list string)
    (acc : gmap string CacheEntry * nat) : gmap string CacheEntry * nat :=
  foldl (fun '(m, deleted) key =>
           if test key then (base.delete key m, S deleted) else (m, deleted))
        acc keys.

Definition deletePattern (pattern : string) (c : Cache) : completion (nat * Cache) string :=
  match compile pattern with
  | None => Throw "SyntaxError"
  | Some test =>
    let '(m, deleted) :=
      deletePattern_loop test (map_to_list (store c)).*1 (store c, 0) in
    Normal (deleted, with_store c m)
  end.
End Pattern.

(** *** getOrSet

    The call runs up to [await factory()], is suspended until the
    promise of the factory settles, and then runs to its end. *)

(** Where [getOrSet] stands after its synchronous part. *)
Inductive started := Hit (cached : jsval V) | Miss.

(** [get], then the test [cached !== null]; on [Miss] the factory has
    been called and the caller awaits its promise. *)
Definition getOrSet_start (now : Z) (key : string) (c : Cache) : started * Cache :=
  let '(cached, c') := get now key c in
  match cached with
  | JNull => (Miss, c')
  | JVal _ => (Hit cached, c')
  end.

(** After the await: a fulfilled promise is stored and returned, a
    rejected one rethrows before [set]. *)
Definition getOrSet_resume {E : Type} (now : Z) (key : string)
    (settled : completion (jsval V) E) (ttl : option Z) (c : Cache)
    : completion (jsval V) E * Cache :=
  match settled with
  | Normal v => (Normal v, set now key v ttl c)
  | Throw e => (Throw e, c)
  end.

(** One call with nothing else running between its two parts:
    [factory] is how the promise of the factory settles if it is
    called, [now'] the time at which it does.  The flag tells whether
    the factory was called. *)
Definition getOrSet {E : Type} (now now' : Z) (key : string)
    (factory : completion (jsval V) E) (ttl : option Z) (c : Cache)
    : completion (jsval V) E * bool * Cache :=
  match getOrSet_start now key c with
  | (Hit cached, c') => (Normal cached, false, c')
  | (Miss, c') =>
    let '(r, c'') := getOrSet_resume now' key factory ttl c' in (r, true, c'')
  end.

(** *** Callers in flight

    The event loop runs one synchronous part at a time.  A caller that
    misses calls the factory and is parked on the promise of that
    invocation; invocations are numbered in the order they are made. *)
Section Loop.
Context {E : Type}.

Inductive caller :=
| Awaiting (invocation : nat) (key : string) (ttl : option Z)
| Settled (r : completion (jsval V) E).

Record loop := {
  cache : Cache;
  callers : list caller;
  invocations : nat
}.

Inductive event :=
| Call (now : Z) (key : string) (ttl : option Z)
| Settle (now : Z) (invocation : nat) (r : completion (jsval V) E).

Definition resume_caller (now : Z) (invocation : nat)
    (r : completion (jsval V) E) (acc : Cache * list caller) (cl : caller)
    : Cache * list caller :=
  match cl with
  | Awaiting i key ttl =>
    if i =? invocation then
      let '(res, c') := getOrSet_resume now key r ttl acc.1 in
      (c', acc.2 ++ [Settled res])
    else (acc.1, acc.2 ++ [cl])
  | Settled _ => (acc.1, acc.2 ++ [cl])
  end.

Definition step (w : loop) (e : event) : loop :=
  match e with
  | Call now key ttl =>
    match getOrSet_start now key (cache w) with
    | (Hit cached, c') =>
      {| cache := c';
         callers := callers w ++ [Settled (Normal cached)];
         invocations := invocations w |}
    | (Miss, c') =>
      {| cache := c';
         callers := callers w ++ [Awaiting (invocations w) key ttl];
         invocations := S (invocations w) |}
    end
  | Settle now i r =>
    let '(c', cs) := foldl (resume_caller now i r) (cache w, []) (callers w) in
    {| cache := c'; callers := cs; invocations := invocations w |}
  end.

Definition run (w : loop) (es : list event) : loop := foldl step w es.

Definition idle (c : Cache) : loop :=
  {| cache := c; callers := []; invocations := 0 |}.

(** Callers arriving one after the other for the same key, and the
    promises of invocations [i], [i+1], ... settling in that order. *)
Definition arrivals (key : string) (cs : list (Z * option Z)) : list event :=
  (fun a => Call a.1 key a.2) <$> cs.

Fixpoint settlements (i : nat) (ss : list (Z * completion (jsval V) E)) : list event :=
  match ss with
  | [] => []
  | a :: ss' => Settle a.1 i a.2 :: settlements (S i) ss'
  end.

Fixpoint parked (i : nat) (key : string) (cs : list (Z * option Z)) : list caller :=
  match cs with
  | [] => []
  | a :: cs' => Awaiting i key a.2 :: parked (S i) key cs'
  end.

(** Promises settling in any order: [(now, i, r)] is the promise of
    invocation [i] settling with [r] at time [now]. *)
Definition settling (ss : list (Z * nat * completion (jsval V) E)) : list event :=
  (fun s => Settle s.1.1 s.1.2 s.2) <$> ss.

(** The callers [cs] of a key once the promises [done] have settled:
    the caller of a settled invocation has its outcome, every other
    caller is still parked on its own invocation. *)
Definition settled_callers (key : string) (cs : list (Z * option Z))
    (done : list (Z * nat * completion (jsval V) E)) (l : list caller) : Prop :=
  length l = length cs
  /\ (forall s, s ∈ done -> l !! s.1.2 = Some (Settled s.2))
  /\ (forall i a, cs !! i = Some a -> i ∉ done.*1.*2 ->
                  l !! i = Some (Awaiting i key a.2)).

End Loop.
End Store.

Arguments CacheEntry V : clear implicits.
Arguments Cache V : clear implicits.
Arguments caller V E : clear implicits.
Arguments loop V E : clear implicits.
Arguments event V E : clear implicits.

(** An instance of the constructor that [deletePattern] takes, for the
    patterns of the fragment: where [parse] reads the pattern it is
    [new RegExp(p)] with its [test] method, run by the engine above.
    The host accepts more (braces, word boundaries, look-around); on
    such a pattern the answer [None] here says nothing about the host,
    and nothing below is concluded from it.  The theorem on
    [deletePattern] holds for every constructor, the host's
    included. *)
Definition compile (pattern : string) : option (string -> bool) :=
  (fun r k => test false r (chs k)) <$> parse pattern.

(** A cache with the default TTL of one hour, and the same cache after
    three writes. *)
Definition fresh : Cache nat := new None 3600.

Definition sample : Cache nat :=
  set 1000 "session:1" (JVal 1) None
    (set 1000 "user:1" (JVal 2) (Some 10%Z)
       (set 500 "session:2" (JVal 3) (Some 0%Z) fresh)).

End Cache.

(** ** tools/generate-meta.ts: the helpers that classify a page and
    list the issues of its meta tags *)
Module GenerateMeta.
Import Regex.

Inductive PageType :=
| homepage | blog_post | blog_index | product | about | other.

Record PageAnalysis := {
  url : string;
  current_title : option string;
  current_description : option string;
  main_heading : option string;
  headings : list string;
  word_count : nat;
  content_preview : string;
  page_type : PageType;
  key_topics : list string;
  images : list (string * option string)
}.

Definition detectPageType (urlPath : string) (_headings : list string)
    (_content : string) : PageType :=
  if String.eqb urlPath "/" || String.eqb urlPath "" then homepage
  else if includes urlPath "/blog/" && (2 <? length (split_on "/" (chs urlPath)))
  then blog_post
  else if String.eqb urlPath "/blog" || includes urlPath "/blog" then blog_index
  else if includes urlPath "/product" || includes urlPath "/pricing" then product
  else if includes urlPath "/about" then about
  else other.

(** [!s] for [s : string | null]: null and the empty string. *)
Definition falsy (s : option string) : bool :=
  match s with
  | None => true
  | Some EmptyString => true
  | Some (String _ _) => false
  end.

(** Text outside ASCII is carried as its UTF-8 bytes, while [.length]
    counts UTF-16 code units.  [utf16_units] is what a byte adds to
    that count: a continuation byte nothing, the first byte of a
    four-byte sequence (a character outside the basic plane, which is
    a surrogate pair) two, every other byte one. *)
Definition utf16_units (c : ascii) : nat :=
  if (code c <? 128)%N then 1
  else if (code c <? 192)%N then 0
  else if (code c <? 240)%N then 1
  else 2.

(** [s.length]. *)
Fixpoint utf16_length (s : string) : nat :=
  match s with
  | EmptyString => 0
  | String c t => utf16_units c + utf16_length t
  end.

(** [s.length] where the test before it has found [s] present; null
    counts as empty. *)
Definition text_length (s : option string) : nat :=
  utf16_length (default "" s).

Definition detectMetaIssues (analysis : PageAnalysis) : list string :=
  let title_issues :=
    if falsy (current_title analysis) then ["Missing title tag"]
    else if text_length (current_title analysis) <? 30 then
      ["Title too short (" +:+ pretty (text_length (current_title analysis))
       +:+ " chars, recommend 50-60)"]
    else if 60 <? text_length (current_title analysis) then
      ["Title too long (" +:+ pretty (text_length (current_title analysis))
       +:+ " chars, recommend 50-60)"]
    else [] in
  let description_issues :=
    if falsy (current_description analysis) then ["Missing meta description"]
    else if text_length (current_description analysis) <? 120 then
      ["Meta description too short ("
       +:+ pretty (text_length (current_description analysis))
       +:+ " chars, recommend 150-160)"]
    else if 160 <? text_length (current_description analysis) then
      ["Meta description too long ("
       +:+ pretty (text_length (current_description analysis))
       +:+ " chars, recommend 150-160)"]
    else [] in
  title_issues ++ description_issues.

End GenerateMeta.

(** ** utils/gsc-state.ts *)
Module GSCState.

Inductive Reason :=
| has_data | not_indexed | indexed_no_impressions | no_gsc_data | gsc_not_synced.

Record GSCDataState := {
  hasData : bool;
  reason : Reason;
  message : string;
  emoji : string
}.

(** The optional fields are [string | null | undefined]; both absences
    read as [None]. *)
Record URLWithGSCData := {
  current_gsc_coverage_state : option string;
  current_gsc_indexing_state : option string;
  gsc_impressions_28d : option Z;
  gsc_analytics_last_updated : option string
}.

(** [field === 'text']. *)
Definition is_text (field : option string) (text : string) : bool :=
  match field with
  | Some s => String.eqb s text
  | None => false
  end.

(** [Boolean(field)]: a string that is present and not empty. *)
Definition truthy_text (field : option string) : bool :=
  match field with
  | Some (String _ _) => true
  | _ => false
  end.

(** [impressions] and [clicks] are counts, read as integers. *)
Definition detectGSCDataState (url : URLWithGSCData) (impressions clicks : Z)
    : GSCDataState :=
  if (impressions >? 0)%Z || (clicks >? 0)%Z then
    {| hasData := true;
       reason := has_data;
       message := "Getting " +:+ pretty clicks +:+ " clicks from "
                  +:+ pretty impressions +:+ " impressions in last 28 days";
       emoji := "📊" |}
  else if negb (truthy_text (gsc_analytics_last_updated url)) then
    {| hasData := false;
       reason := no_gsc_data;
       message := "Google Search Console data not yet synced. This may take 24-48 hours for new sites.";
       emoji := "⏳" |}
  else
    let isNotIndexed :=
      negb (is_text (current_gsc_coverage_state url) "Submitted and indexed")
      || is_text (current_gsc_indexing_state url) "INDEXING_STATE_NOT_IN_INDEX" in
    if isNotIndexed then
      let coverageReason :=
        if truthy_text (current_gsc_coverage_state url)
        then " (" +:+ default "" (current_gsc_coverage_state url) +:+ ")"
        else "" in
      {| hasData := false;
         reason := not_indexed;
         message := "This page is not indexed by Google" +:+ coverageReason
                    +:+ ". Zero impressions is expected until indexed.";
         emoji := "🔍" |}
    else
      {| hasData := false;
         reason := indexed_no_impressions;
         message := "This page is indexed but hasn't appeared in search results yet (0 impressions in last 28 days)";
         emoji := "📉" |}.

End GSCState.

(** * Strings *)
Module StringFacts.
Import Regex.

Lemma append_cons (x : ascii) (a b : string) :
  String x a +:+ b = String x (a +:+ b).
Proof. reflexivity. Qed.

Lemma append_assoc (a b c : string) : (a +:+ b) +:+ c = a +:+ (b +:+ c).
Proof. induction a as [|x a IH]; [done | by rewrite !append_cons, IH]. Qed.

Lemma append_nil_r (a : string) : a +:+ "" = a.
Proof. induction a as [|x a IH]; [done | by rewrite append_cons, IH]. Qed.

Lemma chs_append (a b : string) : chs (a +:+ b) = chs a ++ chs b.
Proof.
  induction a as [|x a IH]; [done|].
  rewrite append_cons. unfold chs in *. simpl. by rewrite IH.
Qed.

Lemma str_app (a b : chars) : str (a ++ b) = str a +:+ str b.
Proof.
  induction a as [|x a IH]; [done|].
  unfold str in *. simpl. by rewrite IH.
Qed.

Lemma str_chs (s : string) : str (chs s) = s.
Proof. apply String.string_of_list_ascii_of_string. Qed.

Lemma chs_str (l : chars) : chs (str l) = l.
Proof. apply String.list_ascii_of_string_of_list_ascii. Qed.

Lemma chs_inj (a b : string) : chs a = chs b → a = b.
Proof. intros H. rewrite <- (str_chs a), <- (str_chs b). by rewrite H. Qed.

End StringFacts.

(** * Properties of the matcher *)
Module RegexFacts.
Import Regex.

Lemma sub_add_l (k j : nat) : k + j - j = k.
Proof. lia. Qed.

Lemma sub_succ_2 (j : nat) : S (S j) - j = 2.
Proof. lia. Qed.

Lemma sub_succ_3 (j : nat) : S (S (S j)) - j = 3.
Proof. lia. Qed.

Lemma sub_succ_4 (j : nat) : S (S (S (S j))) - j = 4.
Proof. lia. Qed.

(** A character equal to one pattern character differs from the
    pattern characters of another canonical form. *)
Lemma char_eq_differs (ic : bool) (q p c : ascii) :
  char_eq ic q c = true → canon ic q ≠ canon ic p → char_eq ic p c = false.
Proof.
  unfold char_eq. intros Hq Hne.
  apply Ascii.eqb_eq in Hq. apply Ascii.eqb_neq. congruence.
Qed.

(** Case analysis on the comparisons a symbolic run of the matcher
    meets, and on the subject where it is not yet a [cons]. *)
Ltac case_char_eq :=
  match goal with
  | H : char_eq ?ic ?p ?c = _ |- context [char_eq ?ic ?p ?c] => rewrite H
  | H : char_eq ?ic ?q ?c = true |- context [char_eq ?ic ?p ?c] =>
    rewrite (char_eq_differs ic q p c H) by (vm_compute; discriminate)
  | |- context [char_eq ?ic ?p ?c] =>
    first [ is_var c; destruct (char_eq ic p c) eqn:?
          | let v := eval vm_compute in (char_eq ic p c) in
            change (char_eq ic p c) with v ]
  end.

Ltac case_rest :=
  match goal with
  | |- context [?a ++ _] => is_var a; destruct a
  end.

(** ** Unfolding equations *)

Lemma matches_Seq ic r1 r2 st :
  matches ic (Seq r1 r2) st = flat_map (matches ic r2) (matches ic r1 st).
Proof. reflexivity. Qed.

Lemma matches_Chr ic p st : matches ic (Chr p) st = step1 (char_eq ic p) st.
Proof. reflexivity. Qed.

Lemma matches_Group ic i r st :
  matches ic (Group i r) st = map (capture i st) (matches ic r st).
Proof. reflexivity. Qed.

Lemma matches_Dot ic st : matches ic Dot st = step1 not_terminator st.
Proof. reflexivity. Qed.

Lemma matches_Plus ic g r st :
  matches ic (Plus g r) st
  = flat_map (λ st', iter_star g (matches ic r) (S (length (ms_rest st'))) st')
             (matches ic r st).
Proof. reflexivity. Qed.

Lemma exec_at_unfold (ic : bool) (r : regex) (idx : nat) (s : chars) :
  exec_at ic r idx s
  = match matches ic r (MState idx s []) with
    | st :: _ => Some (RMatch idx (take (ms_idx st - idx) s) st)
    | [] => match s with [] => None | _ :: t => exec_at ic r (S idx) t end
    end.
Proof. by destruct s. Qed.

(** ** Prefixes that pass a test *)

Lemma take_drop_while (ok : ascii → bool) (s : chars) :
  take_while ok s ++ drop_while ok s = s.
Proof.
  induction s as [|c s IH]; simpl; [done|].
  destruct (ok c); simpl; by rewrite ?IH.
Qed.

Lemma forallb_take_while (ok : ascii → bool) (s : chars) :
  forallb ok (take_while ok s) = true.
Proof.
  induction s as [|c s IH]; simpl; [done|].
  destruct (ok c) eqn:Hc; simpl; [by rewrite Hc | done].
Qed.

Lemma drop_while_head (ok : ascii → bool) (s : chars) (c : ascii) (t : chars) :
  drop_while ok s = c :: t → ok c = false.
Proof.
  induction s as [|d s IH]; simpl; [done|].
  destruct (ok d) eqn:Hd; [done|]. intros [= <- <-]. done.
Qed.

Lemma take_while_stop (ok : ascii → bool) (a : chars) (c : ascii) (t : chars) :
  forallb ok a = true → ok c = false →
  take_while ok (a ++ c :: t) = a ∧ drop_while ok (a ++ c :: t) = c :: t.
Proof.
  intros Ha Hc. induction a as [|x a IH]; simpl in *.
  - by rewrite Hc.
  - apply andb_true_iff in Ha as [Hx Ha]. rewrite Hx.
    destruct (IH Ha) as [-> ->]. done.
Qed.

Lemma take_length_take_while (ok : ascii → bool) (s : chars) :
  take (length (take_while ok s)) s = take_while ok s.
Proof.
  induction s as [|c s IH]; simpl; [done|].
  destruct (ok c); simpl; [by rewrite IH | done].
Qed.

Lemma step1_cons (ok : ascii → bool) i c t caps :
  step1 ok (MState i (c :: t) caps) = if ok c then [MState (S i) t caps] else [].
Proof. reflexivity. Qed.

Lemma step1_nil (ok : ascii → bool) i caps : step1 ok (MState i [] caps) = [].
Proof. reflexivity. Qed.

(** ** Repetitions

    Greedy repetition of a character class, followed by something
    that cannot start with a character of the class: only the longest
    run goes on. *)
Section GreedyRun.
Variables (ic neg : bool) (rg : list (ascii * ascii)).
Variable K : mstate → list mstate.
Hypothesis K_stops :
  ∀ j c t caps, class_has ic neg rg c = true → K (MState j (c :: t) caps) = [].

Lemma flat_map_iter_star_run (fuel i : nat) (t : chars) (caps : list (nat * chars)) :
  length t < fuel →
  flat_map K (iter_star Greedy (step1 (class_has ic neg rg)) fuel (MState i t caps))
  = K (MState (length (take_while (class_has ic neg rg) t) + i)
              (drop_while (class_has ic neg rg) t) caps).
Proof.
  revert i t. induction fuel as [|n IH]; intros i t Hlen; [lia|].
  cbn [iter_star]. rewrite flat_map_app. cbn [flat_map]. rewrite app_nil_r.
  destruct t as [|c t]; [done|].
  rewrite step1_cons.
  destruct (class_has ic neg rg c) eqn:Hc;
    cbn [flat_map take_while drop_while]; rewrite Hc; [|done].
  rewrite app_nil_r. cbn [ms_rest length].
  destruct (Nat.ltb_spec (length t) (S (length t))); [|lia].
  rewrite IH by (simpl in Hlen; lia).
  rewrite (K_stops _ _ _ _ Hc), app_nil_r.
  cbn [length]. by rewrite Nat.add_succ_r.
Qed.

Lemma flat_map_plus_run (i : nat) (t : chars) (caps : list (nat * chars)) :
  flat_map K (matches ic (Plus Greedy (Class neg rg)) (MState i t caps))
  = match take_while (class_has ic neg rg) t with
    | [] => []
    | _ :: _ =>
      K (MState (length (take_while (class_has ic neg rg) t) + i)
                (drop_while (class_has ic neg rg) t) caps)
    end.
Proof.
  cbn [matches].
  destruct t as [|c t]; [done|].
  rewrite step1_cons. cbn [take_while drop_while].
  destruct (class_has ic neg rg c) eqn:Hc; [|done].
  cbn [flat_map]. rewrite app_nil_r. cbn [ms_rest].
  rewrite flat_map_iter_star_run by lia.
  cbn [length]. by rewrite Nat.add_succ_r.
Qed.
End GreedyRun.

(** Lazy repetition of [.]: the continuation is tried after one
    character, then after two, and so on; the first position where it
    succeeds heads the list. *)
Section LazyRun.
Variables (ic : bool) (K : mstate → list mstate) (b : chars) (caps : list (nat * chars)).

Lemma flat_map_iter_lazy_dot (a : chars) :
  ∀ (fuel i : nat),
  length (a ++ b) < fuel →
  forallb not_terminator a = true →
  (∀ a1 a2, a = a1 ++ a2 → a2 ≠ [] → K (MState (length a1 + i) (a2 ++ b) caps) = []) →
  ∃ tl, flat_map K (iter_star Lazy (matches ic Dot) fuel (MState i (a ++ b) caps))
        = K (MState (length a + i) b caps) ++ tl.
Proof.
  induction a as [|c a IH]; intros fuel i Hlen Hnt Hstop;
    (destruct fuel as [|n]; [simpl in Hlen; lia|]); cbn [iter_star flat_map].
  - eauto.
  - pose proof (Hstop [] (c :: a) eq_refl ltac:(done)) as H0.
    cbn [length Nat.add] in H0. rewrite H0. cbn [app].
    rewrite matches_Dot, step1_cons.
    cbn [forallb] in Hnt. apply andb_true_iff in Hnt as [-> Hnt].
    cbn [flat_map ms_rest]. rewrite app_nil_r.
    destruct (Nat.ltb_spec (length (a ++ b)) (length (c :: a ++ b))); [|simpl in *; lia].
    destruct (IH n (S i)) as [tl Htl]; [simpl in Hlen; lia | done | |].
    + intros a1 a2 -> Ha2. rewrite <- Nat.add_succ_comm.
      by apply (Hstop (c :: a1) a2).
    + exists tl. rewrite Htl. cbn [length]. by rewrite <- Nat.add_succ_comm.
Qed.

Lemma flat_map_plus_lazy_dot (a : chars) (i : nat) :
  a ≠ [] →
  forallb not_terminator a = true →
  (∀ a1 a2, a = a1 ++ a2 → a1 ≠ [] → a2 ≠ [] →
            K (MState (length a1 + i) (a2 ++ b) caps) = []) →
  ∃ tl, flat_map K (matches ic (Plus Lazy Dot) (MState i (a ++ b) caps))
        = K (MState (length a + i) b caps) ++ tl.
Proof.
  intros Hne Hnt Hstop. destruct a as [|c a]; [done|].
  rewrite matches_Plus, matches_Dot. cbn [app]. rewrite step1_cons.
  cbn [forallb] in Hnt. apply andb_true_iff in Hnt as [-> Hnt].
  cbn [flat_map ms_rest]. rewrite app_nil_r.
  destruct (flat_map_iter_lazy_dot a (S (length (a ++ b))) (S i)) as [tl Htl];
    [lia | done | |].
  - intros a1 a2 -> Ha2. rewrite <- Nat.add_succ_comm.
    by apply (Hstop (c :: a1) a2).
  - exists tl. rewrite Htl. cbn [length]. by rewrite <- Nat.add_succ_comm.
Qed.
End LazyRun.

(** ** The matcher only moves forward *)

Lemma extends_refl st : extends st st.
Proof. by exists []. Qed.

Lemma extends_trans st1 st2 st3 : extends st1 st2 → extends st2 st3 → extends st1 st3.
Proof.
  intros [t1 H1] [t2 H2]. exists (t1 ++ t2). by rewrite H1, H2, app_assoc.
Qed.

Lemma step1_extends ok st st' : In st' (step1 ok st) → extends st st'.
Proof.
  unfold step1. destruct st as [i [|c t] caps]; cbn [ms_rest ms_idx ms_caps]; [done|].
  destruct (ok c); [|done]. intros [<-|[]]. by exists [c].
Qed.

Lemma iter_star_extends g (step : mstate → list mstate) :
  (∀ x y, In y (step x) → extends x y) →
  ∀ fuel st st', In st' (iter_star g step fuel st) → extends st st'.
Proof.
  intros Hstep. induction fuel as [|n IH]; intros st st'; cbn [iter_star].
  - intros [<-|[]]. apply extends_refl.
  - assert (Hmore : In st' (flat_map (λ x, if length (ms_rest x) <? length (ms_rest st)
                                            then iter_star g step n x else []) (step st))
                    → extends st st').
    { intros (mid & Hmid & Hin)%in_flat_map.
      destruct (length (ms_rest mid) <? length (ms_rest st)); [|done].
      eapply extends_trans; [by apply Hstep | by apply IH]. }
    destruct g.
    + intros [?|[<-|[]]]%in_app_iff; [auto | apply extends_refl].
    + intros [<-|?]; [apply extends_refl | auto].
Qed.

Lemma matches_extends ic r : ∀ st st', In st' (matches ic r st) → extends st st'.
Proof.
  induction r as [|c| |neg rg|r1 IH1 r2 IH2|r1 IH1 r2 IH2|g r IH|g r IH|g r IH|i r IH|r IH| |];
    intros st st'; cbn [matches].
  - intros [<-|[]]. apply extends_refl.
  - apply step1_extends.
  - apply step1_extends.
  - apply step1_extends.
  - intros (mid & Hmid & Hin)%in_flat_map. eapply extends_trans; eauto.
  - intros [?|?]%in_app_iff; auto.
  - by apply iter_star_extends.
  - intros (mid & Hmid & Hin)%in_flat_map.
    eapply extends_trans; [by apply IH | by eapply iter_star_extends].
  - destruct g.
    + intros [?|[<-|[]]]%in_app_iff; [auto | apply extends_refl].
    + intros [<-|?]; [apply extends_refl | auto].
  - intros (mid & <- & Hin)%in_map_iff. apply IH in Hin as [took Htook].
    by exists took.
  - apply IH.
  - destruct (ms_idx st =? 0); [|done]. intros [<-|[]]. apply extends_refl.
  - destruct (ms_rest st); [|done]. intros [<-|[]]. apply extends_refl.
Qed.

Lemma matches_Seq_inv ic r1 r2 st st' :
  In st' (matches ic (Seq r1 r2) st) →
  ∃ mid, extends st mid ∧ In st' (matches ic r2 mid).
Proof.
  cbn [matches]. intros (mid & Hmid & Hin)%in_flat_map.
  exists mid. split; [by eapply matches_extends | done].
Qed.

Lemma exec_at_Some_inv ic r (s : chars) :
  ∀ idx m, exec_at ic r idx s = Some m →
  ∃ u t i, s = u ++ t ∧ In (m_end m) (matches ic r (MState i t [])).
Proof.
  induction s as [|c s IH]; intros idx m; rewrite exec_at_unfold;
    destruct (matches ic r (MState idx _ [])) as [|st l] eqn:Hm; try done.
  - intros [= <-]. exists [], [], idx. rewrite Hm. split; [done | by left].
  - intros (u & t & i & -> & Hin)%IH. by exists (c :: u), t, i.
  - intros [= <-]. exists [], (c :: s), idx. rewrite Hm. split; [done | by left].
Qed.

Lemma peel_Seq ic r1 r2 st0 st :
  (∃ mid, extends st0 mid ∧ In st (matches ic (Seq r1 r2) mid)) →
  ∃ mid, extends st0 mid ∧ In st (matches ic r2 mid).
Proof.
  intros (mid & Hext & (mid' & Hext' & Hin)%matches_Seq_inv).
  exists mid'. split; [by eapply extends_trans | done].
Qed.

(** ** Searching *)

Lemma exec_at_skip (ic : bool) (p : ascii) (r : regex) (pre t : chars) (idx : nat) :
  forallb (λ c, negb (char_eq ic p c)) pre = true →
  exec_at ic (Seq (Chr p) r) idx (pre ++ t)
  = exec_at ic (Seq (Chr p) r) (length pre + idx) t.
Proof.
  revert idx. induction pre as [|c pre IH]; intros idx Hpre; [done|].
  cbn [forallb] in Hpre. apply andb_true_iff in Hpre as [Hc Hpre].
  apply negb_true_iff in Hc.
  cbn [app]. rewrite exec_at_unfold, matches_Seq, matches_Chr, step1_cons, Hc.
  cbn [flat_map length]. rewrite IH by done. f_equal. lia.
Qed.

Lemma exec_at_no_start (ic : bool) (p : ascii) (r : regex) (s : chars) (idx : nat) :
  forallb (λ c, negb (char_eq ic p c)) s = true →
  exec_at ic (Seq (Chr p) r) idx s = None.
Proof.
  intros Hs. rewrite <- (app_nil_r s), exec_at_skip by done. reflexivity.
Qed.

Lemma exec_at_nowhere (ic : bool) (r : regex) (s : chars) :
  ∀ idx, (∀ u t i, s = u ++ t → matches ic r (MState i t []) = []) →
         exec_at ic r idx s = None.
Proof.
  induction s as [|c s IH]; intros idx Hno; rewrite exec_at_unfold.
  - by rewrite (Hno [] []).
  - rewrite (Hno [] (c :: s)) by done. apply IH.
    intros u t i ->. by apply (Hno (c :: u) t).
Qed.

Lemma replace_from_none ic r tpl fuel idx s :
  exec_at ic r idx s = None → replace_from ic r tpl fuel idx s = s.
Proof. intros H. destruct fuel; [done|]. cbn [replace_from]. by rewrite H. Qed.

Lemma forallb_weaken (f g : ascii → bool) (s : chars) :
  (∀ c, f c = true → g c = true) → forallb f s = true → forallb g s = true.
Proof.
  intros Hfg. induction s as [|c s IH]; [done|]. cbn [forallb].
  intros [Hc Hs]%andb_true_iff. by rewrite (Hfg c Hc), IH.
Qed.

Lemma take_app_length' (a b : chars) (k : nat) : take (length a + k - k) (a ++ b) = a.
Proof. rewrite sub_add_l. apply take_app_length. Qed.

Lemma take_while_ext (f g : ascii → bool) (s : chars) :
  (∀ c, f c = g c) → take_while f s = take_while g s.
Proof. intros H. induction s as [|c s IH]; simpl; [done|]. by rewrite H, IH. Qed.

Lemma drop_while_ext (f g : ascii → bool) (s : chars) :
  (∀ c, f c = g c) → drop_while f s = drop_while g s.
Proof. intros H. induction s as [|c s IH]; simpl; [done|]. by rewrite H, IH. Qed.

Lemma flat_map_map {A B C : Type} (f : B → list C) (g : A → B) (l : list A) :
  flat_map f (map g l) = flat_map (λ x, f (g x)) l.
Proof. induction l as [|x l IH]; simpl; [done | by rewrite IH]. Qed.

End RegexFacts.

(** * Properties of the resolver *)
Module URLResolverFacts.
Import Regex RegexFacts URLResolver.

(** The patterns of the source are in the fragment that [parse] reads. *)
Example source_patterns_parse :
  Forall (λ p, is_Some (parse p))
    [ "\/app\/(.+?)\/(page|layout|route)\.(tsx?|jsx?)$";
      "\/pages\/(.+?)\.(tsx?|jsx?)$";
      "\/src\/pages\/(.+?)\.astro$";
      "\/routes\/(.+?)\.(tsx?|jsx?)$";
      "\[([^\]]+)\]"; "\[\.\.\.([^\]]+)\]"; "\/index$"; "\$"; "\.";
      "\/([a-z0-9\-_\/]+)\.(html?|php|md)$" ].
Proof. repeat constructor; vm_compute; eauto. Qed.

(** ** Framework detection *)

Lemma prefix_cons (c : ascii) (p s : string) :
  String.prefix (String c p) s
  = match s with
    | EmptyString => false
    | String d s' => Ascii.eqb c d && String.prefix p s'
    end.
Proof.
  destruct s as [|d s']; simpl; [done|].
  destruct (ascii_dec c d) as [->|Hne].
  - by rewrite Ascii.eqb_refl.
  - by apply Ascii.eqb_neq in Hne as ->.
Qed.

Lemma includes_tail (s needle : string) (c : ascii) :
  includes s needle = true → includes (String c s) needle = true.
Proof. intros H. simpl. rewrite H. apply orb_true_r. Qed.

Lemma includes_src_pages (s : string) :
  includes s "/src/pages/" = true → includes s "/pages/" = true.
Proof.
  induction s as [|c s IH]; [done|].
  change (includes (String c s) "/src/pages/")
    with (String.prefix "/src/pages/" (String c s) || includes s "/src/pages/").
  intros [Hp | Hi]%orb_true_iff.
  - clear IH. apply includes_tail.
    rewrite prefix_cons in Hp. apply andb_true_iff in Hp as [_ Hp].
    destruct s as [|c1 s]; [done|]. apply includes_tail.
    rewrite prefix_cons in Hp. apply andb_true_iff in Hp as [_ Hp].
    destruct s as [|c2 s]; [done|]. apply includes_tail.
    rewrite prefix_cons in Hp. apply andb_true_iff in Hp as [_ Hp].
    destruct s as [|c3 s]; [done|]. apply includes_tail.
    rewrite prefix_cons in Hp. apply andb_true_iff in Hp as [_ Hp].
    destruct s as [|c4 s]; [done|].
    change (includes (String c4 s) "/pages/")
      with (String.prefix "/pages/" (String c4 s) || includes s "/pages/").
    by rewrite Hp.
  - apply includes_tail. by apply IH.
Qed.

(** No path is detected as Astro: whatever contains [/src/pages/]
    contains [/pages/], which the first test takes for Next.js. *)
Lemma detectFramework_never_astro (filePath : string) :
  detectFramework filePath ≠ "astro".
Proof.
  unfold detectFramework.
  destruct (includes filePath "/app/" || includes filePath "/pages/") eqn:Hn; [done|].
  destruct (includes filePath "/src/pages/") eqn:Ha.
  - apply includes_src_pages in Ha. apply orb_false_iff in Hn as [_ Hn]. congruence.
  - by destruct (includes filePath "/routes/").
Qed.

(** The Astro page of the specification is detected as Next.js and
    its result is absent; with the framework named by the caller the
    Astro matcher resolves it. *)
Example resolve_astro_page :
  detectFramework "/src/pages/blog/[slug].astro" = "nextjs"
  ∧ resolve "/src/pages/blog/[slug].astro" None = None
  ∧ resolve "/src/pages/blog/[slug].astro" (Some "astro")
    = Some {| urlPath := "/blog/:slug"; confidence := high;
              reasoning := "Astro pages pattern" |}.
Proof. vm_compute. done. Qed.

(** ** Symbolic runs of the matcher *)

Ltac run_symbolic :=
  repeat first
    [ progress cbn [matches flat_map map app step1 capture ms_idx ms_rest ms_caps
                    chs String.list_ascii_of_string andb orb length Nat.add
                    is_ext same_ci existsb generic_ext appRouter_cont
                    script_tail script_ext]
    | case_char_eq
    | case_rest ].

(** ** Next.js *)

Example resolve_dynamic_segment :
  resolve "/app/blog/[slug]/page.tsx" None
  = Some {| urlPath := "/blog/:slug"; confidence := high;
            reasoning := "Next.js App Router pattern" |}.
Proof. vm_compute. reflexivity. Qed.

Example bracket_replaces_catch_all_steps :
  js_replace "docs/[...path]" (lit "\[([^\]]+)\]" "g") ":$1" = "docs/:...path"
  ∧ js_replace "docs/:...path" (lit "\[\.\.\.([^\]]+)\]" "g") "*" = "docs/:...path"
  ∧ js_replace "docs/[...path]" (lit "\[\.\.\.([^\]]+)\]" "g") "*" = "docs/*".
Proof. vm_compute. done. Qed.

Example resolve_catch_all_other_routers :
  resolve "/pages/docs/[...path].tsx" None
    = Some {| urlPath := "/docs/:...path"; confidence := high;
              reasoning := "Next.js Pages Router pattern" |}
  ∧ resolve "/src/pages/docs/[...path].astro" (Some "astro")
    = Some {| urlPath := "/docs/:...path"; confidence := high;
              reasoning := "Astro pages pattern" |}.
Proof. vm_compute. done. Qed.

(** *** The App Router pattern *)

Lemma appRouterRe_rx :
  rx appRouterRe
  = Seq (Chr "/") (Seq (Chr "a") (Seq (Chr "p") (Seq (Chr "p") (Seq (Chr "/")
      (Seq (Group 1 (Plus Lazy Dot)) appRouter_cont))))).
Proof. reflexivity. Qed.

Lemma appRouter_cont_stops (a2 : chars) (j : nat) (caps : list (nat * chars)) :
  a2 ≠ [] →
  matches false appRouter_cont (MState j (a2 ++ chs "/page.tsx") caps) = [].
Proof.
  intros Hne. destruct a2 as [|c1 a2]; [done|]. clear Hne.
  run_symbolic; reflexivity.
Qed.

Lemma appRouter_cont_page (j : nat) (caps : list (nat * chars)) :
  ∃ st, matches false appRouter_cont (MState j (chs "/page.tsx") caps) = [st]
        ∧ assoc 1 (ms_caps st) = assoc 1 caps.
Proof.
  eexists. split.
  - run_symbolic. reflexivity.
  - reflexivity.
Qed.

Lemma appRouter_group (segs : chars) :
  segs ≠ [] → forallb not_terminator segs = true →
  ∃ m, exec false (rx appRouterRe) (chs "/app/" ++ segs ++ chs "/page.tsx") = Some m
       ∧ group 1 m = Some segs.
Proof.
  intros Hne Hnt. unfold exec. rewrite exec_at_unfold, appRouterRe_rx.
  cbn [chs String.list_ascii_of_string app].
  do 5 (rewrite matches_Seq, matches_Chr, step1_cons; case_char_eq;
        cbn [flat_map]; rewrite app_nil_r).
  rewrite matches_Seq, matches_Group, flat_map_map.
  destruct (flat_map_plus_lazy_dot false
              (λ x, matches false appRouter_cont
                      (capture 1 (MState 5 (segs ++ chs "/page.tsx") []) x))
              (chs "/page.tsx") [] segs 5 Hne Hnt) as [tl Htl].
  { intros a1 a2 -> _ Ha2. unfold capture. cbn [ms_idx ms_rest ms_caps].
    by apply appRouter_cont_stops. }
  cbn [chs String.list_ascii_of_string] in Htl. rewrite Htl. clear Htl.
  unfold capture at 1. cbn [ms_idx ms_rest ms_caps].
  rewrite take_app_length'.
  destruct (appRouter_cont_page (length segs + 5) [(1, segs)]) as (st & Hst & Hcap).
  cbn [chs String.list_ascii_of_string] in Hst. unfold chars in *.
  rewrite Hst. cbn [app].
  eexists. split; [reflexivity|].
  unfold group. cbn [m_end]. rewrite Hcap. cbn. done.
Qed.

(** *** The bracket replacements *)

Lemma bracket_literals :
  lit "\[([^\]]+)\]" "g" = {| rx := dynamic_rx; ignoreCase := false; global := true |}
  ∧ lit "\[\.\.\.([^\]]+)\]" "g"
    = {| rx := catch_all_rx; ignoreCase := false; global := true |}
  ∧ lit "\/index$" "" = {| rx := index_rx; ignoreCase := false; global := false |}.
Proof. done. Qed.

Lemma class_not_close (c : ascii) :
  class_has false true [("]", "]")]%char c = not_close c.
Proof. destruct c as [[] [] [] [] [] [] [] []]; reflexivity. Qed.

Lemma close_eq (c : ascii) : char_eq false "]" c = Ascii.eqb c "]".
Proof. unfold char_eq, canon. apply Ascii.eqb_sym. Qed.

Lemma matches_dynamic_segment (i : nat) (body t : chars) :
  body ≠ [] → forallb not_close body = true →
  matches false dynamic_rx (MState i ("["%char :: body ++ "]"%char :: t) [])
  = [MState (S (length body + S i)) t [(1, body)]].
Proof.
  intros Hne Hbody. unfold dynamic_rx.
  rewrite matches_Seq, matches_Chr, step1_cons. case_char_eq.
  cbn [flat_map]. rewrite app_nil_r, matches_Seq, matches_Group, flat_map_map.
  rewrite (flat_map_plus_run false true [("]", "]")]%char
             (λ x, matches false (Chr "]")
                     (capture 1 (MState (S i) (body ++ "]"%char :: t) []) x))).
  2:{ intros j c t' caps Hc. rewrite class_not_close in Hc.
      unfold capture. cbn [ms_idx ms_rest ms_caps].
      rewrite matches_Chr, step1_cons, close_eq.
      unfold not_close in Hc. by apply negb_true_iff in Hc as ->. }
  rewrite (take_while_ext _ not_close), (drop_while_ext _ not_close)
    by apply class_not_close.
  destruct (take_while_stop not_close body "]" t Hbody eq_refl) as [-> ->].
  destruct body as [|b body]; [done|].
  unfold capture. cbn [ms_idx ms_rest ms_caps].
  rewrite matches_Chr, step1_cons. case_char_eq.
  rewrite sub_add_l, take_app_length. done.
Qed.

Lemma replace_dynamic_segment (pre body : chars) :
  forallb not_open pre = true → body ≠ [] → forallb not_close body = true →
  replace_all false dynamic_rx [TLit [":"%char]; TGroup 1]
    (pre ++ "["%char :: body ++ ["]"%char])
  = pre ++ ":"%char :: body.
Proof.
  intros Hpre Hne Hbody. unfold replace_all.
  cbn [replace_from]. unfold dynamic_rx at 1. rewrite exec_at_skip by done.
  fold dynamic_rx. rewrite exec_at_unfold, matches_dynamic_segment by done.
  cbn [m_index m_end ms_idx ms_rest].
  destruct (Nat.eqb_spec (S (length body + S (length pre + 0))) (length pre + 0)); [lia|].
  rewrite Nat.add_0_r, Nat.sub_0_r, take_app_length.
  rewrite replace_from_none by reflexivity.
  unfold expand, group. cbn. by rewrite !app_nil_r.
Qed.

Lemma not_open_spec (c : ascii) : not_open c = negb (Ascii.eqb c "[").
Proof. unfold not_open, char_eq, canon. by rewrite Ascii.eqb_sym. Qed.

Lemma replace_catch_all_absent (s : chars) :
  forallb not_open s = true →
  replace_all false catch_all_rx [TLit ["*"%char]] s = s.
Proof.
  intros Hs. unfold replace_all. apply replace_from_none.
  by apply exec_at_no_start.
Qed.

(** [/\/index$/] matches at a position only when what is left is
    exactly [/index]. *)
Lemma matches_index_inv (i : nat) (t : chars) (caps : list (nat * chars)) :
  matches false index_rx (MState i t caps) ≠ [] → t = chs "/index".
Proof.
  unfold index_rx.
  destruct t as [|c1 [|c2 [|c3 [|c4 [|c5 [|c6 [|c7 t]]]]]]];
    repeat first
      [ progress cbn [matches flat_map map app step1 ms_idx ms_rest ms_caps]
      | case_char_eq ];
    try done.
  intros _.
  repeat match goal with
         | H : char_eq false _ _ = true |- _ => apply Ascii.eqb_eq in H; cbn in H; subst
         end.
  reflexivity.
Qed.

Lemma no_index_suffix (pre name u : chars) :
  name ≠ [] → forallb not_slash name = true →
  pre ++ chs ":..." ++ name ≠ u ++ chs "/index".
Proof.
  intros Hne Hname Heq. apply (f_equal (@rev ascii)) in Heq.
  rewrite !rev_app_distr in Heq. cbn [chs String.list_ascii_of_string rev app] in Heq.
  assert (Hrev : forallb not_slash (rev name) = true).
  { apply forallb_forall. intros x Hx%in_rev.
    by eapply forallb_forall in Hname. }
  assert (Hne' : rev name ≠ []).
  { intros H. apply Hne. by rewrite <- (rev_involutive name), H. }
  destruct (rev name) as [|n1 [|n2 [|n3 [|n4 [|n5 [|n6 rn]]]]]];
    cbn [app] in Heq; try done; try congruence.
  injection Heq as -> -> -> -> -> -> _. cbn in Hrev. done.
Qed.

Lemma replace_index_absent (pre name : chars) :
  name ≠ [] → forallb not_slash name = true →
  replace_first false index_rx [] (pre ++ chs ":..." ++ name)
  = pre ++ chs ":..." ++ name.
Proof.
  intros Hne Hname. unfold replace_first, exec.
  rewrite exec_at_nowhere; [done|].
  intros u t i Heq.
  destruct (matches false index_rx (MState i t [])) as [|st l] eqn:Hm; [done|].
  assert (t = chs "/index") as -> by (eapply matches_index_inv; by rewrite Hm).
  by apply no_index_suffix in Heq.
Qed.

Lemma bracket_replaces_catch_all (pre name : chars) :
  forallb plain_prefix pre = true → name ≠ [] → forallb plain_name name = true →
  bracket_replaces (str (pre ++ chs "[..." ++ name ++ chs "]"))
  = str (pre ++ chs ":..." ++ name).
Proof.
  intros Hpre Hne Hname.
  assert (Hpre_open : forallb not_open pre = true).
  { eapply forallb_weaken; [|exact Hpre]. intros c. rewrite not_open_spec.
    unfold plain_prefix. by intros [? _]%andb_true_iff. }
  assert (Hname_open : forallb not_open name = true).
  { eapply forallb_weaken; [|exact Hname]. intros c. rewrite not_open_spec.
    unfold plain_name. by intros [[[? _]%andb_true_iff _]%andb_true_iff _]%andb_true_iff. }
  assert (Hname_close : forallb not_close name = true).
  { eapply forallb_weaken; [|exact Hname]. intros c.
    unfold plain_name, not_close.
    by intros [[[_ ?]%andb_true_iff _]%andb_true_iff _]%andb_true_iff. }
  assert (Hname_slash : forallb not_slash name = true).
  { eapply forallb_weaken; [|exact Hname]. intros c.
    unfold plain_name, not_slash.
    by intros [[_ ?]%andb_true_iff _]%andb_true_iff. }
  unfold bracket_replaces. destruct bracket_literals as (-> & -> & ->).
  unfold js_replace. cbn [global ignoreCase rx].
  rewrite !StringFacts.chs_str.
  change (parse_tpl (chs ":$1")) with [TLit [":"%char]; TGroup 1].
  change (parse_tpl (chs "*")) with [TLit ["*"%char]].
  change (parse_tpl (chs "")) with (@nil titem).
  change (pre ++ chs "[..." ++ name ++ chs "]")
    with (pre ++ "["%char :: (chs "..." ++ name) ++ ["]"%char]).
  rewrite replace_dynamic_segment; [|done|done|].
  2:{ rewrite forallb_app. by rewrite Hname_close. }
  change (pre ++ ":"%char :: chs "..." ++ name) with (pre ++ chs ":..." ++ name).
  rewrite replace_catch_all_absent.
  2:{ rewrite !forallb_app, Hpre_open, Hname_open. done. }
  by rewrite replace_index_absent.
Qed.

Lemma prefix_nil (s : string) : String.prefix "" s = true.
Proof. by destruct s. Qed.

Lemma includes_app_prefix (rest : string) : includes ("/app/" +:+ rest) "/app/" = true.
Proof.
  change ("/app/" +:+ rest)
    with (String "/" (String "a" (String "p" (String "p" (String "/" rest))))).
  cbn [includes]. rewrite !prefix_cons, prefix_nil. done.
Qed.

(** C1 does not hold of the code.  For every App Router path
    [/app/<prefix>[...name]/page.tsx] whose prefix holds no opening
    bracket and whose name holds no bracket or slash, the
    single-bracket replacement runs first and rewrites [[...name]] to
    [:...name]; the catch-all replacement that follows finds no bracket
    left, and the result is [/<prefix>:...name], never [/<prefix>*]. *)
Theorem resolve_catch_all_segment (pre name : string) :
  forallb plain_prefix (chs pre) = true →
  name ≠ "" →
  forallb plain_name (chs name) = true →
  resolve ("/app/" +:+ pre +:+ "[..." +:+ name +:+ "]/page.tsx") None
  = Some {| urlPath := "/" +:+ pre +:+ ":..." +:+ name;
            confidence := high;
            reasoning := "Next.js App Router pattern" |}.
Proof.
  intros Hpre Hne Hname.
  assert (Hne' : chs name ≠ []).
  { intros H. apply Hne. by rewrite <- (StringFacts.str_chs name), H. }
  unfold resolve.
  assert (detectFramework ("/app/" +:+ pre +:+ "[..." +:+ name +:+ "]/page.tsx")
          = "nextjs") as ->.
  { unfold detectFramework. by rewrite includes_app_prefix. }
  cbn [String.eqb Ascii.eqb Bool.eqb].
  unfold resolveNextJS. fold appRouterRe. unfold js_match.
  change (ignoreCase appRouterRe) with false.
  replace (chs ("/app/" +:+ pre +:+ "[..." +:+ name +:+ "]/page.tsx"))
    with (chs "/app/" ++ (chs pre ++ chs "[..." ++ chs name ++ chs "]") ++ chs "/page.tsx").
  2:{ rewrite !StringFacts.chs_append, <- !app_assoc. done. }
  destruct (appRouter_group (chs pre ++ chs "[..." ++ chs name ++ chs "]"))
    as (m & -> & Hm).
  { by destruct (chs pre). }
  { rewrite !forallb_app. rewrite andb_true_iff. split.
    - eapply forallb_weaken; [|exact Hpre]. unfold plain_prefix, not_terminator.
      by intros c [_ ?]%andb_true_iff.
    - rewrite andb_true_iff. split; [done|]. rewrite andb_true_iff. split; [|done].
      eapply forallb_weaken; [|exact Hname]. unfold plain_name, not_terminator.
      by intros c [_ ?]%andb_true_iff. }
  unfold grp. rewrite Hm. cbn [default from_option id].
  rewrite bracket_replaces_catch_all by done.
  rewrite !StringFacts.str_app, !StringFacts.str_chs. reflexivity.
Qed.

Lemma resolve_catch_all_segment_witness :
  forallb plain_prefix (chs "docs/") = true
  ∧ "path" ≠ ""
  ∧ forallb plain_name (chs "path") = true
  ∧ resolve "/app/docs/[...path]/page.tsx" None
    = Some {| urlPath := "/docs/:...path"; confidence := high;
              reasoning := "Next.js App Router pattern" |}.
Proof.
  split_and!; [reflexivity | discriminate | reflexivity |].
  apply (resolve_catch_all_segment "docs/" "path"); [reflexivity | discriminate | reflexivity].
Defined.

(** ** The generic fallback *)

Lemma genericRe_rx :
  rx genericRe
  = Seq (Chr "/")
        (Seq (Group 1 (Plus Greedy (Class false generic_class)))
             (Seq (Chr ".") (Seq (Group 2 generic_ext) Eol))).
Proof. reflexivity. Qed.

Lemma class_allowed (c : ascii) : class_has true false generic_class c = allowed c.
Proof. destruct c as [[] [] [] [] [] [] [] []]; reflexivity. Qed.

Lemma ext_then_end (j : nat) (e : chars) (caps : list (nat * chars)) :
  flat_map (matches true Eol)
           (map (capture 2 (MState j e caps)) (matches true generic_ext (MState j e caps)))
  = if is_ext e then [MState (length e + j) [] ((2, e) :: caps)] else [].
Proof.
  destruct e as [|c1 [|c2 [|c3 [|c4 [|c5 e]]]]]; run_symbolic; try reflexivity.
  all: unfold capture; cbn [ms_idx ms_rest ms_caps].
  all: by rewrite ?sub_succ_2, ?sub_succ_3, ?sub_succ_4.
Qed.

Lemma slash_eq (c : ascii) : char_eq true "/" c = Ascii.eqb c "/".
Proof. destruct c as [[] [] [] [] [] [] [] []]; reflexivity. Qed.

Lemma dot_eq (c : ascii) : char_eq true "." c = Ascii.eqb c ".".
Proof. destruct c as [[] [] [] [] [] [] [] []]; reflexivity. Qed.

Lemma allowed_not_dot (c : ascii) : allowed c = true → Ascii.eqb c "." = false.
Proof.
  destruct (Ascii.eqb_spec c "."%char) as [->|]; [|done]. vm_compute. done.
Qed.

Lemma generic_tail_stops (st1 : mstate) j c t caps :
  class_has true false generic_class c = true →
  matches true generic_tail (capture 1 st1 (MState j (c :: t) caps)) = [].
Proof.
  intros Hc. rewrite class_allowed in Hc.
  unfold capture, generic_tail. cbn [ms_rest ms_idx ms_caps].
  rewrite matches_Seq, matches_Chr, step1_cons, dot_eq, (allowed_not_dot _ Hc). done.
Qed.

Lemma matches_generic (idx : nat) (s : chars) :
  matches true (rx genericRe) (MState idx s [])
  = match at_slash s with
    | Some (body, e) => [MState (length s + idx) [] [(2, e); (1, body)]]
    | None => []
    end.
Proof.
  rewrite genericRe_rx. fold generic_tail.
  rewrite matches_Seq, matches_Chr. destruct s as [|c t]; [done|].
  rewrite step1_cons, slash_eq. cbn [at_slash].
  destruct (Ascii.eqb c "/"); [|done].
  cbn [flat_map]. rewrite app_nil_r, matches_Seq, matches_Group, flat_map_map.
  rewrite (flat_map_plus_run true false generic_class
             (λ x, matches true generic_tail (capture 1 (MState (S idx) t []) x)))
    by apply generic_tail_stops.
  rewrite (take_while_ext _ allowed t), (drop_while_ext _ allowed t) by apply class_allowed.
  pose proof (take_length_take_while allowed t) as Htake.
  pose proof (take_drop_while allowed t) as Hsplit.
  destruct (take_while allowed t) as [|b body]; [done|].
  unfold capture at 1. cbn [ms_idx ms_rest ms_caps].
  rewrite sub_add_l, Htake.
  destruct (drop_while allowed t) as [|d e].
  { unfold generic_tail. by rewrite matches_Seq, matches_Chr, step1_nil. }
  unfold generic_tail. rewrite matches_Seq, matches_Chr, step1_cons, dot_eq.
  destruct (Ascii.eqb d "."); [|done].
  cbn [flat_map andb]. rewrite app_nil_r, matches_Seq, matches_Group, ext_then_end.
  destruct (is_ext e); [|done].
  do 2 f_equal. rewrite <- Hsplit. cbn [length]. rewrite length_app. cbn [length]. lia.
Qed.

Lemma scan_unfold (s : chars) :
  scan s = match at_slash s with
           | Some be => Some be
           | None => match s with [] => None | _ :: t => scan t end
           end.
Proof. by destruct s. Qed.

Lemma exec_generic (s : chars) (idx : nat) :
  (λ m, default [] (group 1 m)) <$> exec_at true (rx genericRe) idx s = fst <$> scan s.
Proof.
  revert idx. induction s as [|c s IH]; intros idx;
    rewrite exec_at_unfold, scan_unfold, matches_generic.
  - by destruct (at_slash []) as [[body e]|].
  - destruct (at_slash (c :: s)) as [[body e]|]; [done|]. apply IH.
Qed.

Lemma resolveGeneric_scan (filePath : string) :
  resolveGeneric filePath
  = (λ be, {| urlPath := "/" +:+ str be.1; confidence := low;
              reasoning := "Generic path extraction" |}) <$> scan (chs filePath).
Proof.
  unfold resolveGeneric, js_match, exec, grp.
  change (ignoreCase genericRe) with true.
  pose proof (exec_generic (chs filePath) 0) as H.
  destruct (exec_at true (rx genericRe) 0 (chs filePath)) as [m|],
           (scan (chs filePath)) as [[body e]|]; simpl in *; try done.
  by injection H as ->.
Qed.

(** What [scan] finds. *)
Lemma at_slash_Some (s body e : chars) :
  at_slash s = Some (body, e)
  ↔ s = "/"%char :: body ++ "."%char :: e
    ∧ body ≠ [] ∧ forallb allowed body = true ∧ is_ext e = true.
Proof.
  split.
  - destruct s as [|c t]; [done|]. cbn [at_slash].
    destruct (Ascii.eqb_spec c "/"%char) as [->|]; [|done].
    pose proof (forallb_take_while allowed t) as Hall.
    pose proof (take_drop_while allowed t) as Hsplit.
    destruct (take_while allowed t) as [|b body']; [done|].
    destruct (drop_while allowed t) as [|d e']; [done|].
    destruct (Ascii.eqb_spec d "."%char) as [->|]; [|done].
    destruct (is_ext e') eqn:He; [|done].
    intros [= <- <-]. by rewrite Hsplit.
  - intros (-> & Hne & Hall & He). cbn [at_slash].
    rewrite Ascii.eqb_refl.
    destruct (take_while_stop allowed body "." e Hall eq_refl) as [-> ->].
    destruct body as [|b body]; [done|].
    by rewrite Ascii.eqb_refl, He.
Qed.

Lemma scan_Some (s body e : chars) :
  scan s = Some (body, e) →
  ∃ pre, s = pre ++ "/"%char :: body ++ "."%char :: e
         ∧ body ≠ [] ∧ forallb allowed body = true ∧ is_ext e = true
         ∧ ∀ pre1 mid, pre = pre1 ++ "/"%char :: mid → forallb allowed mid = false.
Proof.
  induction s as [|c s IH]; rewrite scan_unfold.
  - by destruct (at_slash []) as [[b x]|] eqn:Hat.
  - destruct (at_slash (c :: s)) as [[b x]|] eqn:Hat.
    + intros [= -> ->]. apply at_slash_Some in Hat as (Hs & Hne & Hall & He).
      exists []. split_and!; try done. by intros [|??] ??.
    + intros (pre & -> & Hne & Hall & He & Hleft)%IH.
      exists (c :: pre). split_and!; try done.
      intros [|c1 pre1] mid Hpre.
      * injection Hpre as -> ->.
        destruct (forallb allowed mid) eqn:Hmid; [|done].
        assert (at_slash ("/"%char :: mid ++ "/"%char :: body ++ "."%char :: e)
                = Some (mid ++ "/"%char :: body, e)) as Hyes; [|congruence].
        apply at_slash_Some. split_and!; try done.
        -- by rewrite <- app_assoc.
        -- by destruct mid.
        -- rewrite forallb_app, Hmid. simpl. done.
      * injection Hpre as -> ->. by eapply Hleft.
Qed.

Lemma scan_None (s : chars) :
  scan s = None →
  ∀ pre body e, s = pre ++ "/"%char :: body ++ "."%char :: e →
                body ≠ [] → forallb allowed body = true → is_ext e = false.
Proof.
  induction s as [|c s IH]; rewrite scan_unfold.
  - intros _ [|??] ???; done.
  - destruct (at_slash (c :: s)) as [[b x]|] eqn:Hat; [done|].
    intros Hs [|c1 pre] body e Heq Hne Hall.
    + destruct (is_ext e) eqn:He; [|done].
      assert (at_slash (c :: s) = Some (body, e)) as Hyes; [|congruence].
      apply at_slash_Some. simpl in Heq. done.
    + injection Heq as -> ->. by eapply IH.
Qed.

(** C7, as the code has it: the generic fallback succeeds exactly on
    the paths that end in a slash, a non-empty run of letters of either
    case, digits, hyphens, underscores and slashes, a dot, and one of
    [html], [htm], [php], [md] in any letter case.  The result is the
    run, taken from the leftmost slash that starts one, behind a slash,
    with confidence low; whatever precedes that slash is ignored.  On
    every other path the result is absent. *)
Theorem resolveGeneric_spec (filePath : string) :
  match resolveGeneric filePath with
  | Some r =>
    confidence r = low
    ∧ ∃ pre body ext,
        filePath = pre +:+ "/" +:+ body +:+ "." +:+ ext
        ∧ body ≠ ""
        ∧ forallb allowed (chs body) = true
        ∧ is_ext (chs ext) = true
        ∧ urlPath r = "/" +:+ body
        ∧ ∀ pre1 mid, pre = pre1 +:+ "/" +:+ mid → forallb allowed (chs mid) = false
  | None =>
    ∀ pre body ext,
      filePath = pre +:+ "/" +:+ body +:+ "." +:+ ext →
      body ≠ "" → forallb allowed (chs body) = true → is_ext (chs ext) = false
  end.
Proof.
  rewrite resolveGeneric_scan.
  destruct (scan (chs filePath)) as [[body e]|] eqn:Hscan; simpl.
  - split; [done|].
    apply scan_Some in Hscan as (pre & Hs & Hne & Hall & He & Hleft).
    exists (str pre), (str body), (str e). rewrite !StringFacts.chs_str.
    split_and!; try done.
    + apply StringFacts.chs_inj. rewrite Hs.
      by rewrite !StringFacts.chs_append, !StringFacts.chs_str.
    + intros Hb. apply Hne. by rewrite <- (StringFacts.chs_str body), Hb.
    + intros pre1 mid Hpre. apply (Hleft (chs pre1)).
      rewrite <- (StringFacts.chs_str pre), Hpre.
      by rewrite !StringFacts.chs_append.
  - intros pre body ext -> Hne Hall.
    apply (scan_None _ Hscan (chs pre) (chs body) (chs ext)); [|  | done].
    + by rewrite !StringFacts.chs_append.
    + intros Hb. apply Hne. by rewrite <- (StringFacts.str_chs body), Hb.
Qed.

Example resolveGeneric_examples :
  resolve "/static/contact-us.html" None
    = Some {| urlPath := "/static/contact-us"; confidence := low;
              reasoning := "Generic path extraction" |}
  ∧ resolve "/Static/Contact.HTML" None
    = Some {| urlPath := "/Static/Contact"; confidence := low;
              reasoning := "Generic path extraction" |}
  ∧ resolve "/my docs/page.html" None
    = Some {| urlPath := "/page"; confidence := low;
              reasoning := "Generic path extraction" |}
  ∧ resolve "/weird/file.unknown" None = None.
Proof. vm_compute. done. Qed.

Lemma resolveGeneric_spec_witness :
  "/weird/file.unknown" = "/weird" +:+ "/" +:+ "file" +:+ "." +:+ "unknown"
  ∧ "file" ≠ ""
  ∧ forallb allowed (chs "file") = true
  ∧ is_ext (chs "unknown") = false.
Proof.
  split_and!; [reflexivity | discriminate | reflexivity |].
  apply (resolveGeneric_spec "/weird/file.unknown" "/weird" "file" "unknown");
    [reflexivity | discriminate | reflexivity].
Defined.

(** C7 as stated fails: a captured portion with upper-case letters
    does not make the result absent. *)
Lemma generic_uppercase_counterexample :
  existsb (λ c, negb (allowed_lowercase c)) (chs "Static/Contact") = true
  ∧ resolve "/Static/Contact.html" None ≠ None.
Proof. split; [reflexivity | vm_compute; discriminate]. Qed.

(** ** Script-file patterns and Astro pages *)

Lemma script_literals :
  rx pagesRouterRe
  = Seq (Chr "/") (Seq (Chr "p") (Seq (Chr "a") (Seq (Chr "g") (Seq (Chr "e")
      (Seq (Chr "s") (Seq (Chr "/")
         (Seq (Group 1 (Plus Lazy Dot)) (script_tail 2))))))))
  ∧ rx remixRe
    = Seq (Chr "/") (Seq (Chr "r") (Seq (Chr "o") (Seq (Chr "u") (Seq (Chr "t")
        (Seq (Chr "e") (Seq (Chr "s") (Seq (Chr "/")
           (Seq (Group 1 (Plus Lazy Dot)) (script_tail 2))))))))).
Proof. done. Qed.

Lemma script_tail_inv (n i : nat) (t : chars) (caps : list (nat * chars)) (st : mstate) :
  In st (matches false (script_tail n) (MState i t caps)) →
  ∃ e, t = "."%char :: e ∧ (length e = 2 ∨ length e = 3).
Proof.
  unfold script_tail, script_ext.
  destruct t as [|c0 [|c1 [|c2 [|c3 [|c4 t]]]]];
    repeat first
      [ progress cbn [matches flat_map map app step1 ms_idx ms_rest ms_caps capture In]
      | case_char_eq ];
    try tauto; intros _;
    match goal with
    | H : char_eq false "." c0 = true |- _ => apply Ascii.eqb_eq in H; cbn in H; subst c0
    end;
    eexists; (split; [reflexivity | cbn; auto]).
Qed.

Lemma script_end (n : nat) (st0 st : mstate) :
  (∃ mid, extends st0 mid ∧ In st (matches false (script_tail n) mid)) →
  ∃ u e, ms_rest st0 = u ++ "."%char :: e ∧ (length e = 2 ∨ length e = 3).
Proof.
  intros ([i t caps] & [took Htook] & (e & -> & He)%script_tail_inv).
  by exists took, e.
Qed.

(** A subject that a script-file pattern matches ends in a dot and two
    or three more characters. *)
Lemma script_match_end (R : RegExp) (s : string) (m : rmatch) :
  R = appRouterRe ∨ R = pagesRouterRe ∨ R = remixRe →
  js_match s R = Some m →
  ∃ u e, chs s = u ++ "."%char :: e ∧ (length e = 2 ∨ length e = 3).
Proof.
  intros HR. unfold js_match, exec.
  assert (ignoreCase R = false) as -> by (by destruct HR as [-> | [-> | ->]]).
  intros (u & t & i & Hs & Hin)%exec_at_Some_inv.
  destruct script_literals as (Hpages & Hremix).
  pose proof appRouterRe_rx as Happ. unfold appRouter_cont in Happ.
  assert (Hstart : ∃ mid, extends (MState i t []) mid
                          ∧ In (m_end m) (matches false (rx R) mid)).
  { exists (MState i t []). split; [apply extends_refl | done]. }
  assert (∃ n mid, extends (MState i t []) mid
                   ∧ In (m_end m) (matches false (script_tail n) mid))
    as (n & Hreach).
  { destruct HR as [-> | [-> | ->]].
    - rewrite Happ in Hstart. exists 3. by do 8 apply peel_Seq in Hstart.
    - rewrite Hpages in Hstart. exists 2. by do 8 apply peel_Seq in Hstart.
    - rewrite Hremix in Hstart. exists 2. by do 9 apply peel_Seq in Hstart. }
  apply script_end in Hreach as (u' & e & Ht & He). cbn [ms_rest] in Ht.
  exists (u ++ u'), e. by rewrite Hs, Ht, app_assoc.
Qed.

Lemma astro_end (p : string) (u e : chars) :
  chs (p +:+ ".astro") = u ++ "."%char :: e →
  length e = 2 ∨ length e = 3 ∨ length e = 4 → False.
Proof.
  rewrite StringFacts.chs_append. intros Heq Hlen.
  apply (f_equal (@rev ascii)) in Heq.
  rewrite !rev_app_distr in Heq.
  cbn [chs String.list_ascii_of_string rev app] in Heq.
  rewrite <- app_assoc in Heq. cbn [app] in Heq.
  assert (Hlen' : length (rev e) = 2 ∨ length (rev e) = 3 ∨ length (rev e) = 4)
    by by rewrite length_rev.
  destruct (rev e) as [|e1 [|e2 [|e3 [|e4 [|e5 re]]]]];
    cbn [app length] in *; try lia; congruence.
Qed.

Lemma js_match_astro (R : RegExp) (p : string) :
  R = appRouterRe ∨ R = pagesRouterRe ∨ R = remixRe →
  js_match (p +:+ ".astro") R = None.
Proof.
  intros HR. destruct (js_match _ R) as [m|] eqn:Hm; [|done].
  apply script_match_end in Hm as (u & e & Heq & He); [|done].
  exfalso. eapply astro_end; [exact Heq | tauto].
Qed.

Lemma is_ext_length (e : chars) :
  is_ext e = true → length e = 2 ∨ length e = 3 ∨ length e = 4.
Proof.
  destruct e as [|c1 [|c2 [|c3 [|c4 [|c5 e]]]]]; cbn; rewrite ?andb_false_r; auto; done.
Qed.

Lemma resolveGeneric_astro (p : string) : resolveGeneric (p +:+ ".astro") = None.
Proof.
  rewrite resolveGeneric_scan.
  destruct (scan (chs (p +:+ ".astro"))) as [[body e]|] eqn:Hscan; [|done].
  apply scan_Some in Hscan as (pre & Heq & _ & _ & He & _).
  exfalso. apply (astro_end p (pre ++ "/"%char :: body) e).
  - by rewrite Heq, <- app_assoc.
  - by apply is_ext_length.
Qed.

Lemma detectFramework_cases (filePath : string) :
  detectFramework filePath = "nextjs" ∨ detectFramework filePath = "remix"
  ∨ detectFramework filePath = "generic".
Proof.
  pose proof (detectFramework_never_astro filePath) as Hne.
  unfold detectFramework in *.
  destruct (includes filePath "/app/" || includes filePath "/pages/"); [auto|].
  destruct (includes filePath "/src/pages/"); [done|].
  destruct (includes filePath "/routes/"); auto.
Qed.

(** C6 does not hold of the code.  The test for [/pages/] comes before
    the test for [/src/pages/], so no path is ever detected as Astro;
    a path that ends in [.astro] then goes to the Next.js, Remix or
    generic matcher, none of which accepts that extension, and the
    result is absent whatever the path. *)
Theorem resolve_astro_undetected (p : string) :
  detectFramework (p +:+ ".astro") ≠ "astro"
  ∧ resolve (p +:+ ".astro") None = None.
Proof.
  split; [apply detectFramework_never_astro|].
  unfold resolve.
  destruct (detectFramework_cases (p +:+ ".astro")) as [-> | [-> | ->]];
    cbn [String.eqb Ascii.eqb Bool.eqb].
  - unfold resolveNextJS. fold appRouterRe. fold pagesRouterRe.
    rewrite !js_match_astro by auto. done.
  - unfold resolveRemix. fold remixRe. rewrite js_match_astro by auto. done.
  - apply resolveGeneric_astro.
Qed.

End URLResolverFacts.

(** * Properties of the cache *)
Module CacheFacts.
Import Regex Cache.
Local Open Scope Z_scope.

Section Facts.
Context {V E : Type}.
Implicit Types (c : Cache V) (key k : string) (v : jsval V) (now : Z) (ttl : option Z).

(** ** set *)

(** C4, as the code has it: [set] stores the value under the key with
    expiry [now + 1000 * seconds], where [seconds] is the argument when
    it is supplied and not zero and [defaultTTL] otherwise; the previous
    entry of the key, if any, is replaced, and no other key changes. *)
Theorem set_stores_with_truthy_ttl now key v ttl c :
  let seconds :=
    match ttl with
    | Some t => if decide (t = 0) then defaultTTL c else t
    | None => defaultTTL c
    end in
  store (set now key v ttl c) !! key
    = Some {| value := v; expiresAt := now + seconds * 1000 |}
  ∧ (∀ k, k ≠ key → store (set now key v ttl c) !! k = store c !! k)
  ∧ defaultTTL (set now key v ttl c) = defaultTTL c.
Proof.
  unfold set, or_num; simpl. split_and!.
  - rewrite lookup_insert_eq. destruct ttl as [t|]; [|done].
    destruct (Z.eqb_spec t 0), (decide (t = 0)); done.
  - intros k Hk. by rewrite lookup_insert_ne.
  - done.
Qed.

(** ** get and has *)

Lemma get_live now key (en : CacheEntry V) c :
  store c !! key = Some en → now ≤ expiresAt en →
  get now key c = (value en, c).
Proof.
  intros Hk Hle. unfold get. rewrite Hk.
  destruct (Z.gtb_spec now (expiresAt en)); [lia | done].
Qed.

Lemma get_expired now key (en : CacheEntry V) c :
  store c !! key = Some en → expiresAt en < now →
  get now key c = (JNull, with_store c (base.delete key (store c))).
Proof.
  intros Hk Hlt. unfold get. rewrite Hk.
  destruct (Z.gtb_spec now (expiresAt en)); [done | lia].
Qed.

Lemma get_absent now key c :
  store c !! key = None → get now key c = (JNull, c).
Proof. intros Hk. unfold get. by rewrite Hk. Qed.

Lemma has_absent now key c :
  store c !! key = None → has now key c = (false, c).
Proof. intros Hk. unfold has. by rewrite Hk. Qed.

(** C8: after [set(k, v, ttl)], a [get(k)] at a time not after the
    expiry of the entry returns [v] and leaves the cache as it is (so
    does every later such read), and [has(k)] answers true; at a time
    after the expiry [get(k)] returns null and deletes the entry, [has]
    does the same check and eviction, and any [has(k)] after the
    evicting read answers false. *)
Theorem get_after_set now0 key v ttl c now :
  let c1 := set now0 key v ttl c in
  let expiry := now0 + or_num ttl (defaultTTL c) * 1000 in
  (expiresAt <$> store c1 !! key = Some expiry)
  ∧ (now ≤ expiry → get now key c1 = (v, c1) ∧ has now key c1 = (true, c1))
  ∧ (expiry < now →
       get now key c1 = (JNull, with_store c1 (base.delete key (store c1)))
       ∧ has now key c1 = (false, with_store c1 (base.delete key (store c1)))
       ∧ store (get now key c1).2 !! key = None
       ∧ ∀ now', has now' key (get now key c1).2 = (false, (get now key c1).2)).
Proof.
  intros c1 expiry.
  assert (Hk : store c1 !! key = Some {| value := v; expiresAt := expiry |})
    by (unfold c1, set; simpl; apply lookup_insert_eq).
  split_and!.
  - by rewrite Hk.
  - intros Hle. split.
    + by rewrite (get_live _ _ _ _ Hk).
    + unfold has. rewrite Hk. simpl.
      destruct (Z.gtb_spec now expiry); [lia | done].
  - intros Hlt. rewrite (get_expired _ _ _ _ Hk) by done. split_and!.
    + done.
    + unfold has. rewrite Hk. simpl.
      destruct (Z.gtb_spec now expiry); [done | lia].
    + simpl. apply lookup_delete_eq.
    + intros now'. apply has_absent. simpl. apply lookup_delete_eq.
Qed.

(** ** getOrSet *)

(** C9: for a key with no entry, a call whose factory fails rethrows
    the failure, has called the factory, and leaves the cache exactly
    as it was, so the key still has no entry; the next call with a
    factory that succeeds calls it, returns its value and stores it. *)
Theorem getOrSet_failure_not_cached now now' key (e : E) ttl c :
  store c !! key = None →
  let failed := getOrSet now now' key (Throw e) ttl c in
  failed = (Throw e, true, c)
  ∧ store failed.2 !! key = None
  ∧ ∀ now2 now3 v ttl',
      getOrSet (E:=E) now2 now3 key (Normal v) ttl' failed.2
      = (Normal v, true, set now3 key v ttl' c)
      ∧ store (set now3 key v ttl' c) !! key
        = Some {| value := v;
                  expiresAt := now3 + or_num ttl' (defaultTTL c) * 1000 |}.
Proof.
  intros Hk failed.
  assert (Hf : failed = (Throw e, true, c)).
  { unfold failed, getOrSet, getOrSet_start. by rewrite (get_absent _ _ _ Hk). }
  rewrite Hf. simpl. split_and!; [done | done |].
  intros now2 now3 v ttl'. split.
  - unfold getOrSet, getOrSet_start. by rewrite (get_absent _ _ _ Hk).
  - unfold set; simpl. apply lookup_insert_eq.
Qed.

(** C10: when the live entry of a key holds null, [get] returns null
    and leaves the cache alone, exactly as it does for a key without an
    entry; [getOrSet] takes the miss branch, calls the factory, and
    overwrites the entry with what the factory gives. *)
Theorem cached_null_is_a_miss now key expiry c :
  store c !! key = Some {| value := JNull; expiresAt := expiry |} →
  now ≤ expiry →
  get now key c = (JNull, c)
  ∧ (∀ k, store c !! k = None → get now k c = (JNull, c))
  ∧ getOrSet_start now key c = (Miss, c)
  ∧ ∀ now' v ttl,
      getOrSet (E:=E) now now' key (Normal v) ttl c
      = (Normal v, true, set now' key v ttl c)
      ∧ store (set now' key v ttl c) !! key
        = Some {| value := v;
                  expiresAt := now' + or_num ttl (defaultTTL c) * 1000 |}.
Proof.
  intros Hk Hle.
  assert (Hg : get now key c = (JNull, c)) by by rewrite (get_live _ _ _ _ Hk).
  split_and!.
  - done.
  - intros k Hn. by apply get_absent.
  - unfold getOrSet_start. by rewrite Hg.
  - intros now' v ttl. split.
    + unfold getOrSet, getOrSet_start. by rewrite Hg.
    + unfold set; simpl. apply lookup_insert_eq.
Qed.

(** [has] does tell a stored null from a missing entry. *)
Lemma has_cached_null now key expiry c :
  store c !! key = Some {| value := JNull; expiresAt := expiry |} →
  now ≤ expiry →
  has now key c = (true, c).
Proof.
  intros Hk Hle. unfold has. rewrite Hk. simpl.
  destruct (Z.gtb_spec now expiry); [lia | done].
Qed.

(** ** deletePattern *)

Lemma deletePattern_loop_spec (test : string → bool) (keys : list string)
    (m : gmap string (CacheEntry V)) (n : nat) :
  NoDup keys → (∀ k, k ∈ keys → is_Some (m !! k)) →
  ∃ m', deletePattern_loop test keys (m, n) = (m', (n + size m - size m')%nat)
        ∧ (size m' ≤ size m)%nat
        ∧ ∀ k, m' !! k = if decide (k ∈ keys ∧ test k = true) then None else m !! k.
Proof.
  intros Hnd. revert m n.
  induction Hnd as [|key keys Hnotin Hnd IH]; intros m n Hdom.
  - exists m. split_and!; [simpl; f_equal; lia | done |].
    intros k. case_decide as H; [|done]. destruct H as [H _]. by apply elem_of_nil in H.
  - simpl. destruct (test key) eqn:Ht.
    + destruct (IH (base.delete key m) (S n)) as (m' & Hloop & Hle & Hlook).
      { intros k Hk. rewrite lookup_delete_ne; [|by intros ->].
        apply Hdom. by right. }
      assert (Hsz : size (base.delete key m) = pred (size m))
        by (apply map_size_delete_Some, Hdom; left).
      assert (Hpos : (0 < size m)%nat).
      { destruct (Hdom key) as [x Hx]; [left|].
        destruct (decide (size m = 0%nat)) as [Hz|]; [|lia].
        apply map_size_empty_inv in Hz. subst m. by rewrite lookup_empty in Hx. }
      exists m'. unfold deletePattern_loop in *. rewrite Hloop. split_and!.
      * f_equal. lia.
      * lia.
      * intros k. rewrite Hlook.
        destruct (decide (k = key)) as [->|Hne].
        -- rewrite lookup_delete_eq. rewrite (decide_True (P := key ∈ key :: keys ∧ _)).
           ++ by case_decide.
           ++ split; [left | done].
        -- rewrite lookup_delete_ne by done.
           repeat case_decide; try done; exfalso.
           ++ destruct H as [? ?]. apply H0. split; [by right | done].
           ++ destruct H0 as [Hin ?]. apply H. split; [|done].
              apply elem_of_cons in Hin as [?|?]; done.
    + destruct (IH m n) as (m' & Hloop & Hle & Hlook).
      { intros k Hk. apply Hdom. by right. }
      exists m'. unfold deletePattern_loop in *. rewrite Hloop. split_and!; [done..|].
      intros k. rewrite Hlook.
      repeat case_decide; try done; exfalso.
      * destruct H as [? ?]. apply H0. split; [by right | done].
      * destruct H0 as [Hin ?]. apply elem_of_cons in Hin as [->|?]; [congruence|].
        apply H. by split.
Qed.

(** C2: when the pattern compiles, [deletePattern] removes every key
    that the regex matches and only those, leaves the entries of all
    other keys as they were, and returns how many keys it removed. *)
Theorem deletePattern_removes_matching
    (compile : string → option (string → bool)) (p : string)
    (test : string → bool) c :
  compile p = Some test →
  ∃ n c',
    deletePattern compile p c = Normal (n, c')
    ∧ (∀ k, store c' !! k = if test k then None else store c !! k)
    ∧ n = size (filter (λ kv, test kv.1 = true) (store c))
    ∧ (size (store c') + n = size (store c))%nat
    ∧ defaultTTL c' = defaultTTL c.
Proof.
  intros Hc. unfold deletePattern. rewrite Hc.
  destruct (deletePattern_loop_spec test (map_to_list (store c)).*1 (store c) 0)
    as (m' & Hloop & Hle & Hlook).
  { apply NoDup_fst_map_to_list. }
  { intros k Hk. apply list_elem_of_fmap in Hk as ([k' x] & -> & Hin).
    apply elem_of_map_to_list in Hin. by exists x. }
  rewrite Hloop. eexists _, _. split; [done|]. simpl.
  assert (Hlook' : ∀ k, m' !! k = if test k then None else store c !! k).
  { intros k. rewrite Hlook. case_decide as H.
    - destruct H as [_ ->]. done.
    - destruct (test k) eqn:Ht; [|done].
      destruct (store c !! k) as [x|] eqn:Hx; [|done].
      exfalso. apply H. split; [|done].
      apply list_elem_of_fmap. exists (k, x). split; [done|].
      by apply elem_of_map_to_list. }
  assert (Hm' : m' = filter (λ kv, ¬ (test kv.1 = true)) (store c)).
  { apply map_eq. intros k. apply option_eq. intros x.
    rewrite map_lookup_filter_Some, Hlook'. simpl.
    destruct (test k); split; try done.
    - intros [_ H]. by destruct H.
    - by intros [? _]. }
  assert (Hsize : size (store c)
                  = (size (filter (λ kv, test kv.1 = true) (store c)) + size m')%nat).
  { rewrite Hm'. rewrite <- map_size_disj_union
      by apply map_disjoint_filter_complement.
    by rewrite map_filter_union_complement. }
  split_and!; [done | lia | lia | done].
Qed.

(** ** generateKey *)

Lemma join_from (sep : string) (xs : list part) (R : string) (k : nat) :
  k ≠ 0%nat →
  (foldl (fun '(R, k) x =>
            ((if (k =? 0)%nat then R else R +:+ sep) +:+ to_text x, S k))
         (R, k) xs).1
  = R +:+ foldr (λ x acc, sep +:+ to_text x +:+ acc) "" xs.
Proof.
  revert R k. induction xs as [|x xs IH]; intros R k Hk; simpl.
  - by rewrite StringFacts.append_nil_r.
  - destruct (Nat.eqb_spec k 0); [done|].
    rewrite IH by done. by rewrite !StringFacts.append_assoc.
Qed.

Lemma join_joined (xs : list part) :
  join ":" xs = joined (to_text <$> xs).
Proof.
  unfold join. destruct xs as [|x xs]; [done|]. simpl.
  rewrite join_from by done.
  revert x. induction xs as [|y xs IH]; intros x; simpl.
  - apply StringFacts.append_nil_r.
  - by rewrite <- IH.
Qed.

Lemma filter_truthy_cons_false (p : part) (ps : list part) :
  truthy p = false →
  filter (λ q, Is_true (truthy q)) (p :: ps) = filter (λ q, Is_true (truthy q)) ps.
Proof. intros H. apply filter_cons_False. rewrite H. simpl. tauto. Qed.

(** C5, as the code has it: [generateKey] joins with [:] the texts of
    the truthy parts in their order, that is of the non-empty strings
    and the numbers other than zero; a part that is [undefined], the
    empty string or the number 0 contributes nothing.  The key is a
    function of the truthy parts alone. *)
Theorem generateKey_joins_truthy_parts (parts : list part) :
  generateKey parts = joined (to_text <$> filter (λ p, Is_true (truthy p)) parts)
  ∧ generateKey (PNum 0 :: parts) = generateKey parts
  ∧ generateKey (PStr "" :: parts) = generateKey parts
  ∧ generateKey (PUndefined :: parts) = generateKey parts
  ∧ (∀ p, truthy p = true →
       generateKey (p :: parts)
       = match filter (λ q, Is_true (truthy q)) parts with
         | [] => to_text p
         | _ :: _ => to_text p +:+ ":" +:+ generateKey parts
         end)
  ∧ (∀ parts',
       filter (λ p, Is_true (truthy p)) parts' = filter (λ p, Is_true (truthy p)) parts →
       generateKey parts' = generateKey parts).
Proof.
  unfold generateKey. split_and!.
  - apply join_joined.
  - by rewrite filter_truthy_cons_false.
  - by rewrite filter_truthy_cons_false.
  - by rewrite filter_truthy_cons_false.
  - intros p Hp. rewrite filter_cons_True by by rewrite Hp.
    rewrite !join_joined. simpl.
    by destruct (filter _ parts).
  - intros parts' ->. done.
Qed.

(** ** Callers in flight *)

Lemma run_arrivals key (cs : list (Z * option Z)) (w : loop V E) :
  store (cache w) !! key = None →
  run w (arrivals key cs)
  = {| cache := cache w;
       callers := callers w ++ parked (invocations w) key cs;
       invocations := (invocations w + length cs)%nat |}.
Proof.
  revert w. induction cs as [|a cs IH]; intros w Hk; simpl.
  - rewrite app_nil_r, Nat.add_0_r. by destruct w.
  - unfold run in *. simpl. unfold getOrSet_start.
    rewrite (get_absent _ _ _ Hk). rewrite IH by done. simpl.
    f_equal; [by rewrite <- app_assoc | lia].
Qed.

Lemma resume_settled now i (r : completion (jsval V) E) (rs : list (completion (jsval V) E))
    (c : Cache V) (acc : list (caller V E)) :
  foldl (resume_caller now i r) (c, acc) (Settled <$> rs) = (c, acc ++ (Settled <$> rs)).
Proof.
  revert acc. induction rs as [|x rs IH]; intros acc; simpl.
  - by rewrite app_nil_r.
  - rewrite IH. by rewrite <- app_assoc.
Qed.

Lemma resume_parked_later now i j key (r : completion (jsval V) E) (cs : list (Z * option Z))
    (c : Cache V) (acc : list (caller V E)) :
  (i < j)%nat →
  foldl (resume_caller now i r) (c, acc) (parked j key cs) = (c, acc ++ parked j key cs).
Proof.
  revert acc j. induction cs as [|a cs IH]; intros acc j Hlt; simpl.
  - by rewrite app_nil_r.
  - destruct (Nat.eqb_spec j i); [lia|]. simpl.
    rewrite IH by lia. by rewrite <- app_assoc.
Qed.

Lemma resume_fold_miss now i (r : completion (jsval V) E) (l : list (caller V E)) :
  ∀ c (acc : list (caller V E)),
  (∀ j i' k ttl, l !! j = Some (Awaiting i' k ttl) → i' ≠ i) →
  foldl (resume_caller now i r) (c, acc) l = (c, acc ++ l).
Proof.
  induction l as [|cl l IH]; intros c acc Hne; simpl.
  - by rewrite app_nil_r.
  - assert (resume_caller now i r (c, acc) cl = (c, acc ++ [cl])) as ->.
    { destruct cl as [i' k ttl|res]; simpl; [|done].
      destruct (Nat.eqb_spec i' i) as [->|]; [|done].
      by destruct (Hne 0%nat i k ttl eq_refl). }
    rewrite IH; [by rewrite <- app_assoc|].
    intros j i' k ttl Hj. by apply (Hne (S j) i' k ttl).
Qed.

Lemma resume_outcome now key (r : completion (jsval V) E) ttl c :
  (getOrSet_resume now key r ttl c).1 = r.
Proof. by destruct r. Qed.

Lemma resume_other_keys now key (r : completion (jsval V) E) ttl c :
  defaultTTL (getOrSet_resume now key r ttl c).2 = defaultTTL c
  ∧ ∀ k, k ≠ key → store (getOrSet_resume now key r ttl c).2 !! k = store c !! k.
Proof.
  destruct r as [v|e]; simpl; [|done]. split; [done|].
  intros k Hne. by rewrite lookup_insert_ne.
Qed.

Lemma step_settle (w : loop V E) now i key ttl (r : completion (jsval V) E) :
  (∀ j i' k' ttl', callers w !! j = Some (Awaiting i' k' ttl') → i' = j) →
  callers w !! i = Some (Awaiting i key ttl) →
  step w (Settle now i r)
  = {| cache := (getOrSet_resume now key r ttl (cache w)).2;
       callers := <[i := Settled r]> (callers w);
       invocations := invocations w |}.
Proof.
  intros Hown Hi. cbn [step].
  pose proof (lookup_lt_Some _ _ _ Hi) as Hlt.
  rewrite <- (take_drop_middle (callers w) i _ Hi) at 1.
  rewrite foldl_app, resume_fold_miss.
  2:{ intros j i' k ttl' Hj. apply lookup_take_Some in Hj as [Hj Hlt'].
      apply Hown in Hj. lia. }
  cbn [foldl resume_caller]. rewrite Nat.eqb_refl. cbn [fst snd].
  pose proof (resume_outcome now key r ttl (cache w)) as Hout.
  destruct (getOrSet_resume now key r ttl (cache w)) as [res c'].
  cbn [fst snd] in *. subst res.
  rewrite resume_fold_miss.
  2:{ intros j i' k ttl' Hj. rewrite lookup_drop in Hj. apply Hown in Hj. lia. }
  f_equal. cbn [app]. rewrite <- app_assoc. cbn [app].
  by rewrite insert_take_drop.
Qed.

Lemma parked_lookup key (cs : list (Z * option Z)) :
  ∀ i j, parked (V:=V) (E:=E) i key cs !! j
         = (λ a, Awaiting (i + j) key a.2) <$> cs !! j.
Proof.
  induction cs as [|a cs IH]; intros i j; [done|].
  destruct j as [|j]; cbn [parked]; [by rewrite Nat.add_0_r|].
  rewrite !lookup_cons. rewrite IH. by rewrite Nat.add_succ_comm.
Qed.

Lemma parked_length i key (cs : list (Z * option Z)) :
  length (parked (V:=V) (E:=E) i key cs) = length cs.
Proof. revert i. induction cs as [|a cs IH]; intros i; simpl; [done | by rewrite IH]. Qed.

Lemma settled_callers_start key (cs : list (Z * option Z)) :
  settled_callers (V:=V) (E:=E) key cs [] (parked 0 key cs).
Proof.
  split_and!.
  - apply parked_length.
  - intros s Hs. by apply elem_of_nil in Hs.
  - intros i a Ha _. by rewrite parked_lookup, Ha.
Qed.

Lemma settled_callers_own key (cs : list (Z * option Z))
    (done : list (Z * nat * completion (jsval V) E)) (l : list (caller V E)) :
  settled_callers key cs done l →
  ∀ j i' k' ttl', l !! j = Some (Awaiting i' k' ttl') → i' = j.
Proof.
  intros (Hlen & Hdone & Hrest) j i' k' ttl' Hj.
  pose proof (lookup_lt_Some _ _ _ Hj) as Hlt. rewrite Hlen in Hlt.
  destruct (lookup_lt_is_Some_2 cs j Hlt) as [a Ha].
  destruct (decide (j ∈ done.*1.*2)) as [Hin|Hnot].
  - apply list_elem_of_fmap in Hin as (p & -> & Hin).
    apply list_elem_of_fmap in Hin as (s & -> & Hin).
    rewrite (Hdone s Hin) in Hj. done.
  - rewrite (Hrest j a Ha Hnot) in Hj. by injection Hj.
Qed.

Lemma settle_one key (cs : list (Z * option Z))
    (done : list (Z * nat * completion (jsval V) E)) (w : loop V E)
    now i (r : completion (jsval V) E) (a : Z * option Z) :
  settled_callers key cs done (callers w) →
  cs !! i = Some a → i ∉ done.*1.*2 →
  step w (Settle now i r)
  = {| cache := (getOrSet_resume now key r a.2 (cache w)).2;
       callers := <[i := Settled r]> (callers w);
       invocations := invocations w |}
  ∧ settled_callers key cs (done ++ [(now, i, r)]) (<[i := Settled r]> (callers w)).
Proof.
  intros Hst Ha Hnot. pose proof Hst as (Hlen & Hdone & Hrest). split.
  - apply step_settle; [by eapply settled_callers_own | by apply Hrest].
  - split_and!.
    + by rewrite length_insert.
    + intros s [Hs|Hs]%elem_of_app.
      * assert (s.1.2 ≠ i).
        { intros <-. apply Hnot. apply list_elem_of_fmap. exists s.1.
          split; [done|]. apply list_elem_of_fmap. by exists s. }
        rewrite list_lookup_insert_ne by done. by apply Hdone.
      * apply list_elem_of_singleton in Hs as ->. cbn [fst snd].
        apply list_lookup_insert_eq. rewrite Hlen. by eapply lookup_lt_Some.
    + intros j b Hb Hj. rewrite !fmap_app in Hj. cbn in Hj.
      apply not_elem_of_app in Hj as [Hj Hne].
      rewrite list_lookup_insert_ne; [by apply Hrest|].
      intros <-. apply Hne. by left.
Qed.

Lemma run_settling key (cs : list (Z * option Z))
    (es : list (Z * nat * completion (jsval V) E)) :
  ∀ (done : list (Z * nat * completion (jsval V) E)) (w : loop V E),
  NoDup (done ++ es).*1.*2 →
  (∀ s, s ∈ es → (s.1.2 < length cs)%nat) →
  settled_callers key cs done (callers w) →
  settled_callers key cs (done ++ es) (callers (run w (settling es)))
  ∧ invocations (run w (settling es)) = invocations w
  ∧ defaultTTL (cache (run w (settling es))) = defaultTTL (cache w)
  ∧ ∀ k, k ≠ key → store (cache (run w (settling es))) !! k = store (cache w) !! k.
Proof.
  induction es as [|[[now i] r] es IH]; intros done w Hnd Hlt Hst.
  - rewrite app_nil_r. done.
  - destruct (lookup_lt_is_Some_2 cs i) as [a Ha].
    { apply (Hlt (now, i, r)). by left. }
    assert (Hnot : i ∉ done.*1.*2).
    { rewrite !fmap_app in Hnd. apply NoDup_app in Hnd as (_ & Hdis & _).
      intros Hin. apply (Hdis i Hin). cbn. by left. }
    destruct (settle_one key cs done w now i r a Hst Ha Hnot) as [Hstep Hst'].
    unfold run, settling in *. cbn [fmap list_fmap foldl]. cbn [fst snd].
    rewrite Hstep.
    replace (done ++ (now, i, r) :: es) with ((done ++ [(now, i, r)]) ++ es) in *
      by by rewrite <- app_assoc.
    destruct (IH (done ++ [(now, i, r)])
                {| cache := (getOrSet_resume now key r a.2 (cache w)).2;
                   callers := <[i := Settled r]> (callers w);
                   invocations := invocations w |})
      as (H1 & H2 & H3 & H4); [done | | done |].
    { intros s Hs. apply Hlt. by right. }
    destruct (resume_other_keys now key r a.2 (cache w)) as [Httl Hother].
    split_and!; [done | done | |].
    + cbn [cache] in H3. congruence.
    + intros k Hk. cbn [cache] in H4. rewrite H4 by done. by apply Hother.
Qed.

(** C3, as the code has it: for a key with no entry, when [N] callers
    invoke [getOrSet] before any factory promise has settled, the
    factory is called [N] times, once by each caller, and each caller
    is parked on the promise of its own invocation.  When promises
    settle, in whatever order, the caller of each settled invocation
    ends with the outcome of that invocation and the others stay
    parked; each fulfilled result is written to the cache as it
    arrives, with the expiry counted from that settlement and the TTL
    of that caller, a rejection leaves the cache as it was, and no
    other key changes. *)
Theorem getOrSet_invokes_factory_per_caller key (c : Cache V)
    (cs : list (Z * option Z)) (es : list (Z * nat * completion (jsval V) E)) :
  store c !! key = None →
  NoDup es.*1.*2 →
  (∀ s, s ∈ es → (s.1.2 < length cs)%nat) →
  let w1 := run (idle c) (arrivals key cs) in
  let w2 := run w1 (settling es) in
  invocations w1 = length cs
  ∧ callers w1 = parked 0 key cs
  ∧ cache w1 = c
  ∧ invocations w2 = length cs
  ∧ length (callers w2) = length cs
  ∧ (∀ now i r, (now, i, r) ∈ es → callers w2 !! i = Some (Settled r))
  ∧ (∀ i a, cs !! i = Some a → i ∉ es.*1.*2 →
            callers w2 !! i = Some (Awaiting i key a.2))
  ∧ (∀ es1 now i r es2 a,
       es = es1 ++ (now, i, r) :: es2 → cs !! i = Some a →
       let before := cache (run w1 (settling es1)) in
       let after := cache (run w1 (settling (es1 ++ [(now, i, r)]))) in
       defaultTTL after = defaultTTL c
       ∧ (∀ k, k ≠ key → store after !! k = store c !! k)
       ∧ match r with
         | Normal v =>
           after = set now key v a.2 before
           ∧ store after !! key
             = Some {| value := v;
                       expiresAt := now + or_num a.2 (defaultTTL c) * 1000 |}
         | Throw _ => after = before
         end).
Proof.
  intros Hk Hnd Hlt w1 w2.
  assert (Hw1 : w1 = {| cache := c; callers := parked 0 key cs;
                        invocations := length cs |}).
  { unfold w1. by rewrite run_arrivals. }
  assert (Hstart : settled_callers key cs [] (callers w1)).
  { rewrite Hw1. apply settled_callers_start. }
  destruct (run_settling key cs es [] w1 Hnd Hlt Hstart)
    as ((Hlen & Hdone & Hrest) & Hinv & _ & _).
  fold w2 in Hlen, Hdone, Hrest, Hinv. cbn [app] in Hdone, Hrest.
  split_and!; try by rewrite Hw1.
  - rewrite Hinv. by rewrite Hw1.
  - done.
  - intros now i r Hin. apply (Hdone (now, i, r) Hin).
  - done.
  - intros es1 now i r es2 a Hes Ha before after.
    assert (Hnd1 : NoDup es1.*1.*2 ∧ i ∉ es1.*1.*2).
    { rewrite Hes, !fmap_app in Hnd. apply NoDup_app in Hnd as (Hnd1 & Hdis & _).
      split; [done|]. intros Hin. apply (Hdis i Hin). cbn. by left. }
    destruct Hnd1 as [Hnd1 Hnot].
    destruct (run_settling key cs es1 [] w1 Hnd1) as (Hst1 & _ & Httl1 & Hother1).
    { intros s Hs. apply Hlt. rewrite Hes. apply elem_of_app. by left. }
    { done. }
    cbn [app] in Hst1.
    destruct (settle_one key cs es1 (run w1 (settling es1)) now i r a Hst1 Ha Hnot)
      as [Hstep _].
    assert (Hafter : after = (getOrSet_resume now key r a.2 before).2).
    { unfold after, before, run, settling. rewrite fmap_app, foldl_app.
      cbn [fmap list_fmap foldl fst snd].
      unfold run, settling in Hstep. by rewrite Hstep. }
    assert (Hc : defaultTTL before = defaultTTL c ∧
                 ∀ k, k ≠ key → store before !! k = store c !! k).
    { unfold before. rewrite Httl1. split; [by rewrite Hw1|].
      intros k Hne. rewrite Hother1 by done. by rewrite Hw1. }
    destruct Hc as [Httl Hother].
    destruct (resume_other_keys now key r a.2 before) as [Httl' Hother'].
    rewrite Hafter. split_and!.
    + congruence.
    + intros k Hne. rewrite Hother' by done. by apply Hother.
    + destruct r as [v|e]; cbn [getOrSet_resume snd]; [|done].
      split; [done|]. unfold set; cbn [store with_store].
      rewrite lookup_insert_eq, Httl. done.
Qed.

End Facts.

(** ** The theorems at concrete caches *)

Lemma set_stores_with_truthy_ttl_witness :
  "other" ≠ "k"
  ∧ store (set 1000 "k" (JVal 1%nat) (Some 0) fresh) !! "other" = store fresh !! "other".
Proof.
  split; [done|].
  apply (set_stores_with_truthy_ttl 1000 "k" (JVal 1%nat) (Some 0) fresh). done.
Defined.

(** C4 as stated fails: a supplied TTL of 0 seconds does not give the
    expiry [now]; the entry gets the default TTL. *)
Lemma set_ttl_zero_counterexample :
  expiresAt <$> store (set 1000 "k" (JVal 1%nat) (Some 0) fresh) !! "k"
  ≠ Some (1000 + 0 * 1000).
Proof. vm_compute. discriminate. Qed.

Example set_ttl_zero_uses_default :
  expiresAt <$> store (set 1000 "k" (JVal 1%nat) (Some 0) fresh) !! "k"
  = Some (1000 + 3600 * 1000).
Proof. reflexivity. Qed.

Lemma get_after_set_witness :
  (11000 ≤ 1000 + or_num (Some 10) (defaultTTL fresh) * 1000
   ∧ get 11000 "k" (set 1000 "k" (JVal 7%nat) (Some 10) fresh)
     = (JVal 7%nat, set 1000 "k" (JVal 7%nat) (Some 10) fresh))
  ∧ (1000 + or_num (Some 10) (defaultTTL fresh) * 1000 < 11001
     ∧ store (get 11001 "k" (set 1000 "k" (JVal 7%nat) (Some 10) fresh)).2 !! "k" = None).
Proof.
  split.
  - assert (H : 11000 ≤ 1000 + or_num (Some 10) (defaultTTL (V:=nat) fresh) * 1000)
      by (vm_compute; discriminate).
    split; [exact H|].
    apply (get_after_set 1000 "k" (JVal 7%nat) (Some 10) fresh 11000). exact H.
  - assert (H : 1000 + or_num (Some 10) (defaultTTL (V:=nat) fresh) * 1000 < 11001)
      by reflexivity.
    split; [exact H|].
    apply (get_after_set 1000 "k" (JVal 7%nat) (Some 10) fresh 11001). exact H.
Defined.

Lemma getOrSet_failure_not_cached_witness :
  store fresh !! "k" = None
  ∧ getOrSet 0 5 "k" (Throw "boom") None fresh = (Throw "boom", true, fresh).
Proof.
  split; [reflexivity|].
  apply (getOrSet_failure_not_cached 0 5 "k" "boom" None fresh). reflexivity.
Defined.

Lemma cached_null_is_a_miss_witness :
  store (set 0 "k" JNull (Some 60) fresh) !! "k"
    = Some {| value := JNull; expiresAt := 60000 |}
  ∧ 100 ≤ 60000
  ∧ getOrSet_start 100 "k" (set 0 "k" JNull (Some 60) fresh)
    = (Miss, set 0 "k" JNull (Some 60) fresh).
Proof.
  assert (H : 100 ≤ 60000) by (vm_compute; discriminate).
  split_and!; [reflexivity | exact H |].
  apply (cached_null_is_a_miss (E:=string) 100 "k" 60000
           (set 0 "k" JNull (Some 60) fresh)); [reflexivity | exact H].
Defined.

Lemma deletePattern_removes_matching_witness :
  compile "^session:" = Some (λ k, test false (re "^session:") (chs k))
  ∧ ∃ n c',
      deletePattern compile "^session:" sample = Normal (n, c')
      ∧ (∀ k, store c' !! k
              = if test false (re "^session:") (chs k) then None else store sample !! k)
      ∧ n = size (filter (λ kv, test false (re "^session:") (chs kv.1) = true)
                         (store sample))
      ∧ (size (store c') + n = size (store sample))%nat
      ∧ defaultTTL c' = defaultTTL sample.
Proof.
  split; [reflexivity|].
  apply (deletePattern_removes_matching compile "^session:"
           (λ k, test false (re "^session:") (chs k)) sample).
  reflexivity.
Defined.

(** The example of the specification, computed. *)
Example deletePattern_session :
  deletePattern compile "^session:" sample
  = Normal (2%nat,
            with_store sample
              {[ "user:1" := {| value := JVal 2%nat; expiresAt := 11000 |} ]}).
Proof. vm_compute. reflexivity. Qed.

Example deletePattern_searches_inside_keys :
  deletePattern compile "ser" sample
  = Normal (1%nat, with_store sample (base.delete "user:1" (store sample))).
Proof. vm_compute. reflexivity. Qed.

(** An unbalanced parenthesis, which the host refuses as well. *)
Example deletePattern_syntax_error :
  deletePattern compile "(" sample = Throw "SyntaxError".
Proof. reflexivity. Qed.

Lemma generateKey_joins_truthy_parts_witness :
  filter (λ p, Is_true (truthy p)) [PStr "a"; PNum 0; PStr "b"]
    = filter (λ p, Is_true (truthy p)) [PStr "a"; PUndefined; PStr "b"; PStr ""]
  ∧ generateKey [PStr "a"; PNum 0; PStr "b"]
    = generateKey [PStr "a"; PUndefined; PStr "b"; PStr ""].
Proof.
  split; [reflexivity|].
  apply (generateKey_joins_truthy_parts [PStr "a"; PUndefined; PStr "b"; PStr ""]).
  reflexivity.
Defined.

(** C5 as stated fails: the number 0 is a part that is neither absent
    nor empty, and it is not in the key. *)
Lemma generateKey_zero_counterexample :
  generateKey [PStr "page"; PNum 0]
  ≠ joined (to_text <$> filter (λ p, Is_true (present p)) [PStr "page"; PNum 0]).
Proof. vm_compute. discriminate. Qed.

Example generateKey_zero_dropped :
  generateKey [PStr "page"; PNum 0] = "page"
  ∧ joined (to_text <$> filter (λ p, Is_true (present p)) [PStr "page"; PNum 0]) = "page:0"
  ∧ generateKey [PStr "example.com"; PNum 42; PUndefined; PStr "meta"] = "example.com:42:meta".
Proof. vm_compute. done. Qed.

Lemma getOrSet_invokes_factory_per_caller_witness :
  store fresh !! "k" = None
  ∧ NoDup [(11, 1%nat, Throw "boom"); (10, 0%nat, Normal (JVal 1%nat))].*1.*2
  ∧ (∀ s, s ∈ [(11, 1%nat, Throw (A:=jsval nat) "boom"); (10, 0%nat, Normal (JVal 1%nat))]
          → (s.1.2 < 2)%nat)
  ∧ invocations (run (E:=string) (idle fresh) (arrivals "k" [(0, None); (1, Some 5)]))
    = 2%nat.
Proof.
  assert (H1 : NoDup [(11, 1%nat, Throw (A:=jsval nat) "boom");
                      (10, 0%nat, Normal (JVal 1%nat))].*1.*2).
  { cbn. apply (bool_decide_unpack (NoDup [1%nat; 0%nat])). reflexivity. }
  assert (H2 : ∀ s, s ∈ [(11, 1%nat, Throw (A:=jsval nat) "boom");
                         (10, 0%nat, Normal (JVal 1%nat))]
                    → (s.1.2 < 2)%nat).
  { intros s Hs. repeat (apply elem_of_cons in Hs as [->|Hs]); cbn; try lia.
    by apply elem_of_nil in Hs. }
  split_and!; [reflexivity | exact H1 | exact H2 |].
  apply (getOrSet_invokes_factory_per_caller "k" fresh [(0, None); (1, Some 5)]
           [(11, 1%nat, Throw "boom"); (10, 0%nat, Normal (JVal 1%nat))]
           eq_refl H1 H2).
Defined.

(** C3 as stated fails: two callers for the same absent key call the
    factory twice, and they do not end with one common result. *)
Lemma single_flight_counterexample :
  let w1 := run (E:=string) (idle fresh) (arrivals "k" [(0, None); (0, None)]) in
  let w2 := run w1 (settlements 0 [(5, Normal (JVal 1%nat)); (6, Normal (JVal 2%nat))]) in
  ¬ (invocations w1 = 1%nat ∧ ∃ r, callers w2 = [Settled r; Settled r]).
Proof. intros w1 w2 [H _]. vm_compute in H. discriminate. Qed.

Example two_callers_two_results :
  let w1 := run (E:=string) (idle fresh) (arrivals "k" [(0, None); (0, None)]) in
  let w2 := run w1 (settlements 0 [(5, Normal (JVal 1%nat)); (6, Normal (JVal 2%nat))]) in
  invocations w1 = 2%nat
  ∧ callers w2 = [Settled (Normal (JVal 1%nat)); Settled (Normal (JVal 2%nat))]
  ∧ value <$> store (cache w2) !! "k" = Some (JVal 2%nat).
Proof. vm_compute. done. Qed.

(** The promise of the second caller settling first: each caller has
    its own result, and the entry that stays is the one written
    last. *)
Example settled_out_of_order :
  let w1 := run (E:=string) (idle fresh) (arrivals "k" [(0, None); (0, None)]) in
  let w2 := run w1 (settling [(5, 1%nat, Normal (JVal 2%nat));
                              (6, 0%nat, Normal (JVal 1%nat))]) in
  callers w2 = [Settled (Normal (JVal 1%nat)); Settled (Normal (JVal 2%nat))]
  ∧ store (cache w2) !! "k" = Some {| value := JVal 1%nat; expiresAt := 3600006 |}.
Proof. vm_compute. done. Qed.

End CacheFacts.

(** * Global replacement and patterns with a fixed end *)
Module ReplaceFacts.
Import Regex RegexFacts URLResolver URLResolverFacts.

(** ** Global replacement, one match at a time *)

Lemma exec_at_index ic r (s : chars) :
  ∀ idx m, exec_at ic r idx s = Some m → idx ≤ m_index m.
Proof.
  induction s as [|c s IH]; intros idx m; rewrite exec_at_unfold;
    destruct (matches ic r (MState idx _ [])) as [|st l]; try done.
  - by intros [= <-].
  - intros H%IH. lia.
  - by intros [= <-].
Qed.

Lemma replace_from_skip ic r tpl fuel idx (c : ascii) (t : chars) :
  matches ic r (MState idx (c :: t) []) = [] →
  replace_from ic r tpl fuel idx (c :: t) = c :: replace_from ic r tpl fuel (S idx) t.
Proof.
  intros Hno. destruct fuel as [|fuel]; [done|]. cbn [replace_from].
  rewrite (exec_at_unfold ic r idx (c :: t)), Hno.
  destruct (exec_at ic r (S idx) t) as [m|] eqn:Hex; [|done].
  apply exec_at_index in Hex.
  replace (m_index m - idx) with (S (m_index m - S idx)) by lia.
  cbn [take]. destruct (ms_idx (m_end m) =? m_index m); [|done].
  by destruct (ms_rest (m_end m)).
Qed.

Lemma replace_from_hit ic r tpl fuel idx (s : chars) (st : mstate) (l : list mstate) :
  matches ic r (MState idx s []) = st :: l →
  ms_idx st ≠ idx →
  replace_from ic r tpl (S fuel) idx s
  = expand tpl (RMatch idx (take (ms_idx st - idx) s) st)
    ++ replace_from ic r tpl fuel (ms_idx st) (ms_rest st).
Proof.
  intros Hm Hne. cbn [replace_from]. rewrite exec_at_unfold, Hm.
  cbn [m_index m_end]. rewrite Nat.sub_diag. cbn [take app].
  by destruct (Nat.eqb_spec (ms_idx st) idx).
Qed.

(** *** A single character *)

Lemma replace_from_char (p d : ascii) :
  ∀ (s : chars) (fuel idx : nat),
  length s < fuel →
  replace_from false (Chr p) [TLit [d]] fuel idx s
  = map (λ c, if Ascii.eqb c p then d else c) s.
Proof.
  induction s as [|c s IH]; intros fuel idx Hlen.
  - destruct fuel; [done|]. reflexivity.
  - destruct (Ascii.eqb_spec c p) as [->|Hne].
    + destruct fuel as [|fuel]; [simpl in Hlen; lia|].
      rewrite (replace_from_hit false (Chr p) _ fuel idx (p :: s)
                 (MState (S idx) s []) []).
      * cbn [ms_idx ms_rest map expand flat_map app]. rewrite Ascii.eqb_refl.
        rewrite IH by (simpl in Hlen; lia). done.
      * rewrite matches_Chr, step1_cons. unfold char_eq, canon.
        by rewrite Ascii.eqb_refl.
      * cbn. lia.
    + rewrite replace_from_skip.
      * cbn [map]. apply Ascii.eqb_neq in Hne. rewrite Hne.
        rewrite IH by (simpl in Hlen; lia). done.
      * rewrite matches_Chr, step1_cons. unfold char_eq, canon.
        assert (Ascii.eqb p c = false) as ->; [|done].
        apply Ascii.eqb_neq. congruence.
Qed.

Lemma replace_all_char (p d : ascii) (s : chars) :
  replace_all false (Chr p) [TLit [d]] s = map (λ c, if Ascii.eqb c p then d else c) s.
Proof. unfold replace_all. apply replace_from_char. lia. Qed.

(** *** The dynamic-segment pattern *)

Lemma not_close_false (d : ascii) : not_close d = false → d = "]"%char.
Proof.
  unfold not_close. intros H. apply negb_false_iff in H. by apply Ascii.eqb_eq.
Qed.

Lemma matches_dynamic_at (i : nat) (t : chars) :
  matches false dynamic_rx (MState i ("["%char :: t) [])
  = match take_while not_close t, drop_while not_close t with
    | (_ :: _) as body, _ :: t' => [MState (S (length body + S i)) t' [(1, body)]]
    | _, _ => []
    end.
Proof.
  unfold dynamic_rx.
  rewrite matches_Seq, matches_Chr, step1_cons. case_char_eq.
  cbn [flat_map]. rewrite app_nil_r, matches_Seq, matches_Group, flat_map_map.
  rewrite (flat_map_plus_run false true [("]", "]")]%char
             (λ x, matches false (Chr "]") (capture 1 (MState (S i) t []) x))).
  2:{ intros j c t' caps Hc. rewrite class_not_close in Hc.
      unfold capture. cbn [ms_idx ms_rest ms_caps].
      rewrite matches_Chr, step1_cons, close_eq.
      unfold not_close in Hc. by apply negb_true_iff in Hc as ->. }
  rewrite (take_while_ext _ not_close), (drop_while_ext _ not_close)
    by apply class_not_close.
  pose proof (take_length_take_while not_close t) as Htake.
  pose proof (drop_while_head not_close t) as Hhead.
  destruct (take_while not_close t) as [|b body]; [done|].
  unfold capture. cbn [ms_idx ms_rest ms_caps].
  destruct (drop_while not_close t) as [|d t'].
  { by rewrite matches_Chr, step1_nil. }
  rewrite matches_Chr, step1_cons, close_eq.
  rewrite (not_close_false d) by by eapply Hhead.
  rewrite Ascii.eqb_refl. by rewrite sub_add_l, Htake.
Qed.

Lemma matches_dynamic_other (i : nat) (c : ascii) (t : chars) :
  Ascii.eqb c "[" = false → matches false dynamic_rx (MState i (c :: t) []) = [].
Proof.
  intros Hc. unfold dynamic_rx. rewrite matches_Seq, matches_Chr, step1_cons.
  unfold char_eq, canon. by rewrite Ascii.eqb_sym, Hc.
Qed.

Lemma colon_in_run (t : chars) :
  colon_in t
  = take_while not_close t
    ++ match drop_while not_close t with [] => [] | _ :: t' => colonize t' end.
Proof.
  induction t as [|c t IH]; [done|]. cbn [colon_in take_while drop_while].
  unfold not_close at 1 3. destruct (Ascii.eqb c "]"); cbn [negb app]; [done|].
  by rewrite IH.
Qed.

Lemma replace_from_dynamic (n : nat) :
  ∀ (s : chars) (fuel idx : nat),
  length s ≤ n → length s < fuel →
  replace_from false dynamic_rx [TLit [":"%char]; TGroup 1] fuel idx s = colonize s.
Proof.
  induction n as [|n IH]; intros s fuel idx Hn Hlen.
  { destruct s; [|simpl in Hn; lia]. by destruct fuel. }
  destruct s as [|c t]; [by destruct fuel|].
  cbn [length] in Hn, Hlen. cbn [colonize].
  destruct (Ascii.eqb_spec c "["%char) as [->|Hne]; cbn [andb].
  - pose proof (matches_dynamic_at idx t) as Hm. unfold opens.
    pose proof (take_drop_while not_close t) as Hsplit.
    rewrite colon_in_run.
    destruct (take_while not_close t) as [|b body] eqn:Hbody.
    { rewrite replace_from_skip by done. rewrite IH by lia. done. }
    destruct (drop_while not_close t) as [|d t'] eqn:Hrest.
    { rewrite replace_from_skip by done. rewrite IH by lia. done. }
    destruct fuel as [|fuel]; [lia|].
    rewrite (replace_from_hit _ _ _ _ _ _ _ _ Hm) by (cbn; lia).
    cbn [ms_idx ms_rest]. rewrite IH.
    + unfold expand, group. cbn. by rewrite app_nil_r.
    + apply (f_equal length) in Hsplit. rewrite length_app in Hsplit.
      cbn [length] in Hsplit. lia.
    + apply (f_equal length) in Hsplit. rewrite length_app in Hsplit.
      cbn [length] in Hsplit. lia.
  - apply Ascii.eqb_neq in Hne.
    rewrite replace_from_skip by by apply matches_dynamic_other.
    by rewrite IH by lia.
Qed.

Lemma replace_all_dynamic (s : chars) :
  replace_all false dynamic_rx [TLit [":"%char]; TGroup 1] s = colonize s.
Proof. unfold replace_all. apply (replace_from_dynamic (length s)); lia. Qed.

(** ** Patterns that match a fixed text at the end of the subject *)

Section SuffixOnly.
Variables (r : regex) (w : chars).
Hypothesis only :
  ∀ i t caps, matches false r (MState i t caps) ≠ [] → t = w.
Hypothesis whole :
  ∀ i, ∃ caps l, matches false r (MState i w []) = MState (length w + i) [] caps :: l.

Lemma exec_at_suffix (u : chars) :
  ∀ idx, ∃ caps,
    exec_at false r idx (u ++ w)
    = Some (RMatch (length u + idx) w (MState (length w + (length u + idx)) [] caps)).
Proof.
  induction u as [|c u IH]; intros idx; rewrite exec_at_unfold.
  - destruct (whole idx) as (caps & l & Hm). cbn [app]. rewrite Hm.
    exists caps. cbn [ms_idx length Nat.add].
    by rewrite sub_add_l, firstn_all.
  - destruct (matches false r (MState idx ((c :: u) ++ w) [])) as [|st l] eqn:Hm.
    + cbn [app]. destruct (IH (S idx)) as [caps Hex]. exists caps.
      rewrite Hex. cbn [length]. by rewrite <- !Nat.add_succ_comm.
    + exfalso. assert (H : (c :: u) ++ w = w) by (apply (only idx _ []); by rewrite Hm).
      apply (f_equal length) in H. rewrite length_app in H. simpl in H. lia.
Qed.

Lemma replace_first_suffix (u : chars) : replace_first false r [] (u ++ w) = u.
Proof.
  unfold replace_first, exec. destruct (exec_at_suffix u 0) as [caps ->].
  cbn [m_index m_end ms_rest expand flat_map].
  by rewrite Nat.add_0_r, take_app_length, !app_nil_r.
Qed.

Lemma replace_first_no_suffix (s : chars) :
  (∀ u, s ≠ u ++ w) → replace_first false r [] s = s.
Proof.
  intros Hno. unfold replace_first, exec. rewrite exec_at_nowhere; [done|].
  intros u t i ->.
  destruct (matches false r (MState i t [])) as [|st l] eqn:Hm; [done|].
  exfalso. apply (Hno u). f_equal. apply (only i _ []). by rewrite Hm.
Qed.
End SuffixOnly.

Lemma ends_or_not (w s : chars) : (∃ u, s = u ++ w) ∨ (∀ u, s ≠ u ++ w).
Proof.
  destruct (decide (drop (length s - length w) s = w)) as [Hd|Hd].
  - left. exists (take (length s - length w) s). by rewrite <- Hd at 2; rewrite take_drop.
  - right. intros u ->. apply Hd. rewrite length_app.
    replace (length u + length w - length w) with (length u) by lia.
    apply drop_app_length.
Qed.

(** ** A lazy group before a tail that matches one text only *)

Section LazyGroup.
Variables (tail : regex) (tl : chars).
Hypothesis tail_stops :
  ∀ a2 j caps, a2 ≠ [] → matches false tail (MState j (a2 ++ tl) caps) = [].
Hypothesis tail_ends :
  ∀ j caps, ∃ st l, matches false tail (MState j tl caps) = st :: l
                    ∧ assoc 1 (ms_caps st) = assoc 1 caps.

Lemma lazy_group (segs : chars) (i : nat) :
  segs ≠ [] → forallb not_terminator segs = true →
  ∃ st l, matches false (Seq (Group 1 (Plus Lazy Dot)) tail) (MState i (segs ++ tl) [])
          = st :: l
          ∧ assoc 1 (ms_caps st) = Some segs.
Proof.
  intros Hne Hnt.
  rewrite matches_Seq, matches_Group, flat_map_map.
  destruct (flat_map_plus_lazy_dot false
              (λ x, matches false tail (capture 1 (MState i (segs ++ tl) []) x))
              tl [] segs i Hne Hnt) as [rest Hrest].
  { intros a1 a2 -> _ Ha2. unfold capture. cbn [ms_idx ms_rest ms_caps].
    by apply tail_stops. }
  rewrite Hrest. clear Hrest.
  unfold capture at 1. cbn [ms_idx ms_rest ms_caps].
  rewrite take_app_length'.
  destruct (tail_ends (length segs + i) [(1, segs)]) as (st & l & Hst & Hcap).
  unfold chars in *. rewrite Hst. exists st, (l ++ rest). split; [done|].
  rewrite Hcap. cbn. done.
Qed.
End LazyGroup.

(** ** Patterns that open with a literal text *)

Lemma matches_lits (lits : chars) (r : regex) (t : chars) (caps : list (nat * chars)) :
  ∀ i, matches false (lits_then lits r) (MState i (lits ++ t) caps)
       = matches false r (MState (length lits + i) t caps).
Proof.
  induction lits as [|c lits IH]; intros i; [done|].
  cbn [lits_then app]. rewrite matches_Seq, matches_Chr, step1_cons.
  unfold char_eq, canon. rewrite Ascii.eqb_refl. cbn [flat_map].
  rewrite app_nil_r, IH. cbn [length]. by rewrite Nat.add_succ_r.
Qed.

Lemma matches_lits_inv (lits : chars) (r : regex) :
  ∀ (t : chars) (i : nat) (caps : list (nat * chars)),
  matches false (lits_then lits r) (MState i t caps) ≠ [] → ∃ t', t = lits ++ t'.
Proof.
  induction lits as [|c lits IH]; intros t i caps; [by exists t|].
  cbn [lits_then]. rewrite matches_Seq, matches_Chr.
  destruct t as [|d t]; [done|]. rewrite step1_cons.
  unfold char_eq, canon. destruct (Ascii.eqb_spec c d) as [<-|]; [|done].
  cbn [flat_map]. rewrite app_nil_r. intros (t' & ->)%IH. by exists t'.
Qed.

End ReplaceFacts.

(** * More properties of the resolver *)
Module URLResolverMore.
Import Regex RegexFacts URLResolver URLResolverFacts ReplaceFacts.

(** ** Substrings *)

Lemma prefix_append (a b : string) : String.prefix a (a +:+ b) = true.
Proof.
  induction a as [|c a IH]; [apply prefix_nil|].
  rewrite StringFacts.append_cons, prefix_cons, Ascii.eqb_refl. done.
Qed.

Lemma includes_prefix (s needle : string) :
  String.prefix needle s = true → includes s needle = true.
Proof. intros H. destruct s; cbn [includes]; by rewrite H. Qed.

Lemma includes_refl (s : string) : includes s s = true.
Proof.
  apply includes_prefix. rewrite <- (StringFacts.append_nil_r s) at 2.
  apply prefix_append.
Qed.

Lemma includes_append_l (a b : string) : includes (a +:+ b) a = true.
Proof. apply includes_prefix, prefix_append. Qed.

Lemma array_includes_spec (array : list string) (x : string) :
  array_includes array x = true ↔ x ∈ array.
Proof.
  unfold array_includes. rewrite existsb_exists. split.
  - intros (y & Hin & Heq). apply String.eqb_eq in Heq as ->.
    by apply list_elem_of_In.
  - intros Hin. exists x. split; [by apply list_elem_of_In | apply String.eqb_refl].
Qed.

Lemma array_includes_false (array : list string) (x : string) :
  array_includes array x = false ↔ x ∉ array.
Proof.
  rewrite <- array_includes_spec. by destruct (array_includes array x).
Qed.

(** ** The trailing slash *)

Lemma matches_slash_inv (i : nat) (t : chars) (caps : list (nat * chars)) :
  matches false slash_rx (MState i t caps) ≠ [] → t = ["/"%char].
Proof.
  unfold slash_rx. destruct t as [|c [|c' t]]; cbn [matches flat_map step1 ms_rest];
    try done.
  - destruct (char_eq false "/" c) eqn:Hc; [|done].
    apply Ascii.eqb_eq in Hc. cbn in Hc. by subst.
  - by destruct (char_eq false "/" c).
Qed.

Lemma strip_slash_suffix (u : chars) : strip_slash (u ++ ["/"%char]) = u.
Proof.
  induction u as [|c u IH]; [done|].
  cbn [app strip_slash]. rewrite IH. by destruct u.
Qed.

Lemma strip_slash_no_suffix (s : chars) :
  (∀ u, s ≠ u ++ ["/"%char]) → strip_slash s = s.
Proof.
  induction s as [|c s IH]; [done|]. intros Hno. cbn [strip_slash].
  destruct s as [|d s].
  - destruct (Ascii.eqb_spec c "/"%char) as [->|]; [|done]. by destruct (Hno []).
  - rewrite IH; [done|]. intros u Hu. apply (Hno (c :: u)). by rewrite Hu.
Qed.

Lemma replace_trailing_slash (s : string) :
  js_replace s (lit "\/$" "") "" = str (strip_slash (chs s)).
Proof.
  unfold js_replace.
  change (lit "\/$" "") with {| rx := slash_rx; ignoreCase := false; global := false |}.
  cbn [global ignoreCase rx]. change (parse_tpl (chs "")) with (@nil titem). f_equal.
  destruct (ends_or_not ["/"%char] (chs s)) as [[u ->]|Hno].
  - rewrite strip_slash_suffix. apply (replace_first_suffix slash_rx ["/"%char]).
    + apply matches_slash_inv.
    + intros i. by exists [], [].
  - rewrite strip_slash_no_suffix by done.
    apply (replace_first_no_suffix slash_rx ["/"%char]); [|done].
    apply matches_slash_inv.
Qed.

(** ** findMatch *)

Lemma endsWith_spec (s suffix : string) :
  endsWith s suffix = true ↔ ∃ u, s = u +:+ suffix.
Proof.
  induction s as [|c s IH]; cbn [endsWith]; rewrite orb_true_iff.
  - split.
    + intros [H|H]; [|done]. apply String.eqb_eq in H as <-. by exists "".
    + intros [u Hu]. left. apply String.eqb_eq.
      destruct u; [done|]. by rewrite StringFacts.append_cons in Hu.
  - rewrite IH, String.eqb_eq. split.
    + intros [<-|[u ->]]; [by exists "" | by exists (String c u)].
    + intros [[|d u] Hu]; [by left|]. right. exists u.
      rewrite StringFacts.append_cons in Hu. by injection Hu.
Qed.

Lemma strip_slash_cases (p : string) :
  (p = str (strip_slash (chs p)) +:+ "/") ∨ str (strip_slash (chs p)) = p.
Proof.
  destruct (ends_or_not ["/"%char] (chs p)) as [[u Hu]|Hno].
  - left. rewrite Hu, strip_slash_suffix. apply StringFacts.chs_inj.
    by rewrite StringFacts.chs_append, StringFacts.chs_str.
  - right. rewrite strip_slash_no_suffix by done. apply StringFacts.str_chs.
Qed.

Lemma includes_stripped (p : string) : includes p (str (strip_slash (chs p))) = true.
Proof.
  destruct (strip_slash_cases p) as [H|H].
  - rewrite H at 1. apply includes_append_l.
  - rewrite H. apply includes_refl.
Qed.

Lemma with_slash_includes (p : string) :
  includes (if endsWith p "/" then p else p +:+ "/") p = true.
Proof. destruct (endsWith p "/"); [apply includes_refl | apply includes_append_l]. Qed.

(** Every answer of [findMatch] is one of the available URLs, and it
    contains the path asked for or is contained in it. *)
Theorem findMatch_answer (urlPath : string) (availableUrls : list string) (u : string) :
  findMatch urlPath availableUrls = Some u →
  u ∈ availableUrls
  ∧ (includes u urlPath = true ∨ includes urlPath u = true).
Proof.
  unfold findMatch. rewrite replace_trailing_slash.
  destruct (array_includes availableUrls urlPath) eqn:H1.
  { intros [= <-]. split; [by apply array_includes_spec|].
    left. apply includes_refl. }
  destruct (array_includes availableUrls (if endsWith urlPath "/" then _ else _)) eqn:H2.
  { intros [= <-]. split; [by apply array_includes_spec|].
    left. apply with_slash_includes. }
  destruct (array_includes availableUrls (str (strip_slash (chs urlPath)))) eqn:H3.
  { intros [= <-]. split; [by apply array_includes_spec|].
    right. apply includes_stripped. }
  destruct (find _ availableUrls) as [[|c f]|] eqn:Hf; try done.
  intros [= <-]. apply find_some in Hf as [Hin Hor].
  split; [by apply list_elem_of_In|]. by apply orb_true_iff in Hor.
Qed.

(** The order of the attempts: the path itself, then the path with a
    slash appended, then the path with its trailing slash removed. *)
Theorem findMatch_priorities (urlPath : string) (availableUrls : list string) :
  (urlPath ∈ availableUrls → findMatch urlPath availableUrls = Some urlPath)
  ∧ (urlPath ∉ availableUrls → endsWith urlPath "/" = false →
     urlPath +:+ "/" ∈ availableUrls →
     findMatch urlPath availableUrls = Some (urlPath +:+ "/"))
  ∧ (∀ q, urlPath = q +:+ "/" → urlPath ∉ availableUrls → q ∈ availableUrls →
     findMatch urlPath availableUrls = Some q).
Proof.
  unfold findMatch. rewrite replace_trailing_slash. split_and!.
  - intros Hin. apply array_includes_spec in Hin. by rewrite Hin.
  - intros Hnot Hends Hin. apply array_includes_false in Hnot.
    apply array_includes_spec in Hin. by rewrite Hnot, Hends, Hin.
  - intros q -> Hnot Hin. pose proof Hnot as Hnot'.
    apply array_includes_false in Hnot. rewrite Hnot.
    assert (endsWith (q +:+ "/") "/" = true) as -> by (apply endsWith_spec; by exists q).
    rewrite Hnot.
    assert (str (strip_slash (chs (q +:+ "/"))) = q) as ->.
    { rewrite StringFacts.chs_append. change (chs "/") with ["/"%char].
      rewrite strip_slash_suffix. apply StringFacts.str_chs. }
    apply array_includes_spec in Hin. by rewrite Hin.
Qed.

(** When the empty string is not among the available URLs, the answer
    is absent exactly when no available URL contains the path or is
    contained in it. *)
Theorem findMatch_none (urlPath : string) (availableUrls : list string) :
  "" ∉ availableUrls →
  findMatch urlPath availableUrls = None
  ↔ ∀ u, u ∈ availableUrls → includes u urlPath = false ∧ includes urlPath u = false.
Proof.
  intros Hempty. split.
  - unfold findMatch.
    destruct (array_includes availableUrls urlPath); [done|].
    destruct (array_includes availableUrls (if endsWith urlPath "/" then _ else _)); [done|].
    destruct (array_includes availableUrls (js_replace _ _ _)); [done|].
    destruct (find _ availableUrls) as [[|c f]|] eqn:Hf; try done.
    + apply find_some in Hf as [Hin _]. by apply list_elem_of_In in Hin.
    + intros _ u Hin. apply list_elem_of_In in Hin.
      pose proof (find_none _ _ Hf u Hin) as H. by apply orb_false_iff in H.
  - intros Hno. unfold findMatch. rewrite replace_trailing_slash.
    assert (Hout : ∀ u, includes u urlPath = true ∨ includes urlPath u = true →
                        array_includes availableUrls u = false).
    { intros u Hor. apply array_includes_false. intros Hin.
      destruct (Hno u Hin) as [H1 H2]. destruct Hor; congruence. }
    rewrite (Hout urlPath) by (left; apply includes_refl).
    rewrite Hout by (left; apply with_slash_includes).
    rewrite Hout by (right; apply includes_stripped).
    destruct (find _ availableUrls) as [f|] eqn:Hf; [|done].
    apply find_some in Hf as [Hin Hor]. apply list_elem_of_In in Hin.
    destruct (Hno f Hin) as [H1 H2]. by rewrite H1, H2 in Hor.
Qed.

(** *** The theorems at concrete lists *)

Lemma findMatch_answer_witness :
  findMatch "/blog" ["/about"; "/blog/"] = Some "/blog/"
  ∧ "/blog/" ∈ ["/about"; "/blog/"]
  ∧ (includes "/blog/" "/blog" = true ∨ includes "/blog" "/blog/" = true).
Proof.
  assert (H : findMatch "/blog" ["/about"; "/blog/"] = Some "/blog/") by reflexivity.
  split; [exact H|].
  apply (findMatch_answer "/blog" ["/about"; "/blog/"] "/blog/"). exact H.
Defined.

Lemma findMatch_priorities_witness :
  "/docs/" = "/docs" +:+ "/"
  ∧ ("/docs/" ∉ ["/"; "/docs"])
  ∧ "/docs" ∈ ["/"; "/docs"]
  ∧ findMatch "/docs/" ["/"; "/docs"] = Some "/docs".
Proof.
  assert (H1 : "/docs/" ∉ ["/"; "/docs"]) by (by apply array_includes_false).
  assert (H2 : "/docs" ∈ ["/"; "/docs"]) by (by apply array_includes_spec).
  split_and!; [reflexivity | exact H1 | exact H2 |].
  apply (findMatch_priorities "/docs/" ["/"; "/docs"]); [reflexivity | exact H1 | exact H2].
Defined.

Lemma findMatch_none_witness :
  ("" ∉ ["/about"; "/pricing"])
  ∧ (findMatch "/blog" ["/about"; "/pricing"] = None
     ↔ ∀ u, u ∈ ["/about"; "/pricing"] →
            includes u "/blog" = false ∧ includes "/blog" u = false).
Proof.
  assert (H : "" ∉ ["/about"; "/pricing"]) by (by apply array_includes_false).
  split; [exact H|].
  apply (findMatch_none "/blog" ["/about"; "/pricing"]). exact H.
Defined.

(** An empty string among the available URLs is contained in every
    path; when it is the first such URL the answer is absent, whatever
    comes after it. *)
Example findMatch_empty_url_first :
  findMatch "/a" [""; "/a/b"] = None
  ∧ includes "/a/b" "/a" = true
  ∧ findMatch "/a" ["/a/b"; ""] = Some "/a/b".
Proof. vm_compute. done. Qed.

(** ** The trailing [/index] *)

Lemma str_eq_chs (l : chars) (s : string) : String.eqb (str l) s = true ↔ l = chs s.
Proof.
  rewrite String.eqb_eq. split.
  - intros <-. by rewrite StringFacts.chs_str.
  - intros ->. apply StringFacts.str_chs.
Qed.

Lemma strip_index_suffix (u : chars) : strip_index (u ++ chs "/index") = u.
Proof.
  induction u as [|c u IH]; [done|].
  cbn [app strip_index].
  destruct (String.eqb (str (c :: u ++ chs "/index")) "/index") eqn:He.
  - apply str_eq_chs in He. apply (f_equal length) in He.
    cbn [length] in He. rewrite length_app in He. cbn in He. lia.
  - by rewrite IH.
Qed.

Lemma strip_index_no_suffix (s : chars) :
  (∀ u, s ≠ u ++ chs "/index") → strip_index s = s.
Proof.
  induction s as [|c s IH]; intros Hno.
  - done.
  - cbn [strip_index].
    destruct (String.eqb (str (c :: s)) "/index") eqn:He.
    + apply str_eq_chs in He. by destruct (Hno []).
    + rewrite IH; [done|]. intros u Hu. apply (Hno (c :: u)). by rewrite Hu.
Qed.

Lemma matches_index_whole (i : nat) :
  ∃ caps l, matches false index_rx (MState i (chs "/index") [])
            = MState (length (chs "/index") + i) [] caps :: l.
Proof. by exists [], []. Qed.

Lemma replace_index (s : chars) :
  replace_first false index_rx [] s = strip_index s.
Proof.
  destruct (ends_or_not (chs "/index") s) as [[u ->]|Hno].
  - rewrite strip_index_suffix.
    apply (replace_first_suffix index_rx (chs "/index"));
      [apply matches_index_inv | apply matches_index_whole].
  - rewrite strip_index_no_suffix by done.
    apply (replace_first_no_suffix index_rx (chs "/index")); [|done].
    apply matches_index_inv.
Qed.

(** ** The three rewritings of the Next.js and Astro branches *)

Lemma bracket_replaces_colonize (segs : chars) :
  forallb not_open (colonize segs) = true →
  bracket_replaces (str segs) = str (strip_index (colonize segs)).
Proof.
  intros Hopen.
  unfold bracket_replaces. destruct bracket_literals as (-> & -> & ->).
  unfold js_replace. cbn [global ignoreCase rx].
  rewrite !StringFacts.chs_str.
  change (parse_tpl (chs ":$1")) with [TLit [":"%char]; TGroup 1].
  change (parse_tpl (chs "*")) with [TLit ["*"%char]].
  change (parse_tpl (chs "")) with (@nil titem).
  rewrite replace_all_dynamic, replace_catch_all_absent by done.
  by rewrite replace_index.
Qed.

(** ** Tails *)

Lemma script_tail_stops (n : nat) (a2 ext : chars) (j : nat) (caps : list (nat * chars)) :
  a2 ≠ [] →
  matches false (script_tail n) (MState j (a2 ++ "."%char :: ext) caps) = [].
Proof.
  intros Hne. destruct a2 as [|c1 a2]; [done|]. clear Hne.
  run_symbolic; reflexivity.
Qed.

Lemma script_tail_ends (n : nat) (ext : string) (j : nat) (caps : list (nat * chars)) :
  n ≠ 1 →
  ext ∈ ["ts"; "tsx"; "js"; "jsx"] →
  ∃ st l, matches false (script_tail n) (MState j ("."%char :: chs ext) caps) = st :: l
          ∧ assoc 1 (ms_caps st) = assoc 1 caps.
Proof.
  intros Hn Hext. assert (Hb : (1 =? n) = false) by by apply Nat.eqb_neq.
  repeat (apply elem_of_cons in Hext as [->|Hext]);
    [| | | |by apply elem_of_nil in Hext];
    (eexists _, _; split;
       [run_symbolic; reflexivity
       | unfold capture; cbn [ms_caps assoc]; by rewrite Hb]).
Qed.

Lemma appRouter_cont_stops_any (a2 rest : chars) (j : nat) (caps : list (nat * chars)) :
  a2 ≠ [] →
  matches false appRouter_cont (MState j (a2 ++ "/"%char :: rest) caps) = [].
Proof.
  intros Hne. destruct a2 as [|c1 a2]; [done|]. clear Hne.
  run_symbolic; reflexivity.
Qed.

Lemma appRouter_cont_ends (kind ext : string) (j : nat) (caps : list (nat * chars)) :
  kind ∈ ["page"; "layout"; "route"] →
  ext ∈ ["ts"; "tsx"; "js"; "jsx"] →
  ∃ st l, matches false appRouter_cont
            (MState j ("/"%char :: chs kind ++ "."%char :: chs ext) caps) = st :: l
          ∧ assoc 1 (ms_caps st) = assoc 1 caps.
Proof.
  intros Hkind Hext.
  repeat (apply elem_of_cons in Hkind as [->|Hkind]);
    [| | |by apply elem_of_nil in Hkind];
    (repeat (apply elem_of_cons in Hext as [->|Hext]);
     [| | | |by apply elem_of_nil in Hext]);
    (eexists _, _; split; [run_symbolic; reflexivity | reflexivity]).
Qed.

Lemma astro_tail_stops (a2 : chars) (j : nat) (caps : list (nat * chars)) :
  a2 ≠ [] →
  matches false astro_tail (MState j (a2 ++ chs ".astro") caps) = [].
Proof.
  intros Hne. destruct a2 as [|c1 a2]; [done|]. clear Hne. unfold astro_tail.
  run_symbolic; reflexivity.
Qed.

Lemma astro_tail_ends (j : nat) (caps : list (nat * chars)) :
  ∃ st l, matches false astro_tail (MState j (chs ".astro") caps) = st :: l
          ∧ assoc 1 (ms_caps st) = assoc 1 caps.
Proof. eexists _, _. split; [unfold astro_tail; run_symbolic|]; reflexivity. Qed.

(** ** The patterns of the matchers *)

Lemma includes_inside (u l t : chars) : includes (str (u ++ l ++ t)) (str l) = true.
Proof.
  induction u as [|c u IH].
  - cbn [app]. rewrite StringFacts.str_app. apply includes_append_l.
  - apply (includes_tail _ _ c) in IH. exact IH.
Qed.

Lemma js_match_needs_literal (R : RegExp) (lits : chars) (r : regex) (s : string) :
  rx R = lits_then lits r → ignoreCase R = false →
  includes s (str lits) = false → js_match s R = None.
Proof.
  intros HR Hic Hno. unfold js_match, exec. rewrite HR, Hic.
  apply exec_at_nowhere. intros u t i Hs.
  destruct (matches false (lits_then lits r) (MState i t [])) as [|st l] eqn:Hm; [done|].
  destruct (matches_lits_inv lits r t i []) as [t' ->]; [by rewrite Hm|].
  pose proof (includes_inside u lits t') as Hin.
  rewrite <- Hs, StringFacts.str_chs in Hin. congruence.
Qed.

Lemma js_match_lazy_group (R : RegExp) (lits : chars) (tail : regex) (tl segs : chars) :
  rx R = lits_then lits (Seq (Group 1 (Plus Lazy Dot)) tail) → ignoreCase R = false →
  (∀ a2 j caps, a2 ≠ [] → matches false tail (MState j (a2 ++ tl) caps) = []) →
  (∀ j caps, ∃ st l, matches false tail (MState j tl caps) = st :: l
                     ∧ assoc 1 (ms_caps st) = assoc 1 caps) →
  segs ≠ [] → forallb not_terminator segs = true →
  ∃ m, js_match (str (lits ++ segs ++ tl)) R = Some m ∧ grp m 1 = str segs.
Proof.
  intros HR Hic Hstops Hends Hne Hnt.
  unfold js_match, exec. rewrite HR, Hic, StringFacts.chs_str.
  rewrite exec_at_unfold, matches_lits.
  destruct (lazy_group tail tl Hstops Hends segs (length lits + 0) Hne Hnt)
    as (st & l & -> & Hcap).
  eexists. split; [done|]. unfold grp, group. cbn [m_end]. by rewrite Hcap.
Qed.

Lemma pattern_literals :
  rx appRouterRe
  = lits_then (chs "/app/") (Seq (Group 1 (Plus Lazy Dot)) appRouter_cont)
  ∧ rx pagesRouterRe
    = lits_then (chs "/pages/") (Seq (Group 1 (Plus Lazy Dot)) (script_tail 2))
  ∧ rx remixRe
    = lits_then (chs "/routes/") (Seq (Group 1 (Plus Lazy Dot)) (script_tail 2))
  ∧ rx astroRe
    = lits_then (chs "/src/pages/") (Seq (Group 1 (Plus Lazy Dot)) astro_tail).
Proof. done. Qed.

Lemma chs_nonempty (s : string) : s ≠ "" → chs s ≠ [].
Proof. intros Hne H. apply Hne. by rewrite <- (StringFacts.str_chs s), H. Qed.

Lemma includes_pages_prefix (rest : string) : includes ("/pages/" +:+ rest) "/pages/" = true.
Proof. apply includes_append_l. Qed.

Lemma includes_routes_prefix (rest : string) :
  includes ("/routes/" +:+ rest) "/routes/" = true.
Proof. apply includes_append_l. Qed.

(** ** What every result looks like *)

(** Every result of [resolve] has a path that starts with a slash,
    so the fallback [path || '/'] of the framework matchers never
    applies; the confidence is low for the generic matcher and high
    for the others, never medium; and the reasoning is one of five
    fixed texts. *)
Theorem resolve_result_shape (filePath : string) (framework : option string)
    (r : ResolvedURL) :
  resolve filePath framework = Some r →
  (∃ rest, urlPath r = String "/" rest)
  ∧ confidence r = (if String.eqb (reasoning r) "Generic path extraction"
                    then low else high)
  ∧ reasoning r ∈ ["Next.js App Router pattern"; "Next.js Pages Router pattern";
                   "Astro pages pattern"; "Remix routes pattern";
                   "Generic path extraction"].
Proof.
  unfold resolve.
  destruct (String.eqb _ "nextjs"); [|destruct (String.eqb _ "astro");
    [|destruct (String.eqb _ "remix")]].
  - unfold resolveNextJS.
    destruct (js_match filePath _) as [m|];
      [|destruct (js_match filePath _) as [m|]; [|done]];
      intros [= <-]; cbn [urlPath confidence reasoning];
      (split_and!; [by eexists | done | set_solver]).
  - unfold resolveAstro. destruct (js_match filePath _) as [m|]; [|done].
    intros [= <-]; cbn [urlPath confidence reasoning].
    split_and!; [by eexists | done | set_solver].
  - unfold resolveRemix. destruct (js_match filePath _) as [m|]; [|done].
    intros [= <-]; cbn [urlPath confidence reasoning].
    split_and!; [by eexists | done | set_solver].
  - unfold resolveGeneric. destruct (js_match filePath _) as [m|]; [|done].
    intros [= <-]; cbn [urlPath confidence reasoning].
    split_and!; [by eexists | done | set_solver].
Qed.

(** ** Next.js and Astro pages *)

Lemma nextjs_framework (filePath : string) (framework : option string) :
  framework = None ∨ framework = Some "nextjs" →
  includes filePath "/app/" || includes filePath "/pages/" = true →
  resolve filePath framework = resolveNextJS filePath.
Proof.
  intros [-> | ->] Hin; unfold resolve; [|done].
  unfold detectFramework. by rewrite Hin.
Qed.

(** An App Router file [/app/<segments>/<page|layout|route>.<ext>]
    resolves to a slash followed by the segments in which every
    [[name]] has become [:name] and from which a trailing [/index] is
    cut, provided the rewriting leaves no opening bracket.  The whole
    text between [/app/] and the file name is taken, whatever it
    holds. *)
Theorem resolve_app_router (segs kind ext : string) (framework : option string) :
  framework = None ∨ framework = Some "nextjs" →
  kind ∈ ["page"; "layout"; "route"] →
  ext ∈ ["ts"; "tsx"; "js"; "jsx"] →
  segs ≠ "" →
  forallb not_terminator (chs segs) = true →
  forallb not_open (colonize (chs segs)) = true →
  resolve ("/app/" +:+ segs +:+ "/" +:+ kind +:+ "." +:+ ext) framework
  = Some {| urlPath := "/" +:+ str (strip_index (colonize (chs segs)));
            confidence := high;
            reasoning := "Next.js App Router pattern" |}.
Proof.
  intros Hfw Hkind Hext Hne Hnt Hopen.
  rewrite nextjs_framework; [|done|by rewrite includes_app_prefix].
  destruct pattern_literals as (Happ & _).
  destruct (js_match_lazy_group appRouterRe (chs "/app/") appRouter_cont
              ("/"%char :: chs kind ++ "."%char :: chs ext) (chs segs) Happ eq_refl)
    as (m & Hm & Hg).
  { intros a2 j caps. apply appRouter_cont_stops_any. }
  { intros j caps. by apply appRouter_cont_ends. }
  { by apply chs_nonempty. }
  { done. }
  assert (Hpath : "/app/" +:+ segs +:+ "/" +:+ kind +:+ "." +:+ ext
                  = str (chs "/app/" ++ chs segs
                         ++ "/"%char :: chs kind ++ "."%char :: chs ext)).
  { apply StringFacts.chs_inj. by rewrite StringFacts.chs_str, !StringFacts.chs_append. }
  rewrite Hpath. unfold resolveNextJS. fold appRouterRe. rewrite Hm, Hg.
  by rewrite bracket_replaces_colonize.
Qed.

(** A Pages Router file [/pages/<segments>.<ext>] that does not hold
    [/app/] resolves the same way, from the text between [/pages/] and
    the final extension. *)
Theorem resolve_pages_router (segs ext : string) (framework : option string) :
  framework = None ∨ framework = Some "nextjs" →
  ext ∈ ["ts"; "tsx"; "js"; "jsx"] →
  segs ≠ "" →
  forallb not_terminator (chs segs) = true →
  forallb not_open (colonize (chs segs)) = true →
  includes ("/pages/" +:+ segs +:+ "." +:+ ext) "/app/" = false →
  resolve ("/pages/" +:+ segs +:+ "." +:+ ext) framework
  = Some {| urlPath := "/" +:+ str (strip_index (colonize (chs segs)));
            confidence := high;
            reasoning := "Next.js Pages Router pattern" |}.
Proof.
  intros Hfw Hext Hne Hnt Hopen Hnoapp.
  rewrite nextjs_framework; [|done|by rewrite includes_pages_prefix, orb_true_r].
  destruct pattern_literals as (Happ & Hpages & _).
  unfold resolveNextJS. fold appRouterRe. fold pagesRouterRe.
  rewrite (js_match_needs_literal appRouterRe (chs "/app/") _ _ Happ eq_refl Hnoapp).
  destruct (js_match_lazy_group pagesRouterRe (chs "/pages/") (script_tail 2)
              ("."%char :: chs ext) (chs segs) Hpages eq_refl)
    as (m & Hm & Hg).
  { intros a2 j caps. apply script_tail_stops. }
  { intros j caps. by apply script_tail_ends. }
  { by apply chs_nonempty. }
  { done. }
  assert (Hpath : "/pages/" +:+ segs +:+ "." +:+ ext
                  = str (chs "/pages/" ++ chs segs ++ "."%char :: chs ext)).
  { apply StringFacts.chs_inj. by rewrite StringFacts.chs_str, !StringFacts.chs_append. }
  rewrite Hpath, Hm, Hg.
  by rewrite bracket_replaces_colonize.
Qed.

(** With the framework named by the caller, an Astro page
    [/src/pages/<segments>.astro] resolves the same way. *)
Theorem resolve_astro_with_hint (segs : string) :
  segs ≠ "" →
  forallb not_terminator (chs segs) = true →
  forallb not_open (colonize (chs segs)) = true →
  resolve ("/src/pages/" +:+ segs +:+ ".astro") (Some "astro")
  = Some {| urlPath := "/" +:+ str (strip_index (colonize (chs segs)));
            confidence := high;
            reasoning := "Astro pages pattern" |}.
Proof.
  intros Hne Hnt Hopen.
  destruct pattern_literals as (_ & _ & _ & Hastro).
  destruct (js_match_lazy_group astroRe (chs "/src/pages/") astro_tail
              (chs ".astro") (chs segs) Hastro eq_refl)
    as (m & Hm & Hg).
  { intros a2 j caps. apply astro_tail_stops. }
  { apply astro_tail_ends. }
  { by apply chs_nonempty. }
  { done. }
  assert (Hpath : "/src/pages/" +:+ segs +:+ ".astro"
                  = str (chs "/src/pages/" ++ chs segs ++ chs ".astro")).
  { apply StringFacts.chs_inj. by rewrite StringFacts.chs_str, !StringFacts.chs_append. }
  unfold resolve. cbn [String.eqb Ascii.eqb Bool.eqb].
  unfold resolveAstro. fold astroRe. rewrite Hpath, Hm, Hg.
  by rewrite bracket_replaces_colonize.
Qed.

(** ** Remix routes *)

Lemma remix_replaces (segs : chars) :
  js_replace
    (js_replace (js_replace (str segs) (lit "\$" "g") ":") (lit "\." "g") "/")
    (lit "\/index$" "") ""
  = str (strip_index (map remix_char segs)).
Proof.
  change (lit "\$" "g") with {| rx := Chr "$"; ignoreCase := false; global := true |}.
  change (lit "\." "g") with {| rx := Chr "."; ignoreCase := false; global := true |}.
  destruct bracket_literals as (_ & _ & ->).
  unfold js_replace. cbn [global ignoreCase rx].
  rewrite !StringFacts.chs_str.
  change (parse_tpl (chs ":")) with [TLit [":"%char]].
  change (parse_tpl (chs "/")) with [TLit ["/"%char]].
  change (parse_tpl (chs "")) with (@nil titem).
  rewrite !replace_all_char, replace_index, map_map. do 2 f_equal.
  apply map_ext. intros c. unfold remix_char.
  destruct (Ascii.eqb_spec c "$"%char) as [->|]; [done|]. done.
Qed.

(** With the framework given as [remix], or absent on a path that
    holds neither [/app/] nor [/pages/], a Remix route
    [/routes/<name>.<ext>] whose extension is one of [ts], [tsx], [js],
    [jsx] and whose name is not empty and holds no line terminator
    resolves to a slash followed by the name in which every [$] has
    become [:] and every [.] a slash, a trailing [/index] of the
    outcome being cut.  (With an empty name the pattern does not
    match and the result is absent.) *)
Theorem resolve_remix_route (segs ext : string) (framework : option string) :
  framework = Some "remix"
  ∨ framework = None
    ∧ includes ("/routes/" +:+ segs +:+ "." +:+ ext) "/app/" = false
    ∧ includes ("/routes/" +:+ segs +:+ "." +:+ ext) "/pages/" = false →
  ext ∈ ["ts"; "tsx"; "js"; "jsx"] →
  segs ≠ "" →
  forallb not_terminator (chs segs) = true →
  resolve ("/routes/" +:+ segs +:+ "." +:+ ext) framework
  = Some {| urlPath := "/" +:+ str (strip_index (map remix_char (chs segs)));
            confidence := high;
            reasoning := "Remix routes pattern" |}.
Proof.
  intros Hfw Hext Hne Hnt.
  assert (resolve ("/routes/" +:+ segs +:+ "." +:+ ext) framework
          = resolveRemix ("/routes/" +:+ segs +:+ "." +:+ ext)) as ->.
  { unfold resolve. destruct Hfw as [-> | (-> & Happ & Hpages)]; [done|].
    unfold detectFramework. rewrite Happ, Hpages. cbn [orb].
    destruct (includes _ "/src/pages/") eqn:Hsrc.
    { apply includes_src_pages in Hsrc. congruence. }
    by rewrite includes_routes_prefix. }
  destruct pattern_literals as (_ & _ & Hremix & _).
  destruct (js_match_lazy_group remixRe (chs "/routes/") (script_tail 2)
              ("."%char :: chs ext) (chs segs) Hremix eq_refl)
    as (m & Hm & Hg).
  { intros a2 j caps. apply script_tail_stops. }
  { intros j caps. by apply script_tail_ends. }
  { by apply chs_nonempty. }
  { done. }
  assert (Hpath : "/routes/" +:+ segs +:+ "." +:+ ext
                  = str (chs "/routes/" ++ chs segs ++ "."%char :: chs ext)).
  { apply StringFacts.chs_inj. by rewrite StringFacts.chs_str, !StringFacts.chs_append. }
  unfold resolveRemix. fold remixRe. rewrite Hpath, Hm, Hg.
  by rewrite remix_replaces.
Qed.

(** ** Optional catch-all segments *)

Lemma colonize_plain (s : chars) : forallb not_open s = true → colonize s = s.
Proof.
  induction s as [|c s IH]; [done|]. cbn [forallb colonize].
  rewrite not_open_spec. intros [Hc Hs]%andb_true_iff.
  apply negb_true_iff in Hc. rewrite Hc. cbn [andb]. by rewrite IH.
Qed.

Lemma colonize_app_plain (pre t : chars) :
  forallb not_open pre = true → colonize (pre ++ t) = pre ++ colonize t.
Proof.
  induction pre as [|c pre IH]; [done|]. cbn [forallb colonize app].
  rewrite not_open_spec. intros [Hc Hs]%andb_true_iff.
  apply negb_true_iff in Hc. rewrite Hc. cbn [andb]. by rewrite IH.
Qed.

Lemma colonize_bracket (body t : chars) :
  body ≠ [] → forallb not_close body = true →
  colonize ("["%char :: body ++ "]"%char :: t) = ":"%char :: body ++ colonize t.
Proof.
  intros Hne Hbody. cbn [colonize]. rewrite Ascii.eqb_refl. cbn [andb].
  unfold opens. rewrite colon_in_run.
  destruct (take_while_stop not_close body "]" t Hbody eq_refl) as [-> ->].
  by destruct body.
Qed.

Lemma matches_catch_all_segment (i : nat) (name t : chars) :
  name ≠ [] → forallb not_close name = true →
  matches false catch_all_rx (MState i (chs "[..." ++ name ++ "]"%char :: t) [])
  = [MState (S (length name + (4 + i))) t [(1, name)]].
Proof.
  intros Hne Hname. unfold catch_all_rx. cbn [chs String.list_ascii_of_string app].
  do 4 (rewrite matches_Seq, matches_Chr, step1_cons; case_char_eq;
        cbn [flat_map]; rewrite app_nil_r).
  rewrite matches_Seq, matches_Group, flat_map_map.
  rewrite (flat_map_plus_run false true [("]", "]")]%char
             (λ x, matches false (Chr "]")
                     (capture 1 (MState (4 + i) (name ++ "]"%char :: t) []) x))).
  2:{ intros j c t' caps Hc. rewrite class_not_close in Hc.
      unfold capture. cbn [ms_idx ms_rest ms_caps].
      rewrite matches_Chr, step1_cons, close_eq.
      unfold not_close in Hc. by apply negb_true_iff in Hc as ->. }
  rewrite (take_while_ext _ not_close), (drop_while_ext _ not_close)
    by apply class_not_close.
  destruct (take_while_stop not_close name "]" t Hname eq_refl) as [-> ->].
  destruct name as [|b name]; [done|].
  unfold capture. cbn [ms_idx ms_rest ms_caps].
  rewrite matches_Chr, step1_cons. case_char_eq.
  rewrite sub_add_l, take_app_length. done.
Qed.

Lemma replace_catch_all_segment (pre name : chars) :
  forallb not_open pre = true → name ≠ [] → forallb not_close name = true →
  replace_all false catch_all_rx [TLit ["*"%char]]
    (pre ++ chs "[..." ++ name ++ ["]"%char])
  = pre ++ ["*"%char].
Proof.
  intros Hpre Hne Hname. unfold replace_all.
  cbn [replace_from]. unfold catch_all_rx at 1. rewrite exec_at_skip by done.
  fold catch_all_rx. rewrite exec_at_unfold, matches_catch_all_segment by done.
  cbn [m_index m_end ms_idx ms_rest].
  destruct (Nat.eqb_spec (S (length name + (4 + (length pre + 0)))) (length pre + 0));
    [lia|].
  rewrite Nat.add_0_r, Nat.sub_0_r, take_app_length.
  rewrite replace_from_none by reflexivity.
  unfold expand. cbn. done.
Qed.

Lemma star_no_index (pre u : chars) : pre ++ ["*"%char] ≠ u ++ chs "/index".
Proof.
  intros Heq. apply (f_equal (@rev ascii)) in Heq.
  rewrite !rev_app_distr in Heq. cbn in Heq. congruence.
Qed.

Lemma bracket_replaces_optional_catch_all (pre name : chars) :
  forallb plain_prefix pre = true → name ≠ [] → forallb plain_name name = true →
  bracket_replaces (str (pre ++ chs "[[..." ++ name ++ chs "]]"))
  = str (pre ++ chs ":*").
Proof.
  intros Hpre Hne Hname.
  assert (Hpre_open : forallb not_open pre = true).
  { eapply forallb_weaken; [|exact Hpre]. intros c. rewrite not_open_spec.
    unfold plain_prefix. by intros [? _]%andb_true_iff. }
  assert (Hname_open : forallb not_open name = true).
  { eapply forallb_weaken; [|exact Hname]. intros c. rewrite not_open_spec.
    unfold plain_name. by intros [[[? _]%andb_true_iff _]%andb_true_iff _]%andb_true_iff. }
  assert (Hname_close : forallb not_close name = true).
  { eapply forallb_weaken; [|exact Hname]. intros c.
    unfold plain_name, not_close.
    by intros [[[_ ?]%andb_true_iff _]%andb_true_iff _]%andb_true_iff. }
  unfold bracket_replaces. destruct bracket_literals as (-> & -> & ->).
  unfold js_replace. cbn [global ignoreCase rx].
  rewrite !StringFacts.chs_str.
  change (parse_tpl (chs ":$1")) with [TLit [":"%char]; TGroup 1].
  change (parse_tpl (chs "*")) with [TLit ["*"%char]].
  change (parse_tpl (chs "")) with (@nil titem).
  rewrite replace_all_dynamic, colonize_app_plain by done.
  change (chs "[[..." ++ name ++ chs "]]")
    with ("["%char :: (chs "[..." ++ name) ++ "]"%char :: ["]"%char]).
  rewrite colonize_bracket; [|done|].
  2:{ rewrite forallb_app. by rewrite Hname_close. }
  change (colonize ["]"%char]) with ["]"%char].
  replace (pre ++ ":"%char :: (chs "[..." ++ name) ++ ["]"%char])
    with ((pre ++ [":"%char]) ++ chs "[..." ++ name ++ ["]"%char])
    by (rewrite <- !app_assoc; done).
  rewrite replace_catch_all_segment; [|by rewrite forallb_app, Hpre_open|done|done].
  rewrite replace_index, strip_index_no_suffix.
  - by rewrite <- app_assoc.
  - intros u. apply star_no_index.
Qed.

(** The catch-all rewriting does apply to an optional catch-all
    segment.  With the framework absent or [nextjs], a file
    [/app/<pre>[[...name]]/<page|layout|route>.<ts|tsx|js|jsx>] whose
    prefix holds no opening bracket and no line terminator and whose
    name is not empty and holds no bracket, slash or line terminator
    resolves to [/<pre>:*]: the first rewriting turns [[[...name]]]
    into [:[...name]], whose bracket the second turns into a star.
    (With an empty name nothing is rewritten into a star.) *)
Theorem resolve_optional_catch_all (pre name kind ext : string)
    (framework : option string) :
  framework = None ∨ framework = Some "nextjs" →
  kind ∈ ["page"; "layout"; "route"] →
  ext ∈ ["ts"; "tsx"; "js"; "jsx"] →
  forallb plain_prefix (chs pre) = true →
  name ≠ "" →
  forallb plain_name (chs name) = true →
  resolve ("/app/" +:+ pre +:+ "[[..." +:+ name +:+ "]]"
           +:+ "/" +:+ kind +:+ "." +:+ ext) framework
  = Some {| urlPath := "/" +:+ pre +:+ ":*";
            confidence := high;
            reasoning := "Next.js App Router pattern" |}.
Proof.
  intros Hfw Hkind Hext Hpre Hne Hname.
  rewrite nextjs_framework; [|done|by rewrite includes_app_prefix].
  destruct pattern_literals as (Happ & _).
  destruct (js_match_lazy_group appRouterRe (chs "/app/") appRouter_cont
              ("/"%char :: chs kind ++ "."%char :: chs ext)
              (chs pre ++ chs "[[..." ++ chs name ++ chs "]]") Happ eq_refl)
    as (m & Hm & Hg).
  { intros a2 j caps. apply appRouter_cont_stops_any. }
  { intros j caps. by apply appRouter_cont_ends. }
  { by destruct (chs pre). }
  { rewrite !forallb_app. rewrite andb_true_iff. split.
    - eapply forallb_weaken; [|exact Hpre]. unfold plain_prefix, not_terminator.
      by intros c [_ ?]%andb_true_iff.
    - rewrite andb_true_iff. split; [done|]. rewrite andb_true_iff. split; [|done].
      eapply forallb_weaken; [|exact Hname]. unfold plain_name, not_terminator.
      by intros c [_ ?]%andb_true_iff. }
  assert (Hpath : "/app/" +:+ pre +:+ "[[..." +:+ name +:+ "]]"
                  +:+ "/" +:+ kind +:+ "." +:+ ext
                  = str (chs "/app/" ++ (chs pre ++ chs "[[..." ++ chs name ++ chs "]]")
                         ++ "/"%char :: chs kind ++ "."%char :: chs ext)).
  { apply StringFacts.chs_inj.
    rewrite StringFacts.chs_str, !StringFacts.chs_append, <- !app_assoc. done. }
  rewrite Hpath. unfold resolveNextJS. fold appRouterRe. rewrite Hm, Hg.
  rewrite bracket_replaces_optional_catch_all; [|done|by apply chs_nonempty|done].
  rewrite StringFacts.str_app, StringFacts.str_chs. reflexivity.
Qed.

(** ** The theorems at concrete paths *)

Lemma resolve_result_shape_witness :
  resolve "/docs/guide.md" None
    = Some {| urlPath := "/docs/guide"; confidence := low;
              reasoning := "Generic path extraction" |}
  ∧ ∃ rest, "/docs/guide" = String "/" rest.
Proof.
  assert (H : resolve "/docs/guide.md" None
              = Some {| urlPath := "/docs/guide"; confidence := low;
                        reasoning := "Generic path extraction" |})
    by (vm_compute; reflexivity).
  split; [exact H|].
  exact (proj1 (resolve_result_shape "/docs/guide.md" None _ H)).
Defined.

Lemma resolve_app_router_witness :
  "layout" ∈ ["page"; "layout"; "route"]
  ∧ "jsx" ∈ ["ts"; "tsx"; "js"; "jsx"]
  ∧ forallb not_terminator (chs "[locale]/blog/[slug]/index") = true
  ∧ forallb not_open (colonize (chs "[locale]/blog/[slug]/index")) = true
  ∧ resolve "/app/[locale]/blog/[slug]/index/layout.jsx" None
    = Some {| urlPath := "/:locale/blog/:slug"; confidence := high;
              reasoning := "Next.js App Router pattern" |}.
Proof.
  assert (H1 : "layout" ∈ ["page"; "layout"; "route"]) by (by repeat constructor).
  assert (H2 : "jsx" ∈ ["ts"; "tsx"; "js"; "jsx"]) by (by repeat constructor).
  split_and!; [exact H1 | exact H2 | reflexivity | reflexivity |].
  apply (resolve_app_router "[locale]/blog/[slug]/index" "layout" "jsx" None);
    [by left | exact H1 | exact H2 | discriminate | reflexivity | reflexivity].
Defined.

Lemma resolve_pages_router_witness :
  "tsx" ∈ ["ts"; "tsx"; "js"; "jsx"]
  ∧ forallb not_open (colonize (chs "blog/[slug]")) = true
  ∧ includes "/pages/blog/[slug].tsx" "/app/" = false
  ∧ resolve "/pages/blog/[slug].tsx" None
    = Some {| urlPath := "/blog/:slug"; confidence := high;
              reasoning := "Next.js Pages Router pattern" |}.
Proof.
  assert (H : "tsx" ∈ ["ts"; "tsx"; "js"; "jsx"]) by (by repeat constructor).
  split_and!; [exact H | reflexivity | reflexivity |].
  apply (resolve_pages_router "blog/[slug]" "tsx" None);
    [by left | exact H | discriminate | reflexivity | reflexivity | reflexivity].
Defined.

Lemma resolve_astro_with_hint_witness :
  "docs/[id]/index" ≠ ""
  ∧ forallb not_open (colonize (chs "docs/[id]/index")) = true
  ∧ resolve "/src/pages/docs/[id]/index.astro" (Some "astro")
    = Some {| urlPath := "/docs/:id"; confidence := high;
              reasoning := "Astro pages pattern" |}.
Proof.
  split_and!; [discriminate | reflexivity |].
  apply (resolve_astro_with_hint "docs/[id]/index");
    [discriminate | reflexivity | reflexivity].
Defined.

Lemma resolve_remix_route_witness :
  includes "/routes/blog.$slug.index.tsx" "/app/" = false
  ∧ includes "/routes/blog.$slug.index.tsx" "/pages/" = false
  ∧ "tsx" ∈ ["ts"; "tsx"; "js"; "jsx"]
  ∧ resolve "/routes/blog.$slug.index.tsx" None
    = Some {| urlPath := "/blog/:slug"; confidence := high;
              reasoning := "Remix routes pattern" |}.
Proof.
  assert (H : "tsx" ∈ ["ts"; "tsx"; "js"; "jsx"]) by (by repeat constructor).
  split_and!; [reflexivity | reflexivity | exact H |].
  apply (resolve_remix_route "blog.$slug.index" "tsx" None);
    [right; split_and!; reflexivity | exact H | discriminate | reflexivity].
Defined.

Lemma resolve_optional_catch_all_witness :
  forallb plain_prefix (chs "shop/") = true
  ∧ forallb plain_name (chs "slug") = true
  ∧ resolve "/app/shop/[[...slug]]/page.tsx" None
    = Some {| urlPath := "/shop/:*"; confidence := high;
              reasoning := "Next.js App Router pattern" |}.
Proof.
  split_and!; [reflexivity | reflexivity |].
  apply (resolve_optional_catch_all "shop/" "slug" "page" "tsx" None);
    [by left | by repeat constructor | by repeat constructor
    | reflexivity | discriminate | reflexivity].
Defined.

(** The names of the two theorems above must not be empty: an empty
    Remix name is not matched, and an empty optional catch-all is
    left to the first rewriting alone. *)
Example resolve_empty_names :
  resolve "/routes/.tsx" (Some "remix") = None
  ∧ (urlPath <$> resolve "/app/[[...]]/page.tsx" None) = Some "/:[...]".
Proof. vm_compute. done. Qed.

(** The trailing [/index] is looked for in the segments before the
    slash is put in front, so a top-level index file keeps its name;
    and the App Router pattern, which is not anchored, also takes a
    Pages Router file that lies under a directory named [app]. *)
Example resolve_index_and_nested_app :
  (urlPath <$> resolve "/pages/index.tsx" None) = Some "/index"
  ∧ (urlPath <$> resolve "/pages/blog/index.tsx" None) = Some "/blog"
  ∧ (urlPath <$> resolve "/routes/index.tsx" None) = Some "/index"
  ∧ (urlPath <$> resolve "/pages/app/settings/page.tsx" None) = Some "/settings".
Proof. vm_compute. done. Qed.

End URLResolverMore.

(** * More properties of the cache *)
Module CacheMore.
Import Regex Cache CacheFacts.
Local Open Scope Z_scope.

Section More.
Context {V E : Type}.
Implicit Types (c : Cache V) (key k : string) (v : jsval V) (now : Z) (ttl : option Z).

(** ** has and get *)

(** [has] and [get] do the same check and the same eviction: they
    leave the same cache; [has] answers true exactly when the key has
    an entry that has not expired, and then [get] returns the stored
    value and changes nothing; when [has] answers false [get] returns
    null.  A read touches no other key and never adds an entry. *)
Theorem has_agrees_with_get now key c :
  (has now key c).2 = (get now key c).2
  ∧ ((has now key c).1 = true
     ↔ ∃ en, store c !! key = Some en ∧ now ≤ expiresAt en)
  ∧ ((has now key c).1 = true →
     ∃ en, store c !! key = Some en ∧ get now key c = (value en, c))
  ∧ ((has now key c).1 = false → get now key c = (JNull, (has now key c).2))
  ∧ (∀ k, k ≠ key → store (get now key c).2 !! k = store c !! k)
  ∧ (∀ k en, store (get now key c).2 !! k = Some en → store c !! k = Some en).
Proof.
  unfold has, get.
  destruct (store c !! key) as [en|] eqn:Hk; simpl.
  - destruct (Z.gtb_spec now (expiresAt en)) as [Hgt|Hle]; simpl.
    + split_and!; try done.
      * split; [done|]. intros (en' & [= <-] & Hle). lia.
      * intros k Hne. by rewrite lookup_delete_ne.
      * intros k en' Hl. apply lookup_delete_Some in Hl. tauto.
    + split_and!; try done.
      * split; [|done]. intros _. by exists en.
      * intros _. by exists en.
  - split_and!; try done.
    split; [done|]. by intros (en & ? & _).
Qed.

(** ** delete and clear *)

(** [delete] reports whether the key had an entry, expired or not;
    after it the key is a miss for [get] and [has], a second [delete]
    reports false, other keys are untouched, and deleting a key that
    was set on a cache without it gives the cache back.  After [clear]
    every key is a miss.  Neither changes the default TTL. *)
Theorem delete_and_clear key c :
  ((delete key c).1 = true ↔ is_Some (store c !! key))
  ∧ (∀ now, get now key (delete key c).2 = (JNull, (delete key c).2)
            ∧ has now key (delete key c).2 = (false, (delete key c).2))
  ∧ delete key (delete key c).2 = (false, (delete key c).2)
  ∧ (∀ k, k ≠ key → store (delete key c).2 !! k = store c !! k)
  ∧ (∀ now v ttl, store c !! key = None →
       delete key (set now key v ttl c) = (true, c))
  ∧ (∀ now k, get now k (clear c) = (JNull, clear c)
              ∧ has now k (clear c) = (false, clear c))
  ∧ defaultTTL (clear c) = defaultTTL c
  ∧ defaultTTL (delete key c).2 = defaultTTL c.
Proof.
  unfold delete, clear; simpl. split_and!; try done.
  - apply bool_decide_eq_true.
  - intros now. split.
    + apply get_absent. simpl. apply lookup_delete_eq.
    + apply has_absent. simpl. apply lookup_delete_eq.
  - rewrite lookup_delete_eq. f_equal.
    unfold with_store; simpl. f_equal. apply delete_id, lookup_delete_eq.
  - intros k Hne. by rewrite lookup_delete_ne.
  - intros now v ttl Hk. unfold set; simpl. rewrite lookup_insert_eq. f_equal.
    unfold with_store; simpl. rewrite delete_insert_eq, delete_id by done.
    by destruct c.
Qed.

(** ** cleanup *)

Lemma cleanup_loop_spec now (entries : list (string * CacheEntry V))
    (m : gmap string (CacheEntry V)) (n : nat) :
  NoDup entries.*1 → (∀ k en, (k, en) ∈ entries → m !! k = Some en) →
  ∃ m' n', cleanup_loop now entries (m, n) = (m', n')
    ∧ ∀ k, m' !! k
           = match m !! k with
             | Some en =>
               if decide (k ∈ entries.*1 ∧ expiresAt en < now) then None else Some en
             | None => None
             end.
Proof.
  revert m n. induction entries as [|[key entry] entries IH]; intros m n Hnd Hin.
  - exists m, n. split; [done|]. intros k. destruct (m !! k) as [en|]; [|done].
    rewrite decide_False; [done|]. intros [H _]. by apply elem_of_nil in H.
  - apply NoDup_cons in Hnd as [Hnotin Hnd]. cbn [cleanup_loop foldl].
    assert (Hkey : m !! key = Some entry) by (apply Hin; left).
    destruct (Z.gtb_spec now (expiresAt entry)) as [Hgt|Hle].
    + destruct (IH (base.delete key m) (S n) Hnd) as (m' & n' & Hloop & Hlook).
      { intros k en Hk. rewrite lookup_delete_ne; [apply Hin; by right|].
        intros <-. apply Hnotin. apply list_elem_of_fmap. by exists (key, en). }
      exists m', n'. split; [exact Hloop|]. intros k. rewrite Hlook.
      destruct (decide (k = key)) as [->|Hne].
      * rewrite lookup_delete_eq, Hkey. rewrite decide_True; [done|].
        split; [left | lia].
      * rewrite lookup_delete_ne by done. destruct (m !! k) as [en|]; [|done].
        apply decide_ext. cbn [fmap list_fmap]. rewrite elem_of_cons. simpl.
        split; [intros [? ?]; auto | intros [[?|?] ?]; done].
    + destruct (IH m n Hnd) as (m' & n' & Hloop & Hlook).
      { intros k en Hk. apply Hin. by right. }
      exists m', n'. split; [exact Hloop|]. intros k. rewrite Hlook.
      destruct (m !! k) as [en|] eqn:Hk; [|done].
      apply decide_ext. cbn [fmap list_fmap]. rewrite elem_of_cons.
      split; [intros [? ?]; auto|]. intros [[->|?] ?]; [|done].
      simpl in *. assert (en = entry) as -> by congruence. lia.
Qed.

Lemma cleanup_lookup now c k :
  store (cleanup now c) !! k
  = match store c !! k with
    | Some en => if decide (expiresAt en < now) then None else Some en
    | None => None
    end.
Proof.
  unfold cleanup.
  destruct (cleanup_loop_spec now (map_to_list (store c)) (store c) 0)
    as (m' & n' & -> & Hlook).
  { apply NoDup_fst_map_to_list. }
  { intros k' en Hin. by apply elem_of_map_to_list. }
  simpl. rewrite Hlook. destruct (store c !! k) as [en|] eqn:Hk; [|done].
  apply decide_ext. split; [by intros [_ ?]|].
  intros ?. split; [|done]. apply list_elem_of_fmap. exists (k, en).
  split; [done|]. by apply elem_of_map_to_list.
Qed.

(** The periodic sweep keeps exactly the entries that have not
    expired at the time it runs ([now <= expiresAt]): those stay as
    they are, all others are gone; the default TTL is kept, and a
    second sweep at the same time changes nothing. *)
Theorem cleanup_removes_expired now c :
  store (cleanup now c) = filter (λ kv, now ≤ expiresAt kv.2) (store c)
  ∧ (∀ k en, store (cleanup now c) !! k = Some en → now ≤ expiresAt en)
  ∧ (∀ k en, store c !! k = Some en → now ≤ expiresAt en →
             store (cleanup now c) !! k = Some en)
  ∧ (∀ k en, store c !! k = Some en → expiresAt en < now →
             store (cleanup now c) !! k = None)
  ∧ defaultTTL (cleanup now c) = defaultTTL c
  ∧ cleanup now (cleanup now c) = cleanup now c.
Proof.
  assert (Hfilter : ∀ c', store (cleanup now c')
                          = filter (λ kv, now ≤ expiresAt kv.2) (store c')).
  { intros c'. apply map_eq. intros k. apply option_eq. intros en.
    rewrite cleanup_lookup, map_lookup_filter_Some. simpl.
    destruct (store c' !! k) as [en'|].
    - case_decide as Hd.
      + split; [done|]. intros [[= ->] Hle]. lia.
      + split; [intros [= ->]; split; [done | lia] | by intros [[= ->] _]].
    - split; [done | by intros [? _]]. }
  assert (Httl : ∀ c', defaultTTL (cleanup now c') = defaultTTL c').
  { intros c'. unfold cleanup. by destruct (cleanup_loop _ _ _). }
  split_and!.
  - apply Hfilter.
  - intros k en. rewrite cleanup_lookup. destruct (store c !! k) as [en'|]; [|done].
    case_decide; [done|]. intros [= ->]. lia.
  - intros k en Hk Hle. rewrite cleanup_lookup, Hk. rewrite decide_False; [done | lia].
  - intros k en Hk Hlt. rewrite cleanup_lookup, Hk. by rewrite decide_True.
  - apply Httl.
  - assert (store (cleanup now (cleanup now c)) = store (cleanup now c)) as Hs.
    { rewrite !Hfilter, map_filter_filter. apply map_filter_ext. intros; tauto. }
    pose proof (Httl (cleanup now c)) as Ht.
    destruct (cleanup now (cleanup now c)), (cleanup now c); simpl in *; congruence.
Qed.

(** A sweep never changes what a read made at the same time or later
    answers, and a read made at the time of the sweep finds nothing
    left to evict. *)
Theorem cleanup_invisible_to_reads now now' key c :
  now ≤ now' →
  (get now' key (cleanup now c)).1 = (get now' key c).1
  ∧ (has now' key (cleanup now c)).1 = (has now' key c).1
  ∧ (get now key (cleanup now c)).2 = cleanup now c
  ∧ (has now key (cleanup now c)).2 = cleanup now c.
Proof.
  intros Hle. unfold get, has. rewrite cleanup_lookup.
  destruct (store c !! key) as [en|] eqn:Hk; [|done].
  case_decide as Hexp.
  - destruct (Z.gtb_spec now' (expiresAt en)); [done | lia].
  - destruct (Z.gtb_spec now (expiresAt en)); [lia|].
    by destruct (Z.gtb_spec now' (expiresAt en)).
Qed.

(** ** getOrSet *)

(** [getOrSet] leaves the factory alone exactly when the key has a
    live entry whose value is not null; it then returns that value and
    the cache is unchanged.  Whenever the factory is called, the call
    ends the way the promise of the factory settles. *)
Theorem getOrSet_calls_factory_iff_miss now now' key
    (factory : completion (jsval V) E) ttl c :
  ((getOrSet now now' key factory ttl c).1.2 = false
   ↔ ∃ en x, store c !! key = Some en ∧ value en = JVal x ∧ now ≤ expiresAt en)
  ∧ (∀ en x, store c !! key = Some en → value en = JVal x → now ≤ expiresAt en →
       getOrSet now now' key factory ttl c = (Normal (JVal x), false, c))
  ∧ ((getOrSet now now' key factory ttl c).1.2 = true →
       (getOrSet now now' key factory ttl c).1.1 = factory).
Proof.
  unfold getOrSet, getOrSet_start, get.
  destruct (store c !! key) as [en|] eqn:Hk.
  - destruct (Z.gtb_spec now (expiresAt en)) as [Hgt|Hle].
    + split_and!.
      * split; [by destruct factory|]. intros (en' & x & [= <-] & _ & Hle). lia.
      * intros en' x [= <-] _ Hle. lia.
      * by destruct factory.
    + destruct (value en) as [|x] eqn:Hv.
      * split_and!.
        -- split; [by destruct factory|]. intros (en' & x & [= <-] & Hx & _). congruence.
        -- intros en' x [= <-] Hx _. congruence.
        -- by destruct factory.
      * split_and!.
        -- split; [|done]. intros _. by exists en, x.
        -- intros en' x' [= <-] Hx _. simpl. congruence.
        -- done.
  - split_and!.
    + split; [by destruct factory|]. by intros (en & x & ? & _).
    + by intros en x ?.
    + by destruct factory.
Qed.

Lemma get_keeps_defaultTTL now key c : defaultTTL (get now key c).2 = defaultTTL c.
Proof.
  unfold get. destruct (store c !! key) as [en|]; [|done].
  by destruct (_ >? _).
Qed.

(** After a call that missed and whose factory fulfilled with a value
    [x] other than null, every call for the key up to the expiry of
    the new entry (the time the promise settled plus the TTL) returns
    [x] without calling its factory and leaves the cache alone.  When
    the factory fulfilled with null, the null is stored but every call
    up to the expiry calls its factory again.  Any call after the
    expiry calls its factory again. *)
Theorem getOrSet_memoizes_until_expiry now now' key v ttl c :
  (getOrSet (E:=E) now now' key (Normal v) ttl c).1.2 = true →
  let c1 := (getOrSet (E:=E) now now' key (Normal v) ttl c).2 in
  let expiry := now' + or_num ttl (defaultTTL c) * 1000 in
  store c1 !! key = Some {| value := v; expiresAt := expiry |}
  ∧ ∀ n n' (factory : completion (jsval V) E) ttl',
      (n ≤ expiry →
         match v with
         | JVal x => getOrSet n n' key factory ttl' c1 = (Normal (JVal x), false, c1)
         | JNull => (getOrSet n n' key factory ttl' c1).1 = (factory, true)
         end)
      ∧ (expiry < n → (getOrSet n n' key factory ttl' c1).1 = (factory, true)).
Proof.
  intros Hmiss c1 expiry.
  assert (Hk : store c1 !! key = Some {| value := v; expiresAt := expiry |}).
  { unfold c1, expiry. rewrite <- (get_keeps_defaultTTL now key c).
    unfold getOrSet, getOrSet_start in *.
    destruct (get now key c) as [[|y] c'] eqn:Hg; simpl in *; [|done].
    unfold set; simpl. apply lookup_insert_eq. }
  split; [exact Hk|].
  clearbody c1. intros n n' factory ttl'. split.
  - intros Hle. unfold getOrSet, getOrSet_start.
    rewrite (get_live _ _ _ _ Hk) by done. cbn [value].
    destruct v as [|x]; [by destruct factory | done].
  - intros Hlt. unfold getOrSet, getOrSet_start.
    rewrite (get_expired _ _ _ _ Hk) by done. by destruct factory.
Qed.

(** ** Callers in flight *)

Lemma resume_keeps now key (r : completion (jsval V) E) ttl c :
  defaultTTL (getOrSet_resume now key r ttl c).2 = defaultTTL c
  ∧ ∀ k, k ≠ key → store (getOrSet_resume now key r ttl c).2 !! k = store c !! k.
Proof.
  destruct r as [v|e]; simpl; [|done]. split; [done|].
  intros k Hne. by rewrite lookup_insert_ne.
Qed.

Lemma run_settlements_prefix key (ss : list (Z * completion (jsval V) E)) :
  ∀ (cs : list (Z * option Z)) (rs : list (completion (jsval V) E)) (c : Cache V) (n i : nat),
  (length ss ≤ length cs)%nat →
  ∃ c', run {| cache := c; callers := (Settled <$> rs) ++ parked i key cs;
               invocations := n |} (settlements i ss)
        = {| cache := c';
             callers := (Settled <$> (rs ++ ss.*2))
                        ++ parked (i + length ss) key (drop (length ss) cs);
             invocations := n |}
        ∧ defaultTTL c' = defaultTTL c
        ∧ ∀ k, k ≠ key → store c' !! k = store c !! k.
Proof.
  induction ss as [|a ss IH]; intros cs rs c n i Hlen.
  - exists c. simpl. by rewrite app_nil_r, Nat.add_0_r.
  - destruct cs as [|b cs]; simpl in Hlen; [lia|].
    unfold run in *. simpl.
    rewrite foldl_app, resume_settled. simpl.
    rewrite Nat.eqb_refl.
    destruct (getOrSet_resume a.1 key a.2 b.2 c) as [res c1] eqn:Hres. simpl.
    rewrite resume_parked_later by lia.
    assert (res = a.2) as -> by (destruct a as [? [?|?]]; simpl in *; congruence).
    destruct (resume_keeps a.1 key a.2 b.2 c) as [Httl Hother].
    rewrite Hres in Httl, Hother. simpl in Httl, Hother.
    destruct (IH cs (rs ++ [a.2]) c1 n (S i)) as (c' & Hrun & Httl' & Hother'); [lia|].
    exists c'. split_and!.
    + rewrite fmap_app in Hrun. simpl in Hrun. rewrite <- !app_assoc in Hrun.
      simpl in Hrun. rewrite <- app_assoc. simpl. rewrite Hrun.
      by rewrite Nat.add_succ_r.
    + congruence.
    + intros k Hne. rewrite Hother' by done. by apply Hother.
Qed.

(** Callers that all missed before any promise settled each write
    their own result: when the promise of the last caller settles
    after the others, a fulfilled value replaces whatever the earlier
    settlements stored, with the expiry counted from that settlement
    and the TTL of that caller; a rejected promise leaves the cache as
    the earlier settlements left it.  No other key changes. *)
Theorem concurrent_callers_last_write_wins key c
    (cs : list (Z * option Z)) (ss : list (Z * completion (jsval V) E))
    (last : Z * option Z) (t : Z) (r : completion (jsval V) E) :
  store c !! key = None →
  length ss = length cs →
  let w1 := run (run (idle c) (arrivals key (cs ++ [last]))) (settlements 0 ss) in
  let w2 := run w1 [Settle t (length cs) r] in
  callers w1 = (Settled <$> ss.*2) ++ [Awaiting (length cs) key last.2]
  ∧ callers w2 = Settled <$> (ss.*2 ++ [r])
  ∧ (∀ k, k ≠ key → store (cache w2) !! k = store c !! k)
  ∧ match r with
    | Normal v =>
      store (cache w2) !! key
      = Some {| value := v; expiresAt := t + or_num last.2 (defaultTTL c) * 1000 |}
    | Throw _ => cache w2 = cache w1
    end.
Proof.
  intros Hk Hlen w1 w2.
  destruct (run_settlements_prefix key ss (cs ++ [last]) [] c (S (length cs)) 0%nat)
    as (c' & Hrun & Httl & Hother).
  { rewrite length_app. lia. }
  assert (Hw1 : w1 = {| cache := c';
                        callers := (Settled <$> ss.*2) ++ [Awaiting (length cs) key last.2];
                        invocations := S (length cs) |}).
  { unfold w1. rewrite run_arrivals by done. simpl.
    rewrite length_app, Nat.add_1_r. simpl in Hrun. rewrite Hrun.
    f_equal. rewrite Hlen, drop_app_length. simpl. done. }
  assert (Hw2 : w2 = {| cache := (getOrSet_resume t key r last.2 c').2;
                        callers := Settled <$> (ss.*2 ++ [r]);
                        invocations := S (length cs) |}).
  { unfold w2. rewrite Hw1. unfold run. simpl.
    rewrite foldl_app, resume_settled. simpl. rewrite Nat.eqb_refl.
    rewrite fmap_app. by destruct r. }
  split_and!.
  - by rewrite Hw1.
  - by rewrite Hw2.
  - intros k Hne. rewrite Hw2. simpl.
    destruct (resume_keeps t key r last.2 c') as [_ H]. rewrite H by done.
    by apply Hother.
  - rewrite Hw2, Hw1. destruct r as [v|e]; simpl; [|done].
    rewrite Httl. apply lookup_insert_eq.
Qed.

End More.

(** ** generateKey *)

Lemma pretty_N_go_nonempty (x : N) (s : string) :
  s ≠ "" → pretty_N_go x s ≠ "".
Proof.
  revert s. induction (N.lt_wf_0 x) as [x _ IH]; intros s Hs.
  assert (x = 0 ∨ 0 < x)%N as [->|Hpos] by lia.
  - by rewrite pretty_N_go_0.
  - rewrite pretty_N_go_step by done. apply IH; [by apply N.div_lt | done].
Qed.

Lemma to_text_nonempty (p : part) : truthy p = true → to_text p ≠ "".
Proof.
  destruct p as [s|n|]; simpl; [| |done].
  - destruct (String.eqb_spec s ""); done.
  - intros _. destruct n as [|q|q]; [done| |done].
    unfold pretty, pretty_Z, pretty, pretty_positive, pretty, pretty_N.
    rewrite decide_False by done.
    rewrite pretty_N_go_step by done. by apply pretty_N_go_nonempty.
Qed.

Lemma joined_cons_nonempty (x : string) (xs : list string) :
  x ≠ "" → joined (x :: xs) ≠ "".
Proof.
  intros Hx. destruct x as [|a x]; [done|].
  destruct xs as [|y xs]; [done|]. cbn [joined].
  by rewrite StringFacts.append_cons.
Qed.

Lemma joined_app (xs ys : list string) :
  xs ≠ [] → ys ≠ [] → joined (xs ++ ys) = joined xs +:+ ":" +:+ joined ys.
Proof.
  intros Hxs Hys. induction xs as [|x xs IH]; [done|].
  destruct xs as [|x' xs].
  - destruct ys as [|y ys]; [done|]. done.
  - change (joined ((x :: x' :: xs) ++ ys))
      with (x +:+ ":" +:+ joined ((x' :: xs) ++ ys)).
    rewrite IH by done. cbn [joined]. by rewrite !StringFacts.append_assoc.
Qed.

(** A key used as the first part of another key gives the key of
    the two lists of parts put together, so keys built in two steps
    and in one step coincide (and a part that holds a colon collides
    with the parts it spells). *)
Theorem generateKey_nested (xs ys : list part) :
  generateKey (PStr (generateKey xs) :: ys) = generateKey (xs ++ ys).
Proof.
  destruct (filter (λ p, Is_true (truthy p)) xs) as [|p ps] eqn:Hxs.
  - assert (generateKey xs = "") as -> by (unfold generateKey; by rewrite Hxs).
    unfold generateKey. rewrite filter_truthy_cons_false by done.
    by rewrite filter_app, Hxs.
  - assert (Hp : truthy p = true).
    { assert (p ∈ filter (λ p, Is_true (truthy p)) xs) as Hin by (rewrite Hxs; left).
      apply list_elem_of_filter in Hin as [Hin _]. by apply Is_true_true. }
    assert (Hne : generateKey xs ≠ "").
    { unfold generateKey. rewrite join_joined, Hxs.
      apply joined_cons_nonempty. by apply to_text_nonempty. }
    assert (Ht : truthy (PStr (generateKey xs)) = true).
    { simpl. by destruct (String.eqb_spec (generateKey xs) ""). }
    unfold generateKey at 1 3. rewrite !join_joined.
    rewrite filter_cons_True by by rewrite Ht.
    rewrite filter_app, fmap_app, Hxs.
    destruct (filter _ ys) as [|q qs] eqn:Hys.
    + rewrite app_nil_r. simpl. unfold generateKey. by rewrite join_joined, Hxs.
    + rewrite joined_app by done.
      unfold generateKey. rewrite join_joined, Hxs. done.
Qed.

(** ** The theorems at concrete caches *)

Lemma has_agrees_with_get_witness :
  (has 1000 "user:1" sample).1 = true
  ∧ ∃ en, store sample !! "user:1" = Some en
          ∧ get 1000 "user:1" sample = (value en, sample).
Proof.
  assert (H : (has 1000 "user:1" sample).1 = true) by reflexivity.
  split; [exact H|].
  apply (has_agrees_with_get 1000 "user:1" sample). exact H.
Defined.

Lemma delete_and_clear_witness :
  store fresh !! "k" = None
  ∧ delete "k" (set 0 "k" (JVal 1%nat) None fresh) = (true, fresh).
Proof.
  split; [reflexivity|].
  apply (delete_and_clear "k" fresh). reflexivity.
Defined.

Lemma cleanup_removes_expired_witness :
  store sample !! "user:1" = Some {| value := JVal 2%nat; expiresAt := 11000 |}
  ∧ 11000 < 20000
  ∧ store (cleanup 20000 sample) !! "user:1" = None.
Proof.
  assert (H : 11000 < 20000) by reflexivity.
  split_and!; [reflexivity | exact H |].
  exact (proj1 (proj2 (proj2 (proj2 (cleanup_removes_expired 20000 sample))))
           "user:1" {| value := JVal 2%nat; expiresAt := 11000 |} eq_refl H).
Defined.

Lemma cleanup_invisible_to_reads_witness :
  20000 ≤ 30000
  ∧ (get 30000 "user:1" (cleanup 20000 sample)).1 = (get 30000 "user:1" sample).1.
Proof.
  assert (H : 20000 ≤ 30000) by (vm_compute; discriminate).
  split; [exact H|].
  apply (cleanup_invisible_to_reads 20000 30000 "user:1" sample). exact H.
Defined.

Lemma getOrSet_calls_factory_iff_miss_witness :
  store sample !! "user:1" = Some {| value := JVal 2%nat; expiresAt := 11000 |}
  ∧ 1000 ≤ 11000
  ∧ getOrSet 1000 1005 "user:1" (Throw "unused") None sample
    = (Normal (JVal 2%nat), false, sample).
Proof.
  assert (H : 1000 ≤ 11000) by (vm_compute; discriminate).
  split_and!; [reflexivity | exact H |].
  exact (proj1 (proj2 (getOrSet_calls_factory_iff_miss 1000 1005 "user:1"
                         (Throw "unused") None sample))
           {| value := JVal 2%nat; expiresAt := 11000 |} 2%nat eq_refl eq_refl H).
Defined.

Lemma getOrSet_memoizes_until_expiry_witness :
  (getOrSet (E:=string) 0 5 "k" (Normal (JVal 7%nat)) (Some 10) fresh).1.2 = true
  ∧ 10005 ≤ 5 + or_num (Some 10) (defaultTTL (V:=nat) fresh) * 1000
  ∧ getOrSet 10005 10006 "k" (Throw "unused") None
      (getOrSet (E:=string) 0 5 "k" (Normal (JVal 7%nat)) (Some 10) fresh).2
    = (Normal (JVal 7%nat), false,
       (getOrSet (E:=string) 0 5 "k" (Normal (JVal 7%nat)) (Some 10) fresh).2).
Proof.
  assert (H1 : (getOrSet (E:=string) 0 5 "k" (Normal (JVal 7%nat)) (Some 10) fresh).1.2
               = true) by reflexivity.
  assert (H2 : 10005 ≤ 5 + or_num (Some 10) (defaultTTL (V:=nat) fresh) * 1000)
    by (vm_compute; discriminate).
  split_and!; [exact H1 | exact H2 |].
  exact (proj1 (proj2 (getOrSet_memoizes_until_expiry 0 5 "k" (JVal 7%nat) (Some 10)
                         fresh H1) 10005 10006 (Throw "unused") None) H2).
Defined.

(** A factory that fulfils with null is called again on the next
    call, well before the entry expires. *)
Example getOrSet_null_is_recomputed :
  (getOrSet (E:=string) 6 7 "k" (Throw "again") None
     (getOrSet (E:=string) 0 5 "k" (Normal (@JNull nat)) (Some 10) fresh).2).1
  = (Throw "again", true).
Proof. reflexivity. Qed.

Lemma concurrent_callers_last_write_wins_witness :
  store fresh !! "k" = None
  ∧ length [(10, Normal (E:=string) (JVal 1%nat))] = length [(0, @None Z)]
  ∧ store (cache (run (run (run (E:=string) (idle fresh)
                              (arrivals "k" ([(0, None)] ++ [(1, Some 5)])))
                         (settlements 0 [(10, Normal (JVal 1%nat))]))
                    [Settle 20 1 (Normal (JVal 2%nat))])) !! "k"
    = Some {| value := JVal 2%nat;
              expiresAt := 20 + or_num (Some 5) (defaultTTL (V:=nat) fresh) * 1000 |}.
Proof.
  split_and!; [reflexivity | reflexivity |].
  exact (proj2 (proj2 (proj2
           (concurrent_callers_last_write_wins "k" fresh [(0, None)]
              [(10, Normal (JVal 1%nat))] (1, Some 5) 20 (Normal (JVal 2%nat))
              eq_refl eq_refl)))).
Defined.

Example generateKey_in_two_steps :
  generateKey [PStr (generateKey [PStr "meta"; PStr "example.com"]); PNum 3]
    = "meta:example.com:3"
  ∧ generateKey [PStr "meta:example.com"; PNum 3]
    = generateKey [PStr "meta"; PStr "example.com"; PNum 3].
Proof. vm_compute. done. Qed.

End CacheMore.

(** * The helpers of generate-meta *)
Module GenerateMetaFacts.
Import Regex GenerateMeta URLResolverFacts URLResolverMore.

(** ** detectMetaIssues *)

Lemma falsy_length (s : option string) : falsy s = true → text_length s = 0.
Proof. by destruct s as [[|c s]|]. Qed.

Lemma utf16_length_ascii (s : string) :
  forallb (λ c, (code c <? 128)%N) (chs s) = true → utf16_length s = String.length s.
Proof.
  induction s as [|c s IH]; [done|]. cbn [chs String.list_ascii_of_string forallb].
  intros [Hc Hs]%andb_true_iff. cbn [utf16_length String.length].
  unfold utf16_units. rewrite Hc. unfold chs in IH. by rewrite IH.
Qed.

(** No issue is reported exactly when the [.length] of the title,
    counted in UTF-16 code units, is 30 to 60 and that of the
    description 120 to 160 (the ranges are wider than the 50-60 and
    150-160 that the messages recommend); at most two issues are
    reported. *)
Theorem detectMetaIssues_accepts (analysis : PageAnalysis) :
  (detectMetaIssues analysis = []
   ↔ 30 ≤ text_length (current_title analysis) ≤ 60
     ∧ 120 ≤ text_length (current_description analysis) ≤ 160)
  ∧ length (detectMetaIssues analysis) ≤ 2.
Proof.
  unfold detectMetaIssues.
  pose proof (falsy_length (current_title analysis)) as Ht.
  pose proof (falsy_length (current_description analysis)) as Hd.
  destruct (falsy (current_title analysis));
    [|destruct (Nat.ltb_spec (text_length (current_title analysis)) 30);
      [|destruct (Nat.ltb_spec 60 (text_length (current_title analysis)))]];
    (destruct (falsy (current_description analysis));
     [|destruct (Nat.ltb_spec (text_length (current_description analysis)) 120);
       [|destruct (Nat.ltb_spec 160 (text_length (current_description analysis)))]]);
    cbn [app length]; (split; [split; try done|lia]); try lia.
  all: try (intros [? ?]; exfalso;
            first [ assert (text_length (current_title analysis) = 0) by (by apply Ht); lia
                  | assert (text_length (current_description analysis) = 0)
                      by (by apply Hd); lia
                  | lia ]).
Qed.

(** ** detectPageType *)

Lemma split_on_length (sep : ascii) (s : chars) :
  length (split_on sep s) = S (length (filter (λ c, c = sep) s)).
Proof.
  unfold chars in *. induction s as [|c s IH]; [done|]. cbn [split_on].
  destruct (Ascii.eqb_spec c sep) as [->|Hne].
  - rewrite filter_cons_True by done. cbn [length]. by rewrite IH.
  - rewrite filter_cons_False by done.
    destruct (split_on sep s) as [|h r]; [done|]. done.
Qed.

Lemma prefix_inv (a b : string) :
  String.prefix a b = true → ∃ t, b = a +:+ t.
Proof.
  revert b. induction a as [|c a IH]; intros b; [by exists b|].
  rewrite prefix_cons. destruct b as [|d b]; [done|].
  intros [Hc Hp]%andb_true_iff. apply Ascii.eqb_eq in Hc as ->.
  apply IH in Hp as [t ->]. by exists t.
Qed.

Lemma includes_inv (s needle : string) :
  includes s needle = true → ∃ u t, s = u +:+ needle +:+ t.
Proof.
  induction s as [|c s IH]; cbn [includes]; intros [Hp|Hi]%orb_true_iff.
  - apply prefix_inv in Hp as [t ->]. by exists "", t.
  - done.
  - apply prefix_inv in Hp as [t ->]. by exists "", t.
  - apply IH in Hi as (u & t & ->). by exists (String c u), t.
Qed.

Lemma blog_post_guard (urlPath : string) :
  includes urlPath "/blog/" = true → (2 <? length (split_on "/" (chs urlPath))) = true.
Proof.
  intros (u & t & ->)%includes_inv. apply Nat.ltb_lt.
  rewrite split_on_length, !StringFacts.chs_append. unfold chars.
  rewrite !filter_app, !length_app.
  change (length (filter (λ c, c = "/"%char) (chs "/blog/"))) with 2. lia.
Qed.

Lemma includes_blog (urlPath : string) :
  String.eqb urlPath "/blog" || includes urlPath "/blog" = includes urlPath "/blog".
Proof.
  destruct (String.eqb_spec urlPath "/blog") as [->|]; [|done].
  by rewrite includes_refl.
Qed.

(** The page type is decided by the path alone, by a chain of
    substring tests: the count of path parts in the blog-post test and
    the comparison with [/blog] in the blog-index test never change
    the outcome. *)
Theorem detectPageType_decides (urlPath : string) (headings : list string)
    (content : string) :
  detectPageType urlPath headings content
  = if String.eqb urlPath "/" || String.eqb urlPath "" then homepage
    else if includes urlPath "/blog/" then blog_post
    else if includes urlPath "/blog" then blog_index
    else if includes urlPath "/product" || includes urlPath "/pricing" then product
    else if includes urlPath "/about" then about
    else other.
Proof.
  unfold detectPageType. rewrite includes_blog.
  destruct (includes urlPath "/blog/") eqn:Hb; [|done].
  by rewrite (blog_post_guard _ Hb).
Qed.

(** The listing page with a trailing slash counts as a post, and a
    title of 30 characters and a description of 120 raise no issue. *)
Example page_type_and_issues :
  detectPageType "/blog/" [] "" = blog_post
  ∧ detectPageType "/blog" [] "" = blog_index
  ∧ detectPageType "/docs/about-us" [] "" = about
  ∧ detectMetaIssues
      {| url := "/"; current_title := Some "A title of thirty characters .";
         current_description :=
           Some ("A description of one hundred and twenty characters, "
                 +:+ "neither too short nor too long for the checks, "
                 +:+ "as counted here_____.");
         main_heading := None; headings := []; word_count := 0;
         content_preview := ""; page_type := homepage; key_topics := [];
         images := [] |} = [].
Proof. vm_compute. done. Qed.

(** The lengths are those of [.length]: a title of 29 accented
    letters, 58 bytes of UTF-8, is too short, and a character outside
    the basic plane counts for two. *)
Example detectMetaIssues_counts_code_units :
  text_length (Some "ééééééééééééééééééééééééééééé") = 29
  ∧ String.length "ééééééééééééééééééééééééééééé" = 58
  ∧ text_length (Some "📊") = 2
  ∧ detectMetaIssues
      {| url := "/"; current_title := Some "ééééééééééééééééééééééééééééé";
         current_description := None;
         main_heading := None; headings := []; word_count := 0;
         content_preview := ""; page_type := homepage; key_topics := [];
         images := [] |}
    = ["Title too short (29 chars, recommend 50-60)"; "Missing meta description"].
Proof. vm_compute. done. Qed.

End GenerateMetaFacts.

(** * The state of the Search Console data *)
Module GSCStateFacts.
Import GSCState.
Local Open Scope Z_scope.

(** The state says that there is data exactly when its reason is
    [has_data], which is when an impression or a click was counted;
    the reason [gsc_not_synced] of the type is never given; a page is
    reported as indexed without impressions only when the data was
    synced, the coverage state is [Submitted and indexed] and the
    indexing state is not [INDEXING_STATE_NOT_IN_INDEX]; and a page
    whose data was never synced is reported as such whatever its
    coverage state, unless it has impressions or clicks. *)
Theorem detectGSCDataState_reasons (url : URLWithGSCData) (impressions clicks : Z) :
  let state := detectGSCDataState url impressions clicks in
  (hasData state = true ↔ reason state = has_data)
  ∧ (reason state = has_data ↔ 0 < impressions ∨ 0 < clicks)
  ∧ reason state ≠ gsc_not_synced
  ∧ (reason state = no_gsc_data
     ↔ impressions ≤ 0 ∧ clicks ≤ 0
       ∧ truthy_text (gsc_analytics_last_updated url) = false)
  ∧ (reason state = indexed_no_impressions
     ↔ impressions ≤ 0 ∧ clicks ≤ 0
       ∧ truthy_text (gsc_analytics_last_updated url) = true
       ∧ current_gsc_coverage_state url = Some "Submitted and indexed"
       ∧ current_gsc_indexing_state url ≠ Some "INDEXING_STATE_NOT_IN_INDEX").
Proof.
  intros state. unfold state, detectGSCDataState.
  assert (Hcov : is_text (current_gsc_coverage_state url) "Submitted and indexed" = true
                 ↔ current_gsc_coverage_state url = Some "Submitted and indexed").
  { destruct (current_gsc_coverage_state url) as [s|]; simpl; [|done].
    rewrite String.eqb_eq. split; [by intros -> | by intros [= ->]]. }
  assert (Hidx : is_text (current_gsc_indexing_state url) "INDEXING_STATE_NOT_IN_INDEX" = true
                 ↔ current_gsc_indexing_state url = Some "INDEXING_STATE_NOT_IN_INDEX").
  { destruct (current_gsc_indexing_state url) as [s|]; simpl; [|done].
    rewrite String.eqb_eq. split; [by intros -> | by intros [= ->]]. }
  destruct (Z.gtb_spec impressions 0), (Z.gtb_spec clicks 0); cbn [orb];
    try (split_and!; [done | split; [lia | done] | done
                     | split; [done | lia] | split; [done | lia]]).
  destruct (truthy_text (gsc_analytics_last_updated url)); cbn [negb].
  - destruct (is_text (current_gsc_coverage_state url) _) eqn:Hc; cbn [negb orb].
    + destruct (is_text (current_gsc_indexing_state url) _) eqn:Hi;
        cbn [reason hasData];
        (split_and!; [done | split; [done | lia] | done | split; [done | by intros (_ & _ & ?)] |]).
      * split; [done|]. intros (_ & _ & _ & _ & Hne). destruct Hne. by apply Hidx.
      * split; [|done]. intros _. split_and!; [lia | lia | done | by apply Hcov |].
        intros Heq. apply Hidx in Heq. congruence.
    + cbn [reason hasData].
      split_and!; [done | split; [done | lia] | done | split; [done | by intros (_ & _ & ?)] |].
      split; [done|]. intros (_ & _ & _ & Heq & _). apply Hcov in Heq. congruence.
  - cbn [reason hasData].
    split_and!; [done | split; [done | lia] | done | split; [intros _; split_and!; [lia | lia | done] | done] |].
    split; [done|]. by intros (_ & _ & ? & _).
Qed.

Example detectGSCDataState_examples :
  reason (detectGSCDataState
            {| current_gsc_coverage_state := Some "Submitted and indexed";
               current_gsc_indexing_state := None;
               gsc_impressions_28d := None;
               gsc_analytics_last_updated := None |} 0 0) = no_gsc_data
  ∧ message (detectGSCDataState
               {| current_gsc_coverage_state := Some "Crawled - currently not indexed";
                  current_gsc_indexing_state := None;
                  gsc_impressions_28d := Some 0;
                  gsc_analytics_last_updated := Some "2025-01-01" |} 0 0)
    = "This page is not indexed by Google (Crawled - currently not indexed). Zero impressions is expected until indexed."
  ∧ message (detectGSCDataState
               {| current_gsc_coverage_state := None;
                  current_gsc_indexing_state := None;
                  gsc_impressions_28d := Some 12;
                  gsc_analytics_last_updated := None |} 12 3)
    = "Getting 3 clicks from 12 impressions in last 28 days".
Proof. vm_compute. done. Qed.

End GSCStateFacts.
